(** * OpenEra server: document store, lock manager and composition engine

    A shallow embedding of [server/openera/db.py] and [server/openera/util.py]
    and the properties of the lease protocol, the rename propagation, the
    quarantine gate, the composition digest, subschema inlining and the
    identifier renumbering pass. *)

From Stdlib Require Import String Ascii List ZArith NArith Bool Lia Arith.
From Stdlib Require Import Permutation Sorted DecimalString.
From Stdlib Require Decimal DecimalNat OrderedTypeEx.
From Equations Require Import Equations.
Import ListNotations.

Set Implicit Arguments.
Set Warnings "-register-all".
Open Scope string_scope.
Open Scope Z_scope.
Open Scope list_scope.

(** ** Python values and exceptions *)

Module Py.

(** JSON data as [json.loads] builds it: a [dict] keeps its keys in insertion
    order, so an object is an association list (its keys are distinct in
    Python; lookups take the first binding).  Numbers of the documents are
    integers. *)
Inductive json : Type :=
| JNull
| JBool (b : bool)
| JNum (n : Z)
| JStr (s : string)
| JArr (items : list json)
| JObj (fields : list (string * json)).

(** The exceptions the modelled code raises.  [OutOfFuel] is not a Python
    exception: it marks a loop of the model that was cut off. *)
Inductive exn : Type :=
| HTTPNotFound
| HTTPConflict (description : string)
| ValidationError
| JSONDecodeError
| IntegrityError
| RuntimeError
| KeyError (key : string)
| IndexError
| TypeError
| AttributeError
| ValueError (msg : string)
| AssertionError
| OutOfFuel.

Inductive result (A : Type) : Type :=
| Ok (a : A)
| Raise (e : exn).
Arguments Ok {A} a.
Arguments Raise {A} e.

Definition bind {A B} (m : result A) (k : A -> result B) : result B :=
  match m with
  | Ok a => k a
  | Raise e => Raise e
  end.

(** [d[k]] and [d.get(k)] on a dict. *)
Fixpoint assoc (k : string) (fields : list (string * json)) : option json :=
  match fields with
  | [] => None
  | (k', v) :: rest => if String.eqb k k' then Some v else assoc k rest
  end.

(** [d[k] = v]: an existing key keeps its place, a new one goes last. *)
Fixpoint assoc_set (k : string) (v : json) (fields : list (string * json))
  : list (string * json) :=
  match fields with
  | [] => [(k, v)]
  | (k', v') :: rest =>
      if String.eqb k k' then (k', v) :: rest else (k', v') :: assoc_set k v rest
  end.

(** [del d[k]]. *)
Fixpoint assoc_del (k : string) (fields : list (string * json))
  : list (string * json) :=
  match fields with
  | [] => []
  | (k', v') :: rest =>
      if String.eqb k k' then rest else (k', v') :: assoc_del k rest
  end.

(** [obj[k]] where [obj] is expected to be a dict. *)
Definition getitem (obj : json) (k : string) : result json :=
  match obj with
  | JObj fields =>
      match assoc k fields with
      | Some v => Ok v
      | None => Raise (KeyError k)
      end
  | _ => Raise TypeError
  end.

(** [obj.get(k, default)]. *)
Definition get (obj : json) (k : string) (default : json) : result json :=
  match obj with
  | JObj fields =>
      match assoc k fields with
      | Some v => Ok v
      | None => Ok default
      end
  | _ => Raise AttributeError
  end.

(** [obj[k] = v]. *)
Definition setitem (obj : json) (k : string) (v : json) : result json :=
  match obj with
  | JObj fields => Ok (JObj (assoc_set k v fields))
  | _ => Raise TypeError
  end.

(** A value used where the code needs a [str]. *)
Definition as_str (v : json) : result string :=
  match v with
  | JStr s => Ok s
  | _ => Raise TypeError
  end.

(** Truth value of a JSON value in a condition. *)
Definition truthy (v : json) : bool :=
  match v with
  | JNull => false
  | JBool b => b
  | JNum n => negb (n =? 0)
  | JStr s => negb (String.eqb s "")
  | JArr l => match l with [] => false | _ => true end
  | JObj l => match l with [] => false | _ => true end
  end.

(** [for x in v]: a list yields its items, a dict its keys, a string its
    characters. *)
Definition iter (v : json) : result (list json) :=
  match v with
  | JArr l => Ok l
  | JObj fields => Ok (map (fun kv => JStr (fst kv)) fields)
  | JStr s => Ok (map (fun c => JStr (String c "")) (list_ascii_of_string s))
  | _ => Raise TypeError
  end.

(** [s.split(sep)[-1]] for a one-character separator: what follows the last
    separator. *)
Fixpoint last_segment_from (sep : ascii) (s acc : string) : string :=
  match s with
  | EmptyString => acc
  | String c rest =>
      if Ascii.eqb c sep then last_segment_from sep rest rest
      else last_segment_from sep rest acc
  end.

Definition last_segment (sep : ascii) (s : string) : string :=
  last_segment_from sep s s.

(** [s.replace(a, b)] for single characters. *)
Fixpoint replace_char (a b : ascii) (s : string) : string :=
  match s with
  | EmptyString => EmptyString
  | String c rest => String (if Ascii.eqb c a then b else c) (replace_char a b rest)
  end.

(** Monadic map and fold over a list, left to right, stopping at the first
    exception. *)
Fixpoint mapM {A B} (f : A -> result B) (l : list A) : result (list B) :=
  match l with
  | [] => Ok []
  | x :: rest =>
      bind (f x) (fun y => bind (mapM f rest) (fun ys => Ok (y :: ys)))
  end.

Fixpoint foldM {A S} (f : S -> A -> result S) (l : list A) (s : S) : result S :=
  match l with
  | [] => Ok s
  | x :: rest => bind (f s x) (fun s' => foldM f rest s')
  end.

(** [any(p(x) for x in l)]: stops at the first true. *)
Fixpoint anyM {A} (p : A -> result bool) (l : list A) : result bool :=
  match l with
  | [] => Ok false
  | x :: rest => bind (p x) (fun b => if b then Ok true else anyM p rest)
  end.

End Py.

Export Py.

Declare Scope py_scope.
Delimit Scope py_scope with py.
Notation "x <- m ;; k" := (bind m (fun x => k))
  (at level 61, m at next level, right associativity) : py_scope.
Notation "' pat <- m ;; k" := (bind m (fun x => match x with pat => k end))
  (at level 61, pat pattern, m at next level, right associativity) : py_scope.
Open Scope py_scope.

(** [v == s] for a string [s]. *)
Definition eq_str (v : json) (s : string) : bool :=
  match v with
  | JStr s' => String.eqb s' s
  | _ => false
  end.

(** ** Identifiers and tree walks ([util.py]) *)

Module Util.

(** [ensure_list]. *)
Definition ensure_list (x : json) : list json :=
  match x with
  | JArr l => l
  | _ => [x]
  end.

(** A method of [str] called on a value: [x.split], [x.replace]. *)
Definition str_method (v : json) : result string :=
  match v with
  | JStr s => Ok s
  | _ => Raise AttributeError
  end.

(** The body of [sub_id] below the check of its argument: a value under a key
    other than ["@id"], or an item of a list, that equals [target] is
    replaced; any other list or dict is walked. *)
Fixpoint sub_id_walk (target replacement : string) (obj : json) : json :=
  match obj with
  | JObj fields =>
      JObj (map (fun kv : string * json =>
                   let (k, v) := kv in
                   if negb (String.eqb k "@id") && eq_str v target
                   then (k, JStr replacement)
                   else (k, sub_id_walk target replacement v)) fields)
  | JArr items =>
      JArr (map (fun v => if eq_str v target then JStr replacement
                          else sub_id_walk target replacement v) items)
  | _ => obj
  end.

(** [sub_id]: replace [@id] references in non-[@id] fields. *)
Definition sub_id (obj : json) (target replacement : string) : result json :=
  match obj with
  | JObj _ | JArr _ => Ok (sub_id_walk target replacement obj)
  | _ => Raise (ValueError "")
  end.

(** [collect_ids]: all [@id] fields of a document. *)
Fixpoint collect_ids (obj : json) : list json :=
  match obj with
  | JObj fields =>
      flat_map (fun kv : string * json =>
                  let (k, v) := kv in
                  (if String.eqb k "@id" then [v] else []) ++ collect_ids v) fields
  | JArr items => flat_map collect_ids items
  | _ => []
  end.

(** [recursive_remove] below the check of its argument. *)
Fixpoint remove_walk (to_remove : list string) (obj : json) : json :=
  match obj with
  | JObj fields =>
      JObj (flat_map (fun kv : string * json =>
                        let (k, v) := kv in
                        if existsb (String.eqb k) to_remove then []
                        else [(k, remove_walk to_remove v)]) fields)
  | JArr items => JArr (map (remove_walk to_remove) items)
  | _ => obj
  end.

Definition recursive_remove (obj : json) (to_remove : list string) : result json :=
  match obj with
  | JObj _ | JArr _ => Ok (remove_walk to_remove obj)
  | _ => Raise (ValueError "")
  end.

(** *** Places in a document *)

(** A step into a dict by key or into a list by index. *)
Inductive step : Type :=
| Key (k : string)
| Idx (i : nat).

Definition path : Type := list step.

Fixpoint get_at (v : json) (p : path) : option json :=
  match p with
  | [] => Some v
  | Key k :: rest =>
      match v with
      | JObj fields =>
          match assoc k fields with
          | Some v' => get_at v' rest
          | None => None
          end
      | _ => None
      end
  | Idx i :: rest =>
      match v with
      | JArr items =>
          match nth_error items i with
          | Some v' => get_at v' rest
          | None => None
          end
      | _ => None
      end
  end.

Fixpoint assoc_update (k : string) (f : json -> json) (fields : list (string * json))
  : list (string * json) :=
  match fields with
  | [] => []
  | (k', v) :: rest =>
      if String.eqb k k' then (k', f v) :: rest
      else (k', v) :: assoc_update k f rest
  end.

Fixpoint list_update (i : nat) (f : json -> json) (items : list json) : list json :=
  match items, i with
  | [], _ => []
  | x :: rest, O => f x :: rest
  | x :: rest, S i' => x :: list_update i' f rest
  end.

(** The document with [f] applied to the object at [p]: how an assignment
    through a reference to that object shows in the document. *)
Fixpoint update_at (p : path) (f : json -> json) (v : json) : json :=
  match p with
  | [] => f v
  | Key k :: rest =>
      match v with
      | JObj fields => JObj (assoc_update k (update_at rest f) fields)
      | _ => v
      end
  | Idx i :: rest =>
      match v with
      | JArr items => JArr (list_update i (update_at rest f) items)
      | _ => v
      end
  end.

(** [x["@id"] = new_id] for the dict [x]. *)
Definition set_atId (new_id : string) (x : json) : json :=
  match x with
  | JObj fields => JObj (assoc_set "@id" (JStr new_id) fields)
  | _ => x
  end.

(** *** Renumbering *)

(** [f"{counter:05d}"]: decimal, padded with zeros to five digits. *)
Definition decimal (n : nat) : string :=
  NilEmpty.string_of_uint (Nat.to_uint n).

Fixpoint zeros (k : nat) : string :=
  match k with
  | O => ""
  | S k' => String "0" (zeros k')
  end.

Definition pad5 (n : nat) : string :=
  let d := decimal n in
  zeros (5 - String.length d) ++ d.

Inductive ke_type : Type :=
| Entities | Events | Relations | Instances | Participants.

Definition ke_name (t : ke_type) : string :=
  match t with
  | Entities => "Entities"
  | Events => "Events"
  | Relations => "Relations"
  | Instances => "Instances"
  | Participants => "Participants"
  end.

(** The name a fresh identifier ends in. *)
Definition name_of (t : ke_type) (x : json) : result string :=
  match t with
  | Participants =>
      e <- getitem x "entity" ;; s <- str_method e ;; Ok (last_segment "/" s)
  | Relations =>
      l <- getitem x "wd_label" ;; s <- str_method l ;; Ok (replace_char " " "_" s)
  | _ =>
      n <- getitem x "name" ;; s <- str_method n ;; Ok (replace_char " " "_" s)
  end.

Definition canonical_id (t : ke_type) (counter : nat) (name : string) : string :=
  "cmu:" ++ ke_name t ++ "/" ++ pad5 counter ++ "/" ++ name.

Section FixAtIds.

(** [str(uuid.uuid4())]: the identifiers the generator hands out, in the order
    of the draws. *)
Variable uuid4 : nat -> string.

(** Whether [fix_atIds] draws random identifiers; [draws] counts the draws
    made before the call. *)
Variable use_uuids : bool.
Variable draws : nat.

(** One turn of the loop of [fix_for_ke_type], for the element at [p]. *)
Definition fix_one (t : ke_type) (st : json * nat) (p : path) : result (json * nat) :=
  let (lib, counter) := st in
  match get_at lib p with
  | None => Raise IndexError
  | Some x =>
      name <- name_of t x ;;
      old <- getitem x "@id" ;;
      old_atId <- as_str old ;;
      let new_atId := if use_uuids then uuid4 (draws + counter)%nat
                      else canonical_id t counter name in
      lib' <- sub_id (update_at p (set_atId new_atId) lib) old_atId new_atId ;;
      Ok (lib', S counter)
  end.

(** [fix_for_ke_type] on the elements at the given places. *)
Definition fix_for_ke_type (t : ke_type) (places : list path) (st : json * nat)
  : result (json * nat) :=
  foldM (fix_one t) places st.

(** The places of [ensure_list(v)] when [v] sits at [p]. *)
Definition places_of (p : path) (v : json) : list path :=
  match v with
  | JArr items => map (fun i => p ++ [Idx i]) (seq 0 (length items))
  | _ => [p]
  end.

(** [ensure_list(lib[key])]. *)
Definition required_places (lib : json) (key : string) : result (list path) :=
  v <- getitem lib key ;; Ok (places_of [Key key] v).

(** [ensure_list(lib.get(key, []))]. *)
Definition optional_places (lib : json) (key : string) : result (list path) :=
  v <- get lib key (JArr []) ;; Ok (places_of [Key key] v).

(** The participants of one event, for the comprehension
    [for event in ... if "participants" in event for participant in
    event["participants"]]; the events are dicts once their own identifiers
    are fixed.  Participants that are not a list have no identifier to fix:
    an empty dict or string yields nothing, anything else is not a list of
    dicts. *)
Definition participant_places (lib : json) (p : path) : result (list path) :=
  match get_at lib p with
  | Some (JObj fields) =>
      match assoc "participants" fields with
      | None => Ok []
      | Some (JArr items) =>
          Ok (map (fun i => p ++ [Key "participants"; Idx i]) (seq 0 (length items)))
      | Some (JObj []) => Ok []
      | Some (JStr EmptyString) => Ok []
      | Some _ => Raise TypeError
      end
  | _ => Raise TypeError
  end.

(** [fix_atIds]: the document with fresh identifiers and the number of
    identifiers assigned. *)
Definition fix_atIds (lib : json) : result (json * nat) :=
  ps <- required_places lib "entities" ;;
  st <- fix_for_ke_type Entities ps (lib, O) ;;
  ps <- required_places (fst st) "events" ;;
  st <- fix_for_ke_type Events ps st ;;
  ps <- optional_places (fst st) "relations" ;;
  st <- fix_for_ke_type Relations ps st ;;
  ps <- optional_places (fst st) "instances" ;;
  st <- fix_for_ke_type Instances ps st ;;
  eps <- required_places (fst st) "events" ;;
  pss <- mapM (participant_places (fst st)) eps ;;
  fix_for_ke_type Participants (concat pss) st.

End FixAtIds.

(** *** Strings and routes *)

(** [s[n:]]. *)
Fixpoint drop (n : nat) (s : string) : string :=
  match n, s with
  | O, _ => s
  | S n', EmptyString => EmptyString
  | S n', String _ rest => drop n' rest
  end.

(** [s.replace(old, new)] for a non-empty [old]: the text is read from the
    left; where [old] starts, [new] is written and the characters of [old]
    are skipped, so occurrences do not overlap.  [skip] counts the characters
    of a match still to be skipped. *)
Fixpoint replace_from (old new s : string) (skip : nat) : string :=
  match s with
  | EmptyString => EmptyString
  | String c rest =>
      match skip with
      | S k => replace_from old new rest k
      | O =>
          if String.prefix old s
          then new ++ replace_from old new rest (String.length old - 1)
          else String c (replace_from old new rest 0)
      end
  end.

(** [s.replace("", new)]: [new] goes before every character and at the end. *)
Fixpoint interleave (new s : string) : string :=
  match s with
  | EmptyString => new
  | String c rest => new ++ String c (interleave new rest)
  end.

(** [s.replace(old, new)]. *)
Definition replace (old new s : string) : string :=
  match old with
  | EmptyString => interleave new s
  | _ => replace_from old new s 0
  end.

(** [UriConverter.convert]. *)
Definition convert (value : string) : string :=
  replace "_FSLASH_" "/" value.

(** [s.rstrip("/")]. *)
Fixpoint rstrip_slash (s : string) : string :=
  match s with
  | EmptyString => EmptyString
  | String c rest =>
      match rstrip_slash rest with
      | EmptyString => if Ascii.eqb c "/" then EmptyString else String c EmptyString
      | rest' => String c rest'
      end
  end.

(** An [api_dict] of [create_api]: a value is another [api_dict] or something
    to be served, a resource. *)
Inductive api_value (resource : Type) : Type :=
| Resource (r : resource)
| Routes (api_dict : list (string * api_value resource)).

(** [create_api], for the value [v] found under a key whose route is [route].
    The server instance [app] is the list of the calls of [app.add_route],
    the first call first. *)
Fixpoint add_routes {resource} (app : list (string * resource)) (route : string)
    (v : api_value resource) : list (string * resource) :=
  match v with
  | Resource r => app ++ [(route, r)]
  | Routes api_dict =>
      fold_left (fun app (kv : string * api_value resource) =>
                   let (k, v) := kv in
                   add_routes app (rstrip_slash (route ++ "/" ++ k)) v)
                api_dict app
  end.

(** [create_api]. *)
Definition create_api {resource} (app : list (string * resource)) (base_route : string)
    (api_dict : list (string * api_value resource)) : list (string * resource) :=
  add_routes app base_route (Routes api_dict).

(** [get_schema_name]. *)
Definition get_schema_name (atId : string) : string :=
  last_segment "/" atId.

(** *** Mapping over a document *)

(** The types of the values of a JSON document, for [isinstance]. *)
Inductive pytype : Type :=
| NoneType | PyBool | PyInt | PyStr | PyList | PyDict.

(** [isinstance(x, t)]; [bool] is a subclass of [int]. *)
Definition isinstance (x : json) (t : pytype) : bool :=
  match x, t with
  | JNull, NoneType => true
  | JBool _, PyBool => true
  | JBool _, PyInt => true
  | JNum _, PyInt => true
  | JStr _, PyStr => true
  | JArr _, PyList => true
  | JObj _, PyDict => true
  | _, _ => false
  end.

(** [map_over_dict]: the value it returns.  A dict or list that is not of an
    accepted type is changed in place and returned, so this is also the
    state of [x] after the call. *)
Fixpoint map_over_dict (f : json -> json) (accepted_types : list pytype) (x : json)
  : json :=
  if existsb (isinstance x) accepted_types then f x
  else
    match x with
    | JObj fields =>
        JObj (map (fun kv : string * json =>
                     let (k, v) := kv in (k, map_over_dict f accepted_types v)) fields)
    | JArr items => JArr (map (map_over_dict f accepted_types) items)
    | _ => x
    end.

(** The function [replace] of [replace_kairos_prefix]. *)
Definition replace_prefix (kairos_prefix : string) (s : json) : json :=
  match s with
  | JStr s' => JStr (replace kairos_prefix "kairos:" s')
  | _ => s
  end.

(** [replace_kairos_prefix]: the state of [j] after the call.  The value that
    [map_over_dict] returns is dropped, so a [j] that is itself a string
    stays as it is.  [kairos_prefix] is [get_sdf_context()["@context"]["kairos"]]. *)
Definition replace_kairos_prefix (kairos_prefix : string) (j : json) : json :=
  match j with
  | JObj _ | JArr _ => map_over_dict (replace_prefix kairos_prefix) [PyStr] j
  | _ => j
  end.

(** *** The version in the name of the context file *)

Definition newline : ascii := Ascii.ascii_of_nat 10.

(** The group [(.+)] of the pattern [-v(.+)\.jsonld] when the match starts
    just before [s]: the longest run of one or more characters other than a
    newline that is followed by [.jsonld]. *)
Fixpoint version_group (s : string) : option string :=
  match s with
  | EmptyString => None
  | String c rest =>
      if Ascii.eqb c newline then None
      else
        match version_group rest with
        | Some g => Some (String c g)
        | None => if String.prefix ".jsonld" rest then Some (String c EmptyString)
                  else None
        end
  end.

(** [re.search(r"-v(.+)\.jsonld", s)]: the group of the leftmost match. *)
Fixpoint search_version (s : string) : option string :=
  match s with
  | EmptyString => None
  | String _ rest =>
      if String.prefix "-v" s then
        match version_group (drop 2 s) with
        | Some g => Some g
        | None => search_version rest
        end
      else search_version rest
  end.

(** [extract_sdf_version]. *)
Definition extract_sdf_version (context_file_name : string) : result string :=
  match search_version context_file_name with
  | Some version => Ok version
  | None => Raise (ValueError "Could not parse SDF context file path.")
  end.

(** *** Well-formed identifiers *)

Definition FILLER_CHAR : ascii := "$".

(** A character of [ACCEPTABLE_CHARS]: a hyphen, a letter, a digit or one of
    the twelve signs listed after them, here by their codes. *)
Definition acceptable (c : ascii) : bool :=
  let n := nat_of_ascii c in
  ((n =? 45) || ((97 <=? n) && (n <=? 122)) || ((65 <=? n) && (n <=? 90))
   || ((48 <=? n) && (n <=? 57))
   || existsb (Nat.eqb n) [36; 95; 64; 46; 38; 33; 42; 34; 39; 124; 44; 37])%nat.

(** What [CMU_ID_REGEX] allows after [cmu:]: characters that are acceptable
    or a slash, the last one acceptable; like every [$], the one of the
    pattern also matches before a newline that ends the text. *)
Fixpoint valid_tail (s : string) : bool :=
  match s with
  | EmptyString => false
  | String c rest =>
      match rest with
      | EmptyString => acceptable c
      | _ =>
          (acceptable c && String.eqb rest (String newline EmptyString))
          || ((acceptable c || Ascii.eqb c "/") && valid_tail rest)
      end
  end.

(** [is_valid_cmu_id]. *)
Definition is_valid_cmu_id (s : string) : bool :=
  String.prefix "cmu:" s && valid_tail (drop 4 s).

(** [re.sub(f"[^{ACCEPTABLE_CHARS}/]", FILLER_CHAR, s)]. *)
Fixpoint fill (s : string) : string :=
  match s with
  | EmptyString => EmptyString
  | String c rest =>
      String (if acceptable c || Ascii.eqb c "/" then c else FILLER_CHAR) (fill rest)
  end.

(** [s[-1]]. *)
Fixpoint last_char (s : string) : result ascii :=
  match s with
  | EmptyString => Raise IndexError
  | String c EmptyString => Ok c
  | String _ rest => last_char rest
  end.

(** The first part of [ensure_valid_cmu_id]: an identifier that is not valid
    is given the prefix and has its other characters filled. *)
Definition normalise_cmu_id (s : string) : result string :=
  if is_valid_cmu_id s then Ok s
  else
    c <- last_char s ;;
    let s := if Ascii.eqb c "/" then (s ++ String FILLER_CHAR EmptyString)%string
             else s in
    let s := if negb (String.eqb (String.substring 0 4 s) "cmu:")
             then ("cmu:" ++ s)%string else s in
    Ok ("cmu:" ++ fill (drop 4 s))%string.

(** The loop [while s + suffix in all_ids] of [ensure_valid_cmu_id]; the
    suffix is empty on entry ([i = 0]) and [f"_{i}"] after that. *)
Definition id_suffix (i : nat) : string :=
  match i with
  | O => EmptyString
  | S _ => ("_" ++ decimal i)%string
  end.

Fixpoint free_suffix (fuel : nat) (all_ids : list string) (s : string) (i : nat)
  : result string :=
  match fuel with
  | O => Raise OutOfFuel
  | S fuel' =>
      if existsb (String.eqb (s ++ id_suffix i)%string) all_ids
      then free_suffix fuel' all_ids s (S i)
      else Ok (s ++ id_suffix i)%string
  end.

(** [ensure_valid_cmu_id]: the identifier it returns and the set [all_ids]
    after the call. *)
Definition ensure_valid_cmu_id (fuel : nat) (all_ids : list string) (s : string)
  : result (string * list string) :=
  s <- normalise_cmu_id s ;;
  new_s <- free_suffix fuel all_ids s 0 ;;
  Ok (new_s, new_s :: all_ids).

End Util.
(** ** The document store and the lock manager ([db.py]) *)

Module Db.

(** How long a write lock lasts on a schema, in seconds. *)
Definition LOCK_LIFETIME : Z := 20.

(** The [data] column holds the JSON text of a document.  The code reads it
    only through [json.loads] and writes it only through [json.dumps], so a
    text is given by what [json.loads] makes of it. *)
Inductive text : Type :=
| Malformed (raw : string)
| Dumps (j : json).

Definition json_loads (t : text) : result json :=
  match t with
  | Dumps j => Ok j
  | Malformed _ => Raise JSONDecodeError
  end.

Definition json_dumps (j : json) : text := Dumps j.

(** A row of the [schema] table; [atId] is its primary key. *)
Record SchemasTableRow : Type := mkRow {
  atId : string;
  lock_ts : option Z;
  holder_id : option string;
  data : text;
  quarantined : Z;
  note : option string
}.

Definition table : Type := list SchemasTableRow.

(** [SELECT ... FROM Schema WHERE atId=?]. *)
Definition select_by_atId (schema_id : string) (tbl : table) : table :=
  filter (fun r => String.eqb (atId r) schema_id) tbl.

(** The [PRIMARY KEY] constraint of the table. *)
Definition primary_key (tbl : table) : Prop := NoDup (map atId tbl).

Definition holder_is (h : option string) (client_id : string) : bool :=
  match h with
  | Some h' => String.eqb h' client_id
  | None => false
  end.

(** [lock_ts is not None and _unix_now() - lock_ts <= LOCK_LIFETIME]. *)
Definition lock_is_valid (now : Z) (ts : option Z) : bool :=
  match ts with
  | Some t => now - t <=? LOCK_LIFETIME
  | None => false
  end.

Definition with_lock (ts : option Z) (h : option string) (r : SchemasTableRow)
  : SchemasTableRow :=
  mkRow (atId r) ts h (data r) (quarantined r) (note r).

(** [Transaction.set_lock].  [now] is what [_unix_now()] returns while the
    transaction runs: a transaction is taken to last less than the one-second
    step of the clock. *)
Definition set_lock (now : Z) (acquire : bool) (schema_id client_id : string)
    (tbl : table) : result table :=
  match select_by_atId schema_id tbl with
  | [] => Raise HTTPNotFound
  | r :: _ =>
      if lock_is_valid now (lock_ts r) && negb (holder_is (holder_id r) client_id)
      then Raise (HTTPConflict
                    ("Another user is editing the schema with @id " ++ schema_id ++ "."))
      else
        let new_ts := if acquire then Some now else None in
        let new_holder := if acquire then Some client_id else None in
        let tbl' :=
          map (fun r' => if String.eqb (atId r') schema_id
                         then with_lock new_ts new_holder r' else r') tbl in
        if (length (select_by_atId schema_id tbl) =? 1)%nat
        then Ok tbl' else Raise RuntimeError
  end.

Fixpoint filterM {A} (p : A -> result bool) (l : list A) : result (list A) :=
  match l with
  | [] => Ok []
  | x :: rest =>
      b <- p x ;;
      ys <- filterM p rest ;;
      Ok (if b then x :: ys else ys)
  end.

(** [any(e.get("wd_node", None) == old_id for e in schema.get("events", []))]. *)
Definition refers_to (old_id : string) (schema : json) : result bool :=
  events <- get schema "events" (JArr []) ;;
  es <- iter events ;;
  anyM (fun e => w <- get e "wd_node" JNull ;; Ok (eq_str w old_id)) es.

(** The body of the loop that re-points one event of a referring schema. *)
Definition repoint_event (old_id new_id : string) (event : json) : result json :=
  w <- get event "wd_node" JNull ;;
  if eq_str w old_id then
    e1 <- setitem event "wd_node" (JStr new_id) ;;
    setitem e1 "wd_label" (JStr (last_segment "/" new_id))
  else Ok event.

Definition repoint_schema (old_id new_id : string) (ref_data : json) : result json :=
  events <- getitem ref_data "events" ;;
  es <- iter events ;;
  es' <- mapM (repoint_event old_id new_id) es ;;
  match events with
  | JArr _ => setitem ref_data "events" (JArr es')
  | _ => Ok ref_data
  end.

(** [sdf_data["@id"]], a string in every [sdf.Document]. *)
Definition document_id (sdf_data : json) : result string :=
  v <- getitem sdf_data "@id" ;; as_str v.

(** The locking loop of [_change_referring_schemas]: a conflict is re-raised
    with a description that names the referring schema. *)
Definition lock_referrer (now : Z) (client_id : string) (tbl : table)
    (ref_data : json) : result table :=
  ref_id <- document_id ref_data ;;
  match set_lock now true ref_id client_id tbl with
  | Raise (HTTPConflict _) =>
      Raise (HTTPConflict ("Schema with @id " ++ ref_id ++
                           " refers to this schema and could not be locked."))
  | r => r
  end.

Section Write.

(** The recursive call of [write_schema] from [_change_referring_schemas]. *)
Variable write_schema_rec : string -> json -> string -> table -> result table.

Definition rewrite_referrer (old_id new_id client_id : string) (tbl : table)
    (ref_data : json) : result table :=
  ref_data' <- repoint_schema old_id new_id ref_data ;;
  ref_id <- document_id ref_data' ;;
  write_schema_rec ref_id ref_data' client_id tbl.

(** [Transaction._change_referring_schemas]. *)
Definition _change_referring_schemas (now : Z) (old_id new_id client_id : string)
    (tbl : table) : result table :=
  if String.eqb old_id new_id then Ok tbl
  else
    all_schemas <- mapM (fun r => json_loads (data r))
                        (filter (fun r => quarantined r =? 0) tbl) ;;
    referring_schemas <- filterM (refers_to old_id) all_schemas ;;
    tbl1 <- foldM (lock_referrer now client_id) referring_schemas tbl ;;
    foldM (rewrite_referrer old_id new_id client_id) referring_schemas tbl1.

End Write.

(** [UPDATE Schema SET data=:data, atId=:dataAtId, quarantined=0 WHERE
    atId=:atId]; moving a row onto the key of another row violates the primary
    key. *)
Definition update_schema (schema_id new_id : string) (d : text) (tbl : table)
  : result table :=
  if negb (String.eqb new_id schema_id)
     && existsb (fun r => String.eqb (atId r) schema_id) tbl
     && existsb (fun r => String.eqb (atId r) new_id) tbl
  then Raise IntegrityError
  else Ok (map (fun r => if String.eqb (atId r) schema_id
                         then mkRow new_id (lock_ts r) (holder_id r) d 0 (note r)
                         else r) tbl).

(** [Transaction.write_schema].  [depth] bounds the nesting of the calls
    through [_change_referring_schemas]; the nested call renames nothing, so
    depth 2 is all the code ever uses. *)
Fixpoint write_schema (depth : nat) (now : Z) (schema_id : string) (sdf_data : json)
    (client_id : string) (tbl : table) : result table :=
  match depth with
  | O => Raise OutOfFuel
  | S depth' =>
      tbl1 <- set_lock now true schema_id client_id tbl ;;
      new_id <- document_id sdf_data ;;
      tbl2 <- _change_referring_schemas (write_schema depth' now)
                now schema_id new_id client_id tbl1 ;;
      update_schema schema_id new_id (json_dumps sdf_data) tbl2
  end.

(** [get_lock_holder]. *)
Definition get_lock_holder (schema_id : string) (tbl : table) : option string :=
  match select_by_atId schema_id tbl with
  | r :: _ => holder_id r
  | [] => None
  end.

(** [do_transaction]: the block runs on the store; it commits when the block
    returns and rolls back when it raises. *)
Definition do_transaction {A} (block : table -> result (A * table)) (tbl : table)
  : result A * table :=
  match block tbl with
  | Ok (a, tbl') => (Ok a, tbl')
  | Raise e => (Raise e, tbl)
  end.

Definition unit_block (f : table -> result table) (tbl : table)
  : result (unit * table) :=
  tbl' <- f tbl ;; Ok (tt, tbl').

Section Validation.

(** [util.validate_type(sdf.Document, data)] succeeds: the shape of
    [sdf.Document] is generated from a type specification outside this code. *)
Variable validate_document : json -> bool.

(** [util.validate_type(sdf.Document, data)]: the model of the type is built
    from the keys of [data], which has to be a dict. *)
Definition validate_type (d : json) : result json :=
  match d with
  | JObj _ => if validate_document d then Ok d else Raise ValidationError
  | _ => Raise TypeError
  end.

(** [loads_sdf]. *)
Definition loads_sdf (t : text) : result json :=
  j <- json_loads t ;; validate_type j.

(** [get_schema]. *)
Definition get_schema (schema_id : string) (no_validate : bool) (tbl : table)
  : result json :=
  match select_by_atId schema_id tbl with
  | r :: _ => if no_validate then json_loads (data r) else loads_sdf (data r)
  | [] => Raise HTTPNotFound
  end.

(** [DELETE FROM Schema WHERE atId=?]. *)
Definition delete_by_atId (schema_id : string) (tbl : table) : table :=
  filter (fun r => negb (String.eqb (atId r) schema_id)) tbl.

(** [Transaction.delete_schema]. *)
Definition delete_schema (schema_id client_id : string) (tbl : table)
  : result table :=
  match get_lock_holder schema_id tbl with
  | Some h =>
      if String.eqb h client_id
      then Ok (delete_by_atId schema_id tbl)
      else
        d <- get_schema schema_id false tbl ;;
        desc <- document_id d ;;
        Raise (HTTPConflict ("Another user is editing the schema " ++ desc ++ "."))
  | None => Ok (delete_by_atId schema_id tbl)
  end.

(** The message that [util.validate_type] gives its [ValidationError] for a
    dict that does not validate: the lines [- loc: msg] of the errors of the
    model. *)
Variable validation_message : json -> string.

(** [_validate_schemas], the pass at start-up: every row that is not
    quarantined and whose content does not load is quarantined with the
    reason, which for a document that does not validate is [Not Valid SDF],
    a newline and the message of the validation. *)
Definition quarantine_reason (t : text) : result (option string) :=
  match json_loads t with
  | Ok data_dict =>
      match validate_type data_dict with
      | Ok _ => Ok None
      | Raise ValidationError =>
          Ok (Some ("Not Valid SDF"
                    ++ String Util.newline (validation_message data_dict))%string)
      | Raise e => Raise e
      end
  | Raise JSONDecodeError => Ok (Some "Not valid JSON")
  | Raise e => Raise e
  end.

Definition _validate_schemas (tbl : table) : result table :=
  mapM (fun r =>
          if quarantined r =? 0 then
            reason <- quarantine_reason (data r) ;;
            match reason with
            | Some why => Ok (mkRow (atId r) (lock_ts r) (holder_id r) (data r) 1 (Some why))
            | None => Ok r
            end
          else Ok r) tbl.

End Validation.

(** *** Composition *)

Definition _alphabet : string :=
  "0123456789ABCDEFGHIJKLMNOPQRSTUVWXYZabcdefghijklmnopqrstuvwxyz".

(** [_alphabet[d]]. *)
Definition alphabet_at (d : N) : ascii :=
  match String.get (N.to_nat d) _alphabet with
  | Some c => c
  | None => "0"%char
  end.

(** [sum(x * 2 ** (8 * i) for i, x in enumerate(b))]. *)
Fixpoint le_value (b : list Byte.byte) : N :=
  match b with
  | [] => 0%N
  | x :: rest => (Byte.to_N x + 256 * le_value rest)%N
  end.

(** The loop of [digest_to_base62]: the digits of [n], the lowest first. *)
Equations? to_base62 (n : N) : string by wf (N.to_nat n) lt :=
  to_base62 N0 := EmptyString;
  to_base62 (Npos p) :=
    String (alphabet_at (Npos p mod 62)) (to_base62 (Npos p / 62)).
Proof.
  assert (Npos p / 62 < Npos p)%N by (apply N.div_lt; lia). lia.
Qed.

(** [digest_to_base62]. *)
Definition digest_to_base62 (b : list Byte.byte) : string :=
  to_base62 (le_value b).

(** [sorted(l, key=...)] on keyed items: a stable sort by the string order of
    the keys. *)
Fixpoint insert_sorted {A} (k : string) (x : A) (l : list (string * A))
  : list (string * A) :=
  match l with
  | [] => [(k, x)]
  | (k', y) :: rest =>
      if String.leb k k' then (k, x) :: l else (k', y) :: insert_sorted k x rest
  end.

Fixpoint sorted_by_key {A} (l : list (string * A)) : list (string * A) :=
  match l with
  | [] => []
  | (k, x) :: rest => insert_sorted k x (sorted_by_key rest)
  end.

(** A value used as a member of a [set] or as a key of a [dict]: lists and
    dicts cannot be hashed. *)
Definition hashable (v : json) : result json :=
  match v with
  | JArr _ | JObj _ => Raise TypeError
  | _ => Ok v
  end.

(** [v in s] for a set [s] of strings. *)
Definition in_strings (s : list string) (v : json) : result bool :=
  match v with
  | JStr x => Ok (existsb (String.eqb x) s)
  | JArr _ | JObj _ => Raise TypeError
  | _ => Ok false
  end.

(** [for e in ensure_list(doc[key]): ...] where the body changes [e] in
    place. *)
Definition for_each_in (key : string) (body : json -> result json) (doc : json)
  : result json :=
  v <- getitem doc key ;;
  match v with
  | JArr items => items' <- mapM body items ;; setitem doc key (JArr items')
  | _ => v' <- body v ;; setitem doc key v'
  end.

(** [_tag_objects] for one object. *)
Definition _tag_object (tag : json) (obj : json) : result json :=
  private_data <- get obj "privateData" (JObj []) ;;
  private_data' <- setitem private_data "originalDocumentId" tag ;;
  setitem obj "privateData" private_data'.

(** [library[key] += items]. *)
Definition extend (library : json) (key : string) (items : list json) : result json :=
  v <- getitem library key ;;
  match v with
  | JArr l => setitem library key (JArr (l ++ items))
  | _ => Raise TypeError
  end.

(** [e.get("privateData", {}).get("isSchemaArg", False)]. *)
Definition is_schema_arg (e : json) : result bool :=
  pd <- get e "privateData" (JObj []) ;;
  flag <- get pd "isSchemaArg" (JBool false) ;;
  Ok (truthy flag).

(** [e.get("privateData", {})["isSchemaArg"] = False]: lost when [e] has no
    private data. *)
Definition clear_schema_arg (e : json) : result json :=
  pd <- get e "privateData" (JObj []) ;;
  pd' <- setitem pd "isSchemaArg" (JBool false) ;;
  match e with
  | JObj fields =>
      match assoc "privateData" fields with
      | Some _ => setitem e "privateData" pd'
      | None => Ok e
      end
  | _ => Ok e
  end.

(** [_add_to_library]. *)
Definition _add_to_library (library schema : json) (remove_args : bool) : result json :=
  tag <- getitem schema "@id" ;;
  evs <- getitem schema "events" ;;
  evs' <- mapM (_tag_object tag) (Util.ensure_list evs) ;;
  library <- extend library "events" evs' ;;
  ents <- getitem schema "entities" ;;
  entities <- filterM (fun e => if remove_args
                                then (a <- is_schema_arg e ;; Ok (negb a))
                                else Ok true) (Util.ensure_list ents) ;;
  entities <- mapM clear_schema_arg entities ;;
  entities <- mapM (_tag_object tag) entities ;;
  library <- extend library "entities" entities ;;
  rels <- get schema "relations" (JArr []) ;;
  rels' <- mapM (_tag_object tag) (Util.ensure_list rels) ;;
  library <- extend library "relations" rels' ;;
  prov <- get schema "provenanceData" (JArr []) ;;
  prov' <- mapM (_tag_object tag) (Util.ensure_list prov) ;;
  extend library "provenanceData" prov'.

(** [event.get("wd_node", "")[:4] == "cmu:"]. *)
Definition is_subschema_event (event : json) : result bool :=
  w <- get event "wd_node" (JStr "") ;;
  match w with
  | JStr s => Ok (String.eqb (String.substring 0 4 s) "cmu:")
  | JArr _ => Ok false
  | _ => Raise TypeError
  end.

(** The formal arguments of a subschema: the dict [args] from the name of
    each argument entity to its identifier (a later entity of the same name
    takes the place of an earlier one), and the set [unused_args]. *)
Fixpoint dict_put (k v : string) (d : list (string * string)) : list (string * string) :=
  match d with
  | [] => [(k, v)]
  | (k', v') :: rest =>
      if String.eqb k k' then (k', v) :: rest else (k', v') :: dict_put k v rest
  end.

Fixpoint dict_find (k : string) (d : list (string * string)) : option string :=
  match d with
  | [] => None
  | (k', v) :: rest => if String.eqb k k' then Some v else dict_find k rest
  end.

Definition schema_args (subschema : json) : result (list (string * string)) :=
  ents <- getitem subschema "entities" ;;
  foldM (fun d e =>
           a <- is_schema_arg e ;;
           if a then
             n <- getitem e "name" ;; name <- as_str n ;;
             i <- getitem e "@id" ;; arg_id <- as_str i ;;
             Ok (dict_put name arg_id d)
           else Ok d) (Util.ensure_list ents) [].

Fixpoint set_remove (x : string) (s : list string) : result (list string) :=
  match s with
  | [] => Raise (KeyError x)
  | y :: rest =>
      if String.eqb x y then Ok rest
      else rest' <- set_remove x rest ;; Ok (y :: rest')
  end.

(** The loop that binds the participants of the placeholder event to the
    formal arguments. *)
Definition bind_participant (args : list (string * string))
    (st : json * list string) (p : json) : result (json * list string) :=
  let (subschema, unused_args) := st in
  role <- getitem p "roleName" ;;
  role <- hashable role ;;
  match role with
  | JStr r =>
      match dict_find r args with
      | None => Raise (KeyError r)
      | Some arg_id =>
          ent <- getitem p "entity" ;;
          entity <- as_str ent ;;
          subschema' <- Util.sub_id subschema arg_id entity ;;
          unused' <- set_remove arg_id unused_args ;;
          Ok (subschema', unused')
      end
  | _ => Raise (KeyError "roleName")
  end.

(** The [while j < len(ps)] loop that drops the participants bound to unused
    arguments; [i] is the index of the placeholder event in the library. *)
Fixpoint prune_participants (fuel : nat) (i : nat) (unused_args : list string)
    (ps : list json) (j : nat) : result (list json) :=
  match fuel with
  | O => Raise OutOfFuel
  | S fuel' =>
      match nth_error ps j with
      | None => Ok ps
      | Some p =>
          ent <- getitem p "entity" ;;
          drop <- in_strings unused_args ent ;;
          if drop
          then prune_participants fuel' i unused_args
                 (firstn j ps ++ skipn (S j) ps) j
          else prune_participants fuel' i unused_args ps (j + i)
      end
  end.

Definition prune_event (fuel : nat) (i : nat) (unused_args : list string) (e : json)
  : result json :=
  v <- getitem e "participants" ;;
  ps <- prune_participants fuel i unused_args (Util.ensure_list v) 0 ;;
  setitem e "participants" (JArr ps).

Fixpoint dedup (l : list string) : list string :=
  match l with
  | [] => []
  | x :: rest => if existsb (String.eqb x) rest then dedup rest else x :: dedup rest
  end.

(** [all_events - all_children] of a subschema. *)
Definition all_roots (subschema : json) : result (list string) :=
  evs <- getitem subschema "events" ;;
  all_events <- mapM (fun e => i <- getitem e "@id" ;; as_str i) (Util.ensure_list evs) ;;
  children <- mapM (fun e => cs <- get e "children" (JArr []) ;;
                             mapM (fun c => ch <- getitem c "child" ;; hashable ch)
                                  (Util.ensure_list cs))
                   (Util.ensure_list evs) ;;
  Ok (filter (fun id => negb (existsb (fun c => eq_str c id) (concat children)))
             (dedup all_events)).

(** The root of a subschema: more than one root is refused, and the first of
    no roots does not exist. *)
Definition subschema_root (subschema : json) : result string :=
  roots <- all_roots subschema ;;
  if (1 <? length roots)%nat then
    i <- getitem subschema "@id" ;;
    name <- as_str i ;;
    Raise (ValueError ("Subschema " ++ name ++ " has multiple root events."))
  else
    match roots with
    | root :: _ => Ok root
    | [] => Raise IndexError
    end.

(** [del events[i]] where [events] is the list of events of the library. *)
Definition del_event (i : nat) (lib : json) : result json :=
  v <- getitem lib "events" ;;
  match v with
  | JArr items => setitem lib "events" (JArr (firstn i items ++ skipn (S i) items))
  | _ => Ok lib
  end.

(** [util.sub_id(events, target, replacement)] on the list of events of the
    library. *)
Definition sub_id_events (lib : json) (target replacement : string) : result json :=
  v <- getitem lib "events" ;;
  match v with
  | JArr items =>
      v' <- Util.sub_id v target replacement ;; setitem lib "events" v'
  | _ => Ok lib
  end.

Section Compose.

Variable validate_document : json -> bool.

(** [str(uuid.uuid4())], by the number of the draw. *)
Variable uuid4 : nat -> string.

(** [json.dumps(s).encode()] and [hashlib.blake2b(digest_size=8)]. *)
Variable encode : text -> list Byte.byte.
Variable blake2b : list Byte.byte -> list Byte.byte.

(** The ["@context"] of the context file and the SDF version in its name. *)
Variable jsonld_context : json.
Variable sdf_version : string.

(** [get_wikidata_values]: the label and description of a Wikidata node, from
    the cache or from the Wikidata API. *)
Variable get_wikidata_values : string -> result (string * string).

(** The body of the loop of [inject_subschemas] for a placeholder [event] at
    index [i] whose subschema was loaded: the library with the subschema in
    the place of the event, and the number of identifiers drawn. *)
Definition inline_subschema (fuel : nat) (draws : nat) (lib : json) (i : nat)
    (event subschema : json) : result (json * nat) :=
  '(subschema, n) <- Util.fix_atIds uuid4 true draws subschema ;;
  args <- schema_args subschema ;;
  let unused_args := dedup (map snd args) in
  ps <- getitem event "participants" ;;
  '(subschema, unused_args) <-
     foldM (bind_participant args) (Util.ensure_list ps) (subschema, unused_args) ;;
  subschema <- for_each_in "events" (prune_event fuel i unused_args) subschema ;;
  lib <- del_event i lib ;;
  lib <- _add_to_library lib subschema true ;;
  subschema_root_id <- subschema_root subschema ;;
  e <- getitem event "@id" ;;
  event_id <- as_str e ;;
  lib <- sub_id_events lib event_id subschema_root_id ;;
  lib <- Util.sub_id lib event_id subschema_root_id ;;
  Ok (lib, (draws + n)%nat).

(** [inject_subschemas]: the [while i < len(events)] loop. *)
Fixpoint inject_loop (fuel : nat) (tbl : table) (draws : nat) (lib : json) (i : nat)
  : result (json * nat) :=
  match fuel with
  | O => Raise OutOfFuel
  | S fuel' =>
      v <- getitem lib "events" ;;
      match nth_error (Util.ensure_list v) i with
      | None => Ok (lib, draws)
      | Some event =>
          sub <- is_subschema_event event ;;
          if sub then
            w <- getitem event "wd_node" ;;
            schema_id <- as_str w ;;
            match select_by_atId schema_id tbl with
            | [] => inject_loop fuel' tbl draws lib (S i)
            | r :: _ =>
                match loads_sdf validate_document (data r) with
                | Raise ValidationError => inject_loop fuel' tbl draws lib (S i)
                | Raise e => Raise e
                | Ok subschema =>
                    '(lib', draws') <- inline_subschema fuel draws lib i event subschema ;;
                    inject_loop fuel' tbl draws' lib' i
                end
            end
          else inject_loop fuel' tbl draws lib (S i)
      end
  end.

Definition inject_subschemas (fuel : nat) (tbl : table) (draws : nat) (lib : json)
  : result (json * nat) :=
  inject_loop fuel tbl draws lib 0.

(** [len(v)]. *)
Definition len (v : json) : result nat :=
  match v with
  | JArr l => Ok (length l)
  | JObj l => Ok (length l)
  | JStr s => Ok (String.length s)
  | _ => Raise TypeError
  end.

Definition has_key (k : string) (e : json) : bool :=
  match e with
  | JObj fields => match assoc k fields with Some _ => true | None => false end
  | _ => false
  end.

Definition del_key (k : string) (e : json) : json :=
  match e with
  | JObj fields => JObj (assoc_del k fields)
  | _ => e
  end.

(** [_fix_children_gates] for one event, a dict. *)
Definition fix_children_gate (e : json) : result json :=
  match e with
  | JObj _ =>
      e <- (if has_key "children" e
            then c <- getitem e "children" ;; n <- len c ;;
                 Ok (if (n =? 0)%nat then del_key "children" e else e)
            else Ok e) ;;
      let e := if negb (has_key "children" e) && has_key "children_gate" e
               then del_key "children_gate" e else e in
      if has_key "children" e && negb (has_key "children_gate" e)
      then setitem e "children_gate" (JStr "and")
      else Ok e
  | _ => Raise TypeError
  end.

Definition _fix_children_gates (lib : json) : result json :=
  for_each_in "events" fix_children_gate lib.

(** [_ensure_wd_values]. *)
Definition _ensure_wd_values (obj : json) : result json :=
  w <- get obj "wd_node" (JStr "") ;;
  match w with
  | JStr wd_node =>
      if String.prefix "wd:" wd_node || String.prefix "wdt:" wd_node then
        let stripped := if String.prefix "wdt:" wd_node
                        then String.substring 4 (String.length wd_node - 4) wd_node
                        else String.substring 3 (String.length wd_node - 3) wd_node in
        '(label, desc) <- get_wikidata_values stripped ;;
        obj <- setitem obj "wd_label" (JStr label) ;;
        setitem obj "wd_description" (JStr desc)
      else if String.prefix "cmu:" wd_node then Raise AssertionError
      else Ok obj
  | _ => Raise TypeError
  end.

Definition _fix_wd_values (lib : json) : result json :=
  lib <- for_each_in "events"
           (fun event =>
              event <- _ensure_wd_values event ;;
              if has_key "participants" event
              then for_each_in "participants" _ensure_wd_values event
              else Ok event) lib ;;
  lib <- for_each_in "entities" _ensure_wd_values lib ;;
  for_each_in "relations" _ensure_wd_values lib.

(** [_fix_unused_args]. *)
Definition _fix_unused_args (lib : json) : result json :=
  ents <- getitem lib "entities" ;;
  evs <- getitem lib "events" ;;
  arg_ids <- mapM (fun e => getitem e "@id") (Util.ensure_list ents ++ Util.ensure_list evs) ;;
  for_each_in "events"
    (fun event =>
       ps <- get event "participants" (JArr []) ;;
       kept <- filterM (fun p => ent <- getitem p "entity" ;;
                                 ent <- hashable ent ;;
                                 Ok (existsb (fun a => match a, ent with
                                                       | JStr x, JStr y => String.eqb x y
                                                       | _, _ => false
                                                       end) arg_ids))
                       (Util.ensure_list ps) ;;
       setitem event "participants" (JArr kept)) lib.

(** [create_blank_schema]. *)
Definition create_blank_schema (name : string) : json :=
  JObj [("@context", jsonld_context);
        ("sdfVersion", JStr sdf_version);
        ("@id", JStr ("cmu:Schema/" ++ name));
        ("version", JStr "cmu-v0");
        ("events", JArr []);
        ("relations", JArr []);
        ("entities", JArr []);
        ("privateData", JObj [("eratosthenes", JObj [])]);
        ("provenanceData", JArr [])].

(** [SELECT data FROM Schema where atId IN (...)]. *)
Definition select_in (schema_ids : list string) (tbl : table) : table :=
  filter (fun r => existsb (String.eqb (atId r)) schema_ids) tbl.

(** The loop of [package_schemas] that loads the rows and skips the ones that
    fail validation: the input of the composition. *)
Fixpoint load_valid (rows : table) : result (list json) :=
  match rows with
  | [] => Ok []
  | r :: rest =>
      match loads_sdf validate_document (data r) with
      | Ok schema => schemas <- load_valid rest ;; Ok (schema :: schemas)
      | Raise ValidationError => load_valid rest
      | Raise e => Raise e
      end
  end.

(** [{e.get("wd_node", None) for s in schemas for e in ensure_list(s["events"])}]. *)
Definition all_event_types (schemas : list json) : result (list json) :=
  per_schema <- mapM (fun s =>
                        evs <- getitem s "events" ;;
                        mapM (fun e => w <- get e "wd_node" JNull ;; hashable w)
                             (Util.ensure_list evs)) schemas ;;
  Ok (concat per_schema).

(** [sorted(schemas, key=lambda x: x["@id"])]; the identifier of a document
    is a string. *)
Definition sort_schemas (schemas : list json) : result (list json) :=
  keyed <- mapM (fun s => k <- document_id s ;; Ok (k, s)) schemas ;;
  Ok (map snd (sorted_by_key keyed)).

(** The digest of the sorted input. *)
Definition input_digest (sorted : list json) : string :=
  digest_to_base62 (blake2b (concat (map (fun s => encode (json_dumps s)) sorted))).

(** The loop of [package_schemas] that adds the schemas that no event uses
    as a subschema. *)
Definition add_top_level (types : list json) (st : json * nat) (schema : json)
  : result (json * nat) :=
  let (library, draws) := st in
  i <- getitem schema "@id" ;;
  i <- hashable i ;;
  if existsb (fun t => match t, i with
                       | JStr x, JStr y => String.eqb x y
                       | _, _ => false
                       end) types
  then Ok st
  else
    '(schema', n) <- Util.fix_atIds uuid4 true draws schema ;;
    library' <- _add_to_library library schema' false ;;
    Ok (library', (draws + n)%nat).

(** [package_schemas] up to the call of [inject_subschemas]: the library made
    of the top-level schemas, named after the digest of the input. *)
Definition package_library (name : string) (schema_ids : list string) (tbl : table)
  : result (json * nat) :=
  schemas <- load_valid (select_in schema_ids tbl) ;;
  types <- all_event_types schemas ;;
  schemas <- sort_schemas schemas ;;
  let digest := input_digest schemas in
  let library := create_blank_schema (name ++ "-" ++ digest) in
  library <- setitem library "privateData" (JObj [("inputDigest", JStr digest)]) ;;
  '(library, draws) <- foldM (add_top_level types) schemas (library, O) ;;
  pd <- getitem library "privateData" ;;
  pd <- setitem pd "constitutentSchemas" (JArr (map JStr schema_ids)) ;;
  library <- setitem library "privateData" pd ;;
  Ok (library, draws).

(** [package_schemas]. *)
Definition package_schemas (fuel : nat) (name : string) (schema_ids : list string)
    (tbl : table) : result json :=
  '(library, draws) <- package_library name schema_ids tbl ;;
  '(library, _) <- inject_subschemas fuel tbl draws library ;;
  '(library, _) <- Util.fix_atIds uuid4 false O library ;;
  library <- _fix_children_gates library ;;
  library <- _fix_wd_values library ;;
  library <- _fix_unused_args library ;;
  library <- Util.recursive_remove library ["provenance"] ;;
  Util.recursive_remove library ["outlink_gate"].

End Compose.

(** *** Creating, archiving and start-up *)

(** [Transaction.write_new_schema]: [INSERT INTO Schema (atId, quarantined,
    data) VALUES (:atId, 0, :data)]; the other columns are NULL, and a second
    row with the same key violates the primary key.  As in [write_schema],
    the identifier of the document is a string. *)
Definition write_new_schema (sdf_data : json) (tbl : table) : result table :=
  new_id <- document_id sdf_data ;;
  if existsb (fun r => String.eqb (atId r) new_id) tbl
  then Raise IntegrityError
  else Ok (tbl ++ [mkRow new_id None None (json_dumps sdf_data) 0 None]).

Section Archive.

Variable validate_document : json -> bool.

(** [zip_schemas]: the entries written to the archive, as file name and
    content, in the order of the rows. *)
Fixpoint zip_rows (rows : table) : result (list (string * text)) :=
  match rows with
  | [] => Ok []
  | r :: rest =>
      match loads_sdf validate_document (data r) with
      | Raise ValidationError => zip_rows rest
      | Raise e => Raise e
      | Ok schema =>
          i <- getitem schema "@id" ;;
          s <- Util.str_method i ;;
          entries <- zip_rows rest ;;
          Ok (((last_segment "/" s ++ ".json")%string, data r) :: entries)
      end
  end.

Definition zip_schemas (schema_ids : list string) (tbl : table)
  : result (list (string * text)) :=
  zip_rows (select_in schema_ids tbl).

(** [init_db] on a database whose tables exist: [CREATE TABLE IF NOT EXISTS]
    changes nothing and [_validate_schemas] runs in a transaction of its
    own. *)
Definition init_db (validation_message : json -> string) (tbl : table)
  : result unit * table :=
  do_transaction (unit_block (_validate_schemas validate_document validation_message))
                 tbl.

End Archive.

End Db.

(** ** The endpoints ([resources.py]) *)

Module Resources.

Import Db.

(** What a handler leaves in [resp]: the status and the body, before it is
    written out as JSON. *)
Record response : Type := mkResponse {
  status : nat;
  body : json
}.

(** [make_row] of [QuarantineSummary.on_get]: the identifier as it goes into
    the link of a quarantined document. *)
Definition escaped_id (atId : string) : string :=
  Util.replace "/" "_FSLASH_" atId.

(** The handlers run on the store; an exception of a handler that is raised
    in or after its transaction leaves the store of the rollback. *)
Definition in_transaction (block : table -> result table) (resp : response)
    (tbl : table) : result response * table :=
  match do_transaction (unit_block block) tbl with
  | (Ok _, tbl') => (Ok resp, tbl')
  | (Raise e, tbl') => (Raise e, tbl')
  end.

(** [Schemas.on_post] once the name was read from the request:
    [create_blank_schema], [write_new_schema] in a transaction, and the
    answer with the new identifier.  [jsonld_context] and [sdf_version] are
    what [create_blank_schema] reads from the configuration. *)
Definition Schemas_on_post (jsonld_context : json) (sdf_version : string)
    (name : string) (tbl : table) : result response * table :=
  let sdf_data := create_blank_schema jsonld_context sdf_version name in
  match getitem sdf_data "@id" with
  | Ok new_id =>
      in_transaction (write_new_schema sdf_data)
        (mkResponse 201 (JObj [("schemaId", new_id)])) tbl
  | Raise e => (Raise e, tbl)
  end.

Section Endpoints.

Variable validate_document : json -> bool.

(** [SchemaInstanceCopy.on_post]; [uuid] is [str(uuid.uuid4())]. *)
Definition SchemaInstanceCopy_on_post (uuid : string) (schema_id : string)
    (tbl : table) : result response * table :=
  match (sdf_data <- get_schema validate_document schema_id false tbl ;;
         i <- getitem sdf_data "@id" ;;
         s <- Util.str_method i ;;
         let schema_name := Util.get_schema_name s in
         setitem sdf_data "@id"
           (JStr ("cmu:Schema/" ++ uuid ++ "/" ++ schema_name ++ "_copy"))) with
  | Ok sdf_data =>
      match getitem sdf_data "@id" with
      | Ok new_id =>
          in_transaction (write_new_schema sdf_data)
            (mkResponse 201 (JObj [("schemaId", new_id)])) tbl
      | Raise e => (Raise e, tbl)
      end
  | Raise e => (Raise e, tbl)
  end.

(** [SchemaInstance.on_put] from the point where the request was read and
    its document validated: [should_overwrite] is the truth value of the
    query parameter, [document] the validated document.  The call
    [util.replace_kairos_prefix(sdf)] in between is given the module [sdf],
    which is neither a string, a dict nor a list, and changes nothing. *)
Definition SchemaInstance_on_put (depth : nat) (now : Z) (should_overwrite : bool)
    (schema_id : string) (document : json) (client_id : string) (tbl : table)
  : result response * table :=
  match (match get_schema validate_document schema_id false tbl with
         | Ok _ => Ok true
         | Raise HTTPNotFound => Ok false
         | Raise e => Raise e
         end) with
  | Raise e => (Raise e, tbl)
  | Ok already_exists =>
      if already_exists && negb should_overwrite then
        match document_id document with
        | Ok described =>
            (Raise (HTTPConflict
                      ("The schema already exists, and the overwrite flag was not set "
                       ++ "for schema " ++ described ++ ".")), tbl)
        | Raise e => (Raise e, tbl)
        end
      else if already_exists then
        in_transaction (write_schema depth now schema_id document client_id)
          (mkResponse 200 JNull) tbl
      else
        in_transaction (write_new_schema document) (mkResponse 201 JNull) tbl
  end.

(** [SchemaTags.on_patch] from the point where [tags] and [clientId] were
    read from the request; the document was loaded before that. *)
Definition SchemaTags_on_patch (depth : nat) (now : Z) (schema_id : string)
    (tags : json) (client_id : string) (tbl : table) : result response * table :=
  match (sdf_data <- get_schema validate_document schema_id false tbl ;;
         private_data <- get sdf_data "privateData" (JObj []) ;;
         private_data <- setitem private_data "eratosthenesTags" tags ;;
         setitem sdf_data "privateData" private_data) with
  | Ok sdf_data =>
      in_transaction (write_schema depth now schema_id sdf_data client_id)
        (mkResponse 200 JNull) tbl
  | Raise e => (Raise e, tbl)
  end.

End Endpoints.

(** [SchemaLock.on_put] and [SchemaLock.on_delete]. *)
Definition SchemaLock_on_put (now : Z) (schema_id client_id : string) (tbl : table)
  : result response * table :=
  in_transaction (set_lock now true schema_id client_id) (mkResponse 201 JNull) tbl.

Definition SchemaLock_on_delete (now : Z) (schema_id client_id : string) (tbl : table)
  : result response * table :=
  in_transaction (set_lock now false schema_id client_id) (mkResponse 200 JNull) tbl.

End Resources.

(** * Properties *)

Import Db.
Unset Implicit Arguments.

(** ** Rows and the primary key *)

Lemma select_by_atId_In schema_id tbl r :
  In r (select_by_atId schema_id tbl) <-> In r tbl /\ atId r = schema_id.
Proof.
  unfold select_by_atId. rewrite filter_In, String.eqb_eq. tauto.
Qed.

Lemma select_by_atId_nil schema_id tbl :
  select_by_atId schema_id tbl = [] <-> ~ In schema_id (map atId tbl).
Proof.
  split.
  - intros E H. apply in_map_iff in H as (r & <- & Hr).
    assert (In r (select_by_atId (atId r) tbl)) as H
      by (apply select_by_atId_In; auto).
    rewrite E in H. exact H.
  - intros H. destruct (select_by_atId schema_id tbl) as [|r rest] eqn:E; auto.
    exfalso. apply H.
    assert (In r (select_by_atId schema_id tbl)) as Hr by (rewrite E; now left).
    apply select_by_atId_In in Hr as [Hr <-]. now apply in_map.
Qed.

(** Under the primary key a [SELECT ... WHERE atId=?] returns the row with
    that key and nothing else. *)
Lemma select_by_atId_unique tbl r :
  primary_key tbl -> In r tbl -> select_by_atId (atId r) tbl = [r].
Proof.
  unfold primary_key, select_by_atId.
  induction tbl as [|x tbl IH]; simpl; intros PK Hin; [easy|].
  inversion PK as [|? ? Hnotin PK']; subst.
  destruct Hin as [->|Hin].
  - rewrite String.eqb_refl. f_equal.
    apply select_by_atId_nil in Hnotin. exact Hnotin.
  - destruct (String.eqb_spec (atId x) (atId r)) as [E|E].
    + exfalso. apply Hnotin. rewrite E. now apply in_map.
    + now apply IH.
Qed.

Lemma select_by_atId_cases schema_id tbl :
  primary_key tbl ->
  (select_by_atId schema_id tbl = [] /\ ~ In schema_id (map atId tbl))
  \/ (exists r, select_by_atId schema_id tbl = [r] /\ In r tbl /\ atId r = schema_id).
Proof.
  intros PK.
  destruct (select_by_atId schema_id tbl) as [|r rest] eqn:E.
  - left. split; auto. now apply select_by_atId_nil.
  - right. exists r.
    assert (In r (select_by_atId schema_id tbl)) as Hr by (rewrite E; now left).
    apply select_by_atId_In in Hr as [Hr <-].
    rewrite (select_by_atId_unique _ _ PK Hr) in E.
    injection E as <-. auto.
Qed.

(** Rows agreeing on the key are the same row. *)
Lemma primary_key_inj tbl r r' :
  primary_key tbl -> In r tbl -> In r' tbl -> atId r = atId r' -> r = r'.
Proof.
  intros PK Hr Hr' E.
  pose proof (select_by_atId_unique _ _ PK Hr) as S1.
  pose proof (select_by_atId_unique _ _ PK Hr') as S2.
  rewrite E in S1. congruence.
Qed.

Lemma holder_is_true h c : holder_is h c = true <-> h = Some c.
Proof.
  destruct h as [h|]; simpl; [|easy].
  rewrite String.eqb_eq. split; congruence.
Qed.

Lemma holder_is_false h c : holder_is h c = false <-> h <> Some c.
Proof.
  rewrite <- holder_is_true. destruct (holder_is h c); split; congruence.
Qed.

Lemma lock_is_valid_true now ts :
  lock_is_valid now ts = true <-> exists t, ts = Some t /\ now - t <= LOCK_LIFETIME.
Proof.
  destruct ts as [t|]; simpl.
  - rewrite Z.leb_le. split; [eauto|]. now intros (t' & [= <-] & H).
  - split; [easy|]. now intros (t' & [=] & _).
Qed.

(** A lease that blocks [client_id]: it is within its lifetime and belongs to
    someone else. *)
Definition blocked_for (now : Z) (client_id : string) (r : SchemasTableRow) : Prop :=
  (exists t, lock_ts r = Some t /\ now - t <= LOCK_LIFETIME)
  /\ holder_id r <> Some client_id.

Definition blockedb (now : Z) (client_id : string) (r : SchemasTableRow) : bool :=
  lock_is_valid now (lock_ts r) && negb (holder_is (holder_id r) client_id).

Lemma blockedb_spec now c r : blockedb now c r = true <-> blocked_for now c r.
Proof.
  unfold blockedb, blocked_for.
  rewrite andb_true_iff, negb_true_iff, lock_is_valid_true, holder_is_false.
  tauto.
Qed.

(** The table after a lease of [schema_id] was written. *)
Definition relock (ts : option Z) (h : option string) (schema_id : string)
    (tbl : table) : table :=
  map (fun r' => if String.eqb (atId r') schema_id then with_lock ts h r' else r') tbl.

Lemma relock_atIds ts h schema_id tbl :
  map atId (relock ts h schema_id tbl) = map atId tbl.
Proof.
  unfold relock. rewrite map_map. apply map_ext.
  intros r. now destruct (String.eqb (atId r) schema_id).
Qed.

Lemma relock_primary_key ts h schema_id tbl :
  primary_key tbl -> primary_key (relock ts h schema_id tbl).
Proof. unfold primary_key. now rewrite relock_atIds. Qed.

Lemma relock_In ts h schema_id tbl r :
  In r tbl -> atId r = schema_id -> In (with_lock ts h r) (relock ts h schema_id tbl).
Proof.
  intros Hin E. unfold relock. apply in_map_iff. exists r. split; auto.
  apply String.eqb_eq in E. now rewrite E.
Qed.

(** What [set_lock] does, by cases on the row it finds. *)
Lemma set_lock_found now acquire schema_id client_id tbl r :
  primary_key tbl -> In r tbl -> atId r = schema_id ->
  set_lock now acquire schema_id client_id tbl =
    if blockedb now client_id r
    then Raise (HTTPConflict
                  ("Another user is editing the schema with @id " ++ schema_id ++ "."))
    else Ok (relock (if acquire then Some now else None)
                    (if acquire then Some client_id else None) schema_id tbl).
Proof.
  intros PK Hin <-. unfold set_lock.
  rewrite (select_by_atId_unique _ _ PK Hin). simpl.
  unfold blockedb. now destruct (_ && _).
Qed.

Lemma set_lock_missing now acquire schema_id client_id tbl :
  ~ In schema_id (map atId tbl) ->
  set_lock now acquire schema_id client_id tbl = Raise HTTPNotFound.
Proof.
  intros H. apply select_by_atId_nil in H. unfold set_lock. now rewrite H.
Qed.

(** ** Lock manager *)

Definition locked_store : table :=
  [ mkRow "cmu:Schema/a" (Some 100) (Some "alice") (Dumps (JObj [("@id", JStr "cmu:Schema/a")])) 0 None;
    mkRow "cmu:Schema/b" None None (Dumps (JObj [("@id", JStr "cmu:Schema/b")])) 0 None ].

Lemma locked_store_primary_key : primary_key locked_store.
Proof.
  unfold primary_key, locked_store. simpl.
  repeat constructor; simpl; intuition discriminate.
Qed.

(** C2. Acquiring a lease: [set_lock(True, id, holder)] raises NotFound exactly
    when no row has the identifier, raises Conflict exactly when the row has a
    lease within its lifetime that belongs to another holder, and otherwise
    stores the caller as holder with the current time.  After a successful
    acquisition another holder is refused for as long as the lease is within
    its lifetime and is served once it has run out. *)
Theorem acquire_spec (now : Z) (schema_id client_id : string) (tbl : table) :
  primary_key tbl ->
  (set_lock now true schema_id client_id tbl = Raise HTTPNotFound
     <-> ~ In schema_id (map atId tbl))
  /\ ((exists d, set_lock now true schema_id client_id tbl = Raise (HTTPConflict d))
      <-> exists r, In r tbl /\ atId r = schema_id /\ blocked_for now client_id r)
  /\ (forall r, In r tbl -> atId r = schema_id -> ~ blocked_for now client_id r ->
      set_lock now true schema_id client_id tbl
        = Ok (relock (Some now) (Some client_id) schema_id tbl)
      /\ In (with_lock (Some now) (Some client_id) r)
            (relock (Some now) (Some client_id) schema_id tbl))
  /\ (forall other later tbl',
      other <> client_id ->
      set_lock now true schema_id client_id tbl = Ok tbl' ->
      (later - now <= LOCK_LIFETIME ->
         exists d, set_lock later true schema_id other tbl' = Raise (HTTPConflict d))
      /\ (LOCK_LIFETIME < later - now ->
         set_lock later true schema_id other tbl'
           = Ok (relock (Some later) (Some other) schema_id tbl'))).
Proof.
  intros PK.
  destruct (select_by_atId_cases schema_id tbl PK) as [[_ Hno]|(r & _ & Hin & Hid)].
  - (* no such row *)
    pose proof (set_lock_missing now true schema_id client_id tbl Hno) as E.
    assert (forall r0, In r0 tbl -> atId r0 = schema_id -> False) as Habs.
    { intros r0 Hr0 <-. apply Hno. now apply in_map. }
    split; [tauto|]. split; [|split].
    + split.
      * intros (d & Hd). congruence.
      * intros (r0 & Hr0 & E0 & _). now destruct (Habs r0).
    + intros r0 Hr0 E0. now destruct (Habs r0).
    + intros other later tbl' _ Hok. congruence.
  - pose proof (set_lock_found now true schema_id client_id tbl r PK Hin Hid) as E.
    assert (In schema_id (map atId tbl)) as Hex by (subst; now apply in_map).
    assert (forall r0, In r0 tbl -> atId r0 = schema_id -> r0 = r) as Huniq.
    { intros r0 Hr0 E0. apply (primary_key_inj tbl); auto. congruence. }
    destruct (blockedb now client_id r) eqn:B.
    + apply blockedb_spec in B.
      split; [|split; [|split]].
      * split; [congruence|tauto].
      * split; eauto.
      * intros r0 Hr0 E0 NB. rewrite (Huniq r0 Hr0 E0) in NB. contradiction.
      * intros other later tbl' _ Hok. congruence.
    + assert (~ blocked_for now client_id r) as NB
        by (rewrite <- blockedb_spec; congruence).
      split; [|split; [|split]].
      * split; [congruence|tauto].
      * split.
        -- intros (d & Hd). congruence.
        -- intros (r0 & Hr0 & E0 & B0). rewrite (Huniq r0 Hr0 E0) in B0.
           contradiction.
      * intros r0 Hr0 E0 _. split; [exact E|].
        rewrite (Huniq r0 Hr0 E0). now apply relock_In.
      * intros other later tbl' Hother Hok. rewrite E in Hok. injection Hok as <-.
        pose proof (relock_primary_key (Some now) (Some client_id) schema_id tbl PK) as PK'.
        pose proof (relock_In (Some now) (Some client_id) schema_id tbl r Hin Hid) as Hin'.
        rewrite (set_lock_found later true schema_id other _ _ PK' Hin' Hid).
        split; intros Hlater.
        -- assert (blockedb later other (with_lock (Some now) (Some client_id) r) = true) as ->.
           { apply blockedb_spec. split; simpl; [eauto|congruence]. }
           eauto.
        -- assert (blockedb later other (with_lock (Some now) (Some client_id) r) = false) as ->.
           { unfold blockedb. simpl. apply andb_false_iff. left.
             apply Z.leb_gt. lia. }
           reflexivity.
Qed.

Lemma acquire_spec_witness :
  primary_key locked_store
  /\ set_lock 130 true "cmu:Schema/a" "bob" locked_store
     = Ok (relock (Some 130) (Some "bob") "cmu:Schema/a" locked_store).
Proof.
  split; [exact locked_store_primary_key|].
  refine (proj1 (proj1 (proj2 (proj2
    (acquire_spec 130 "cmu:Schema/a" "bob" locked_store locked_store_primary_key)))
    (mkRow "cmu:Schema/a" (Some 100) (Some "alice")
       (Dumps (JObj [("@id", JStr "cmu:Schema/a")])) 0 None) _ _ _)).
  - simpl. auto.
  - reflexivity.
  - unfold blocked_for. cbn [lock_ts holder_id].
    intros [(t & Et & Ht) _]. injection Et as <-.
    unfold LOCK_LIFETIME in Ht. lia.
Defined.

(** Releasing is refused like acquiring: Bob cannot release the lease that
    Alice took 5 seconds ago. *)
Lemma release_blocked_by_foreign_lease :
  primary_key locked_store
  /\ In "cmu:Schema/a" (map atId locked_store)
  /\ set_lock 105 false "cmu:Schema/a" "bob" locked_store
     = Raise (HTTPConflict "Another user is editing the schema with @id cmu:Schema/a.").
Proof.
  split; [exact locked_store_primary_key|]. split; [simpl; auto|reflexivity].
Qed.

(** C6, as the code has it. Releasing a lease: [set_lock(False, id, holder)]
    runs the same check as an acquisition.  It raises Conflict exactly when
    the row has a lease within its lifetime that belongs to another holder;
    otherwise (no lease, a lease that has run out, or the caller's own lease)
    it succeeds and clears holder and timestamp of that row. *)
Theorem release_spec (now : Z) (schema_id client_id : string) (tbl : table)
    (r : SchemasTableRow) :
  primary_key tbl -> In r tbl -> atId r = schema_id ->
  ((exists d, set_lock now false schema_id client_id tbl = Raise (HTTPConflict d))
     <-> blocked_for now client_id r)
  /\ (~ blocked_for now client_id r ->
      set_lock now false schema_id client_id tbl = Ok (relock None None schema_id tbl)
      /\ In (with_lock None None r) (relock None None schema_id tbl)).
Proof.
  intros PK Hin Hid.
  rewrite (set_lock_found now false schema_id client_id tbl r PK Hin Hid).
  destruct (blockedb now client_id r) eqn:B.
  - apply blockedb_spec in B. split; [split; eauto|]. contradiction.
  - assert (~ blocked_for now client_id r) as NB
      by (rewrite <- blockedb_spec; congruence).
    split.
    + split; [|contradiction]. intros (d & Hd). discriminate.
    + intros _. split; [reflexivity|]. now apply relock_In.
Qed.

Lemma release_spec_witness :
  set_lock 130 false "cmu:Schema/a" "bob" locked_store
    = Ok (relock None None "cmu:Schema/a" locked_store).
Proof.
  refine (proj1 (proj2
    (release_spec 130 "cmu:Schema/a" "bob" locked_store
       (mkRow "cmu:Schema/a" (Some 100) (Some "alice")
          (Dumps (JObj [("@id", JStr "cmu:Schema/a")])) 0 None)
       locked_store_primary_key _ _) _)).
  - simpl. auto.
  - reflexivity.
  - unfold blocked_for. cbn [lock_ts holder_id].
    intros [(t & Et & Ht) _]. injection Et as <-.
    unfold LOCK_LIFETIME in Ht. lia.
Defined.

(** Deleting looks at the stored holder only: an hour after Alice took her
    lease, long after it ran out, Bob still cannot delete the document. *)
Lemma delete_blocked_by_expired_lease :
  lock_is_valid 3700 (Some 100) = false
  /\ get_lock_holder "cmu:Schema/a" locked_store = Some "alice"
  /\ delete_schema (fun _ => true) "cmu:Schema/a" "bob" locked_store
     = Raise (HTTPConflict "Another user is editing the schema cmu:Schema/a.").
Proof. repeat split. Qed.

Lemma delete_rows schema_id tbl r :
  In r (delete_by_atId schema_id tbl) <-> In r tbl /\ atId r <> schema_id.
Proof.
  unfold delete_by_atId. rewrite filter_In, negb_true_iff, String.eqb_neq. tauto.
Qed.

(** C7, as the code has it. Deleting: [delete_schema(id, holder)] succeeds
    exactly when the holder stored with the document is the caller or no
    holder is stored; the age of the lease plays no part, so a lease of
    another holder blocks the deletion even after it has run out.  A
    successful deletion removes the row and keeps every other row; a refused
    one raises Conflict whenever the stored content loads. *)
Theorem delete_spec (validate_document : json -> bool)
    (schema_id client_id : string) (tbl : table) :
  ((exists tbl', delete_schema validate_document schema_id client_id tbl = Ok tbl')
     <-> get_lock_holder schema_id tbl = Some client_id
         \/ get_lock_holder schema_id tbl = None)
  /\ (forall tbl', delete_schema validate_document schema_id client_id tbl = Ok tbl' ->
      forall r, In r tbl' <-> In r tbl /\ atId r <> schema_id)
  /\ (forall h d name,
      get_lock_holder schema_id tbl = Some h -> h <> client_id ->
      get_schema validate_document schema_id false tbl = Ok d ->
      document_id d = Ok name ->
      delete_schema validate_document schema_id client_id tbl
        = Raise (HTTPConflict ("Another user is editing the schema " ++ name ++ "."))).
Proof.
  unfold delete_schema.
  destruct (get_lock_holder schema_id tbl) as [h|] eqn:H.
  - destruct (String.eqb_spec h client_id) as [->|Hne].
    + split; [split; eauto|]. split.
      * intros tbl' [= <-] r. apply delete_rows.
      * intros h d name [= <-] Hh. contradiction.
    + split; [|split].
      * split.
        -- intros (tbl' & Hd).
           destruct (get_schema validate_document schema_id false tbl); simpl in Hd;
             [destruct (document_id a); simpl in Hd|]; discriminate.
        -- intros [[= ->]|[=]]. contradiction.
      * intros tbl' Hd.
        destruct (get_schema validate_document schema_id false tbl); simpl in Hd;
          [destruct (document_id a); simpl in Hd|]; discriminate.
      * intros h' d name [= <-] _ -> Hname. simpl. now rewrite Hname.
  - split; [split; eauto|]. split.
    + intros tbl' [= <-] r. apply delete_rows.
    + intros h d name [=].
Qed.

Lemma delete_spec_witness :
  delete_schema (fun _ => true) "cmu:Schema/a" "bob" locked_store
    = Raise (HTTPConflict "Another user is editing the schema cmu:Schema/a.").
Proof.
  refine (proj2 (proj2
    (delete_spec (fun _ => true) "cmu:Schema/a" "bob" locked_store))
    "alice" (JObj [("@id", JStr "cmu:Schema/a")]) "cmu:Schema/a" _ _ _ _);
    try reflexivity.
  discriminate.
Defined.

(** ** Writing under a lease *)

Lemma bind_Ok {A B} (m : result A) (k : A -> result B) b :
  bind m k = Ok b -> exists a, m = Ok a /\ k a = Ok b.
Proof. destruct m; simpl; [eauto|discriminate]. Qed.

(** Takes a successful sequence of binds apart, one equation per step. *)
Ltac split_binds H :=
  repeat (let a := fresh "a" in
          let E := fresh "E" in
          apply bind_Ok in H as (a & E & H)).

(** Facts about tables that keep their keys and their well-formedness. *)
Create HintDb store.
#[local] Hint Resolve relock_primary_key : store.

Lemma foldM_invariant {A S} (P : S -> Prop) (f : S -> A -> result S) l :
  (forall s a s', In a l -> P s -> f s a = Ok s' -> P s') ->
  forall s s', P s -> foldM f l s = Ok s' -> P s'.
Proof.
  induction l as [|a l IH]; simpl; intros Hstep s s' Hs H.
  - now injection H as <-.
  - apply bind_Ok in H as (s1 & H1 & H2).
    apply IH with s1; eauto.
Qed.

Lemma set_lock_Ok now acquire schema_id client_id tbl tbl' :
  set_lock now acquire schema_id client_id tbl = Ok tbl' ->
  In schema_id (map atId tbl)
  /\ tbl' = relock (if acquire then Some now else None)
                   (if acquire then Some client_id else None) schema_id tbl.
Proof.
  unfold set_lock.
  destruct (select_by_atId schema_id tbl) as [|r rest] eqn:E; [discriminate|].
  destruct (_ && _); [discriminate|].
  destruct (_ =? _)%nat; [|discriminate].
  intros [= <-]. split; [|reflexivity].
  assert (In r (select_by_atId schema_id tbl)) as Hr by (rewrite E; now left).
  apply select_by_atId_In in Hr as [Hr <-]. now apply in_map.
Qed.

Lemma set_lock_atIds now acquire schema_id client_id tbl tbl' :
  set_lock now acquire schema_id client_id tbl = Ok tbl' ->
  map atId tbl' = map atId tbl.
Proof. intros H. apply set_lock_Ok in H as [_ ->]. apply relock_atIds. Qed.

Lemma lock_referrer_atIds now client_id tbl ref_data tbl' :
  lock_referrer now client_id tbl ref_data = Ok tbl' ->
  map atId tbl' = map atId tbl.
Proof.
  unfold lock_referrer. intros H. apply bind_Ok in H as (ref_id & _ & H).
  destruct (set_lock now true ref_id client_id tbl) as [t|e] eqn:E.
  - injection H as <-. eapply set_lock_atIds; eauto.
  - destruct e; discriminate.
Qed.

Definition rename_key (schema_id new_id a : string) : string :=
  if String.eqb a schema_id then new_id else a.

Lemma rename_key_same schema_id l : map (rename_key schema_id schema_id) l = l.
Proof.
  rewrite <- (map_id l) at 2. apply map_ext. intros a. unfold rename_key.
  now destruct (String.eqb_spec a schema_id).
Qed.

Lemma update_schema_atIds schema_id new_id d tbl tbl' :
  update_schema schema_id new_id d tbl = Ok tbl' ->
  map atId tbl' = map (rename_key schema_id new_id) (map atId tbl).
Proof.
  unfold update_schema. destruct (_ && _); [discriminate|]. intros [= <-].
  rewrite !map_map. apply map_ext. intros r. unfold rename_key.
  now destruct (String.eqb (atId r) schema_id).
Qed.

(** The referrer pass keeps the keys of the table when the nested writes
    do. *)
Lemma change_referring_atIds rec now old_id new_id client_id tbl tbl' :
  (forall ref_id ref_data c t t',
     rec ref_id ref_data c t = Ok t' -> document_id ref_data = Ok ref_id ->
     map atId t' = map atId t) ->
  _change_referring_schemas rec now old_id new_id client_id tbl = Ok tbl' ->
  map atId tbl' = map atId tbl.
Proof.
  intros Hrec H. unfold _change_referring_schemas in H.
  destruct (String.eqb old_id new_id); [now injection H as <-|].
  apply bind_Ok in H as (all_schemas & _ & H).
  apply bind_Ok in H as (referring & _ & H).
  apply bind_Ok in H as (tbl1 & Hlock & Hrewrite).
  transitivity (map atId tbl1).
  - revert Hrewrite.
    apply (foldM_invariant (fun t => map atId t = map atId tbl1)); auto.
    intros t ref_data t' _ Ht Hstep. unfold rewrite_referrer in Hstep.
    apply bind_Ok in Hstep as (ref_data' & _ & Hstep).
    apply bind_Ok in Hstep as (ref_id & Href & Hstep).
    rewrite (Hrec _ _ _ _ _ Hstep Href). exact Ht.
  - revert Hlock.
    apply (foldM_invariant (fun t => map atId t = map atId tbl)); auto.
    intros t ref_data t' _ Ht Hstep.
    apply lock_referrer_atIds in Hstep. congruence.
Qed.

(** A successful write moves the key of the written row and no other. *)
Lemma write_schema_atIds depth :
  forall now schema_id sdf_data client_id tbl tbl' new_id,
  write_schema depth now schema_id sdf_data client_id tbl = Ok tbl' ->
  document_id sdf_data = Ok new_id ->
  map atId tbl' = map (rename_key schema_id new_id) (map atId tbl).
Proof.
  induction depth as [|depth IH]; simpl; intros now schema_id sdf_data client_id
    tbl tbl' new_id H Hid; [discriminate|].
  apply bind_Ok in H as (tbl1 & H1 & H).
  rewrite Hid in H. simpl in H.
  apply bind_Ok in H as (tbl2 & H2 & H3).
  apply update_schema_atIds in H3. rewrite H3. f_equal.
  apply set_lock_atIds in H1. rewrite <- H1.
  revert H2. apply change_referring_atIds.
  intros ref_id ref_data c t t' Hstep Href.
  rewrite (IH _ _ _ _ _ _ _ Hstep Href). apply rename_key_same.
Qed.

(** The nested writes of the referrer pass rename nothing. *)
Lemma write_schema_rec_atIds depth now ref_id ref_data c t t' :
  write_schema depth now ref_id ref_data c t = Ok t' ->
  document_id ref_data = Ok ref_id ->
  map atId t' = map atId t.
Proof.
  intros H Hid. rewrite (write_schema_atIds _ _ _ _ _ _ _ _ H Hid).
  apply rename_key_same.
Qed.

Definition quarantined_store : table :=
  [ mkRow "cmu:Schema/a" None None (Malformed "{") 1 (Some "Not valid JSON") ].

(** C10. A successful [write_schema] leaves the written document in a row that
    carries the new content and the quarantine flag 0, whatever the flag of
    the row was before. *)
Theorem write_schema_clears_quarantine (depth : nat) (now : Z)
    (schema_id client_id new_id : string) (sdf_data : json) (tbl tbl' : table) :
  write_schema depth now schema_id sdf_data client_id tbl = Ok tbl' ->
  document_id sdf_data = Ok new_id ->
  (exists r', In r' tbl' /\ atId r' = new_id)
  /\ forall r', In r' tbl' -> atId r' = new_id ->
       quarantined r' = 0 /\ data r' = json_dumps sdf_data.
Proof.
  intros H Hid.
  pose proof (write_schema_atIds _ _ _ _ _ _ _ _ H Hid) as Hkeys.
  destruct depth as [|depth]; [discriminate|]. simpl in H.
  apply bind_Ok in H as (tbl1 & H1 & H).
  rewrite Hid in H. simpl in H.
  apply bind_Ok in H as (tbl2 & H2 & H3).
  pose proof (proj1 (set_lock_Ok _ _ _ _ _ _ H1)) as Hex.
  split.
  - assert (In new_id (map atId tbl')) as Hin.
    { rewrite Hkeys. apply in_map_iff. exists schema_id. split; auto.
      unfold rename_key. now rewrite String.eqb_refl. }
    apply in_map_iff in Hin as (r' & E & Hr'). eauto.
  - intros r' Hr' E.
    assert (In schema_id (map atId tbl2)) as Hex2.
    { rewrite (change_referring_atIds _ _ _ _ _ _ _
                 (write_schema_rec_atIds depth now) H2).
      now rewrite (set_lock_atIds _ _ _ _ _ _ H1). }
    unfold update_schema in H3.
    destruct (negb (String.eqb new_id schema_id)
              && existsb (fun r => String.eqb (atId r) schema_id) tbl2
              && existsb (fun r => String.eqb (atId r) new_id) tbl2) eqn:C;
      [discriminate|].
    injection H3 as <-.
    apply in_map_iff in Hr' as (r & Er & Hr).
    destruct (String.eqb (atId r) schema_id) eqn:Ers.
    + subst r'. simpl. auto.
    + exfalso. subst r'.
      assert (existsb (fun r => String.eqb (atId r) new_id) tbl2 = true) as X1
        by (apply existsb_exists; exists r; split; auto; now apply String.eqb_eq).
      assert (existsb (fun r => String.eqb (atId r) schema_id) tbl2 = true) as X2.
      { apply in_map_iff in Hex2 as (x & Ex & Hx).
        apply existsb_exists. exists x. split; auto. now apply String.eqb_eq. }
      rewrite X1, X2, !andb_true_r in C. apply negb_false_iff, String.eqb_eq in C.
      subst new_id. rewrite E, String.eqb_refl in Ers. discriminate.
Qed.

Lemma write_schema_clears_quarantine_witness :
  exists r',
    In r' [ mkRow "cmu:Schema/a" (Some 50) (Some "bob")
              (Dumps (JObj [("@id", JStr "cmu:Schema/a"); ("events", JArr [])]))
              0 (Some "Not valid JSON") ]
    /\ atId r' = "cmu:Schema/a".
Proof.
  exact (proj1 (write_schema_clears_quarantine 2 50 "cmu:Schema/a" "bob" "cmu:Schema/a"
                  (JObj [("@id", JStr "cmu:Schema/a"); ("events", JArr [])])
                  quarantined_store _ eq_refl eq_refl)).
Defined.

(** ** Rename propagation *)

(** The referrer pass on well-formed content, as pure functions. *)

Definition is_dict (j : json) : bool :=
  match j with JObj _ => true | _ => false end.

(** [e.get("wd_node", None) == old_id] for an event that is a dict. *)
Definition wd_node_is (old_id : string) (e : json) : bool :=
  match e with
  | JObj f => match assoc "wd_node" f with
              | Some w => eq_str w old_id
              | None => false
              end
  | _ => false
  end.

Definition doc_events (j : json) : list json :=
  match j with
  | JObj f => match assoc "events" f with
              | Some (JArr es) => es
              | _ => []
              end
  | _ => []
  end.

(** The document is a dict whose events, when it has any, are a list of
    dicts. *)
Definition events_ok (j : json) : bool :=
  match j with
  | JObj f => match assoc "events" f with
              | None => true
              | Some (JArr es) => forallb is_dict es
              | Some _ => false
              end
  | _ => false
  end.

Definition refersb (old_id : string) (j : json) : bool :=
  existsb (wd_node_is old_id) (doc_events j).

Definition repointed_event (old_id new_id : string) (e : json) : json :=
  match e with
  | JObj f =>
      if wd_node_is old_id e
      then JObj (assoc_set "wd_label" (JStr (last_segment "/" new_id))
                   (assoc_set "wd_node" (JStr new_id) f))
      else e
  | _ => e
  end.

Definition repointed (old_id new_id : string) (j : json) : json :=
  match j with
  | JObj f => match assoc "events" f with
              | Some (JArr es) =>
                  JObj (assoc_set "events" (JArr (map (repointed_event old_id new_id) es)) f)
              | _ => j
              end
  | _ => j
  end.

Lemma anyM_dicts old_id es :
  forallb is_dict es = true ->
  anyM (fun e => w <- get e "wd_node" JNull ;; Ok (eq_str w old_id)) es
    = Ok (existsb (wd_node_is old_id) es).
Proof.
  induction es as [|e es IH]; simpl; [reflexivity|].
  intros H. apply andb_true_iff in H as [He Hes].
  destruct e; try discriminate. simpl.
  destruct (assoc "wd_node" fields) as [w|]; simpl.
  - destruct (eq_str w old_id); simpl; auto.
  - auto.
Qed.

Lemma refers_to_ok old_id j :
  events_ok j = true -> refers_to old_id j = Ok (refersb old_id j).
Proof.
  unfold events_ok, refers_to, refersb, doc_events.
  destruct j; try discriminate. simpl.
  destruct (assoc "events" fields) as [[| | | |es|]|]; try discriminate; simpl.
  - apply anyM_dicts.
  - reflexivity.
Qed.

Lemma repoint_event_ok old_id new_id e :
  is_dict e = true ->
  repoint_event old_id new_id e = Ok (repointed_event old_id new_id e).
Proof.
  destruct e; try discriminate. intros _.
  unfold repoint_event, repointed_event, wd_node_is. simpl.
  destruct (assoc "wd_node" fields) as [w|]; simpl.
  - destruct (eq_str w old_id); reflexivity.
  - reflexivity.
Qed.

Lemma mapM_ok {A B} (f : A -> result B) (g : A -> B) l :
  (forall a, In a l -> f a = Ok (g a)) -> mapM f l = Ok (map g l).
Proof.
  induction l as [|a l IH]; simpl; intros H; [reflexivity|].
  rewrite (H a) by auto. simpl. rewrite IH by auto. reflexivity.
Qed.

Lemma filterM_ok {A} (p : A -> result bool) (q : A -> bool) l :
  (forall a, In a l -> p a = Ok (q a)) -> filterM p l = Ok (filter q l).
Proof.
  induction l as [|a l IH]; simpl; intros H; [reflexivity|].
  rewrite (H a) by auto. simpl. rewrite IH by auto. simpl.
  now destruct (q a).
Qed.

Lemma repoint_schema_ok old_id new_id j :
  events_ok j = true -> refersb old_id j = true ->
  repoint_schema old_id new_id j = Ok (repointed old_id new_id j).
Proof.
  unfold events_ok, refersb, doc_events, repoint_schema, repointed.
  destruct j; try discriminate. simpl.
  destruct (assoc "events" fields) as [[| | | |es|]|]; try discriminate; simpl.
  intros Hes _.
  rewrite (mapM_ok (repoint_event old_id new_id) (repointed_event old_id new_id)).
  - reflexivity.
  - intros e He. apply repoint_event_ok.
    rewrite forallb_forall in Hes. auto.
Qed.

Lemma assoc_set_other k k' v f :
  k <> k' -> assoc k (assoc_set k' v f) = assoc k f.
Proof.
  intros Hne. induction f as [|[k0 v0] f IH]; simpl.
  - destruct (String.eqb_spec k k'); congruence.
  - destruct (String.eqb_spec k' k0) as [->|]; simpl.
    + destruct (String.eqb_spec k k0); congruence.
    + destruct (String.eqb_spec k k0); auto.
Qed.

Lemma repointed_document_id old_id new_id j :
  document_id (repointed old_id new_id j) = document_id j.
Proof.
  unfold repointed. destruct j; auto.
  destruct (assoc "events" fields) as [[| | | |es|]|]; auto.
  unfold document_id. simpl. rewrite assoc_set_other by discriminate.
  reflexivity.
Qed.

(** Well-formed stores: the content of a row that is not quarantined is a
    document with a list of events, filed under its own identifier. *)
Definition doc_of (r : SchemasTableRow) : json :=
  match data r with
  | Dumps j => j
  | Malformed _ => JNull
  end.

Definition row_ok (r : SchemasTableRow) : Prop :=
  quarantined r = 0 ->
  data r = Dumps (doc_of r)
  /\ events_ok (doc_of r) = true
  /\ document_id (doc_of r) = Ok (atId r).

Definition store_ok (tbl : table) : Prop := Forall row_ok tbl.

(** The rows [_change_referring_schemas] selects: not quarantined, with an
    event whose [wd_node] is the old identifier. *)
Definition is_referrer (old_id : string) (r : SchemasTableRow) : bool :=
  (quarantined r =? 0) && refersb old_id (doc_of r).

Lemma all_schemas_ok tbl :
  store_ok tbl ->
  mapM (fun r => json_loads (data r)) (filter (fun r => quarantined r =? 0) tbl)
  = Ok (map doc_of (filter (fun r => quarantined r =? 0) tbl)).
Proof.
  intros Hok. apply mapM_ok.
  intros r Hr. apply filter_In in Hr as [Hr Hq]. apply Z.eqb_eq in Hq.
  unfold store_ok in Hok. rewrite Forall_forall in Hok.
  destruct (Hok r Hr Hq) as (E & _). now rewrite E.
Qed.

Lemma referring_schemas_ok old_id tbl :
  store_ok tbl ->
  filterM (refers_to old_id) (map doc_of (filter (fun r => quarantined r =? 0) tbl))
  = Ok (map doc_of (filter (is_referrer old_id) tbl)).
Proof.
  intros Hok.
  rewrite (filterM_ok (refers_to old_id) (refersb old_id)).
  2:{ intros j Hj. apply in_map_iff in Hj as (r & <- & Hr).
      apply filter_In in Hr as [Hr Hq]. apply Z.eqb_eq in Hq.
      unfold store_ok in Hok. rewrite Forall_forall in Hok.
      destruct (Hok r Hr Hq) as (_ & E & _). now apply refers_to_ok. }
  f_equal. unfold is_referrer.
  induction tbl as [|r tbl IH]; simpl; [reflexivity|].
  inversion Hok; subst.
  destruct (quarantined r =? 0); simpl.
  - destruct (refersb old_id (doc_of r)); simpl; rewrite IH; auto.
  - auto.
Qed.

(** *** Folding row updates over the table *)

(** A statement that touches the row with a given key. *)
Definition upd (key : string) (h : SchemasTableRow -> SchemasTableRow)
    (x : SchemasTableRow) : SchemasTableRow :=
  if String.eqb (atId x) key then h x else x.

Lemma foldM_map {A B S} (f : S -> B -> result S) (g : A -> B) l s :
  foldM f (map g l) s = foldM (fun s a => f s (g a)) l s.
Proof.
  revert s. induction l as [|a l IH]; simpl; intros s; [reflexivity|].
  destruct (f s (g a)); simpl; auto.
Qed.

Lemma foldM_rows {A} (step : table -> A -> result table)
    (u : A -> SchemasTableRow -> SchemasTableRow) (Inv : table -> Prop) L :
  (forall t a, In a L -> Inv t -> step t a = Ok (map (u a) t) /\ Inv (map (u a) t)) ->
  forall t, Inv t ->
  foldM step L t = Ok (map (fun x => fold_left (fun x a => u a x) L x) t)
  /\ Inv (map (fun x => fold_left (fun x a => u a x) L x) t).
Proof.
  induction L as [|a L IH]; simpl; intros Hstep t Ht.
  - rewrite map_id. auto.
  - destruct (Hstep t a (or_introl eq_refl) Ht) as [E Ht'].
    rewrite E. simpl.
    destruct (IH (fun t a H => Hstep t a (or_intror H)) _ Ht') as [E' Ht''].
    rewrite map_map in E', Ht''. auto.
Qed.

Lemma fold_upd_miss (h : SchemasTableRow -> SchemasTableRow -> SchemasTableRow) R x :
  (forall r, In r R -> atId r <> atId x) ->
  fold_left (fun x r => upd (atId r) (h r) x) R x = x.
Proof.
  induction R as [|r R IH]; simpl; intros H; [reflexivity|].
  unfold upd at 2.
  destruct (String.eqb_spec (atId x) (atId r)) as [E|_].
  - exfalso. apply (H r); auto.
  - apply IH. auto.
Qed.

Lemma fold_upd_hit (h : SchemasTableRow -> SchemasTableRow -> SchemasTableRow) R r x :
  (forall r x, atId (h r x) = atId x) ->
  NoDup (map atId R) -> In r R -> atId x = atId r ->
  fold_left (fun x r => upd (atId r) (h r) x) R x = h r x.
Proof.
  intros Hh. revert x.
  induction R as [|r0 R IH]; simpl; intros x ND Hin E; [easy|].
  inversion ND as [|? ? Hnot ND']; subst.
  unfold upd at 2.
  destruct Hin as [->|Hin].
  - rewrite E, String.eqb_refl. apply fold_upd_miss.
    intros r' Hr' E'. apply Hnot. rewrite Hh, E in E'. rewrite <- E'.
    now apply in_map.
  - destruct (String.eqb_spec (atId x) (atId r0)) as [E0|_].
    + exfalso. apply Hnot. rewrite <- E0, E. now apply in_map.
    + now apply IH.
Qed.

Lemma NoDup_map_filter {A B} (f : A -> B) (p : A -> bool) l :
  NoDup (map f l) -> NoDup (map f (filter p l)).
Proof.
  induction l as [|a l IH]; simpl; intros ND; [constructor|].
  inversion ND as [|? ? Hnot ND']; subst.
  destruct (p a); simpl; auto. constructor; auto.
  intros H. apply Hnot. apply in_map_iff in H as (y & E & Hy).
  apply filter_In in Hy as [Hy _]. rewrite <- E. now apply in_map.
Qed.

(** *** The steps of the referrer pass as row updates *)

(** The row a client holds after persisting content [j] in it. *)
Definition persisted (now : Z) (client_id : string) (j : json) (x : SchemasTableRow)
  : SchemasTableRow :=
  mkRow (atId x) (Some now) (Some client_id) (Dumps j) 0 (note x).

(** A write that keeps the identifier: the lease is taken and the content
    replaced, in the row of the document only. *)
Lemma write_schema_same_id depth now schema_id j client_id tbl x :
  primary_key tbl -> In x tbl -> atId x = schema_id ->
  blockedb now client_id x = false ->
  document_id j = Ok schema_id ->
  write_schema (S depth) now schema_id j client_id tbl
    = Ok (map (upd schema_id (persisted now client_id j)) tbl).
Proof.
  intros PK Hx Hid NB Hj. simpl.
  rewrite (set_lock_found now true schema_id client_id tbl x PK Hx Hid), NB.
  simpl. rewrite Hj. simpl.
  unfold _change_referring_schemas. rewrite String.eqb_refl. simpl.
  unfold update_schema. rewrite String.eqb_refl. simpl.
  f_equal. unfold relock. rewrite map_map. apply map_ext.
  intros r. unfold upd, persisted.
  destruct (String.eqb_spec (atId r) schema_id) as [E|E]; simpl.
  - apply String.eqb_eq in E as E'. rewrite E'. now rewrite E.
  - apply String.eqb_neq in E. now rewrite E.
Qed.

Lemma referrer_facts old_id tbl r :
  store_ok tbl -> In r (filter (is_referrer old_id) tbl) ->
  In r tbl
  /\ refersb old_id (doc_of r) = true
  /\ events_ok (doc_of r) = true
  /\ document_id (doc_of r) = Ok (atId r).
Proof.
  intros Hok Hr. apply filter_In in Hr as [Hr Href].
  unfold is_referrer in Href. apply andb_true_iff in Href as [Hq Href].
  apply Z.eqb_eq in Hq.
  unfold store_ok in Hok. rewrite Forall_forall in Hok.
  destruct (Hok r Hr Hq) as (_ & E1 & E2). auto.
Qed.

Section ReferrerPass.

Variables (now : Z) (old_id new_id client_id : string) (tbl0 : table).
Hypothesis PK0 : primary_key tbl0.
Hypothesis OK0 : store_ok tbl0.

Let R := filter (is_referrer old_id) tbl0.

(** What holds of the table throughout the pass: the keys stay, and no row of
    a referrer is blocked for the client. *)
Definition pass_inv (t : table) : Prop :=
  primary_key t
  /\ map atId t = map atId tbl0
  /\ forall x, In x t -> In (atId x) (map atId R) -> blockedb now client_id x = false.

Lemma pass_inv_row t r :
  pass_inv t -> In r R ->
  exists x, In x t /\ atId x = atId r /\ blockedb now client_id x = false.
Proof.
  intros (PK & Hkeys & NB) Hr.
  destruct (referrer_facts old_id tbl0 r OK0 Hr) as (Hin & _).
  assert (In (atId r) (map atId t)) as H by (rewrite Hkeys; now apply in_map).
  apply in_map_iff in H as (x & E & Hx).
  exists x. repeat split; auto. apply NB; auto. rewrite E. now apply in_map.
Qed.

Lemma pass_inv_upd t key h :
  (forall x, atId (h x) = atId x) ->
  (forall x, blockedb now client_id (h x) = false) ->
  pass_inv t -> pass_inv (map (upd key h) t).
Proof.
  intros Hid Hnb (PK & Hkeys & NB).
  assert (forall x, atId (upd key h x) = atId x) as Hupd.
  { intros x. unfold upd. destruct (String.eqb (atId x) key); auto. }
  assert (map atId (map (upd key h) t) = map atId t) as K.
  { rewrite map_map. now apply map_ext. }
  split; [|split].
  - unfold primary_key. now rewrite K.
  - congruence.
  - intros y Hy Hk. apply in_map_iff in Hy as (x & <- & Hx).
    rewrite Hupd in Hk. unfold upd.
    destruct (String.eqb (atId x) key); auto.
Qed.

Lemma own_lease_not_blocked j x :
  blockedb now client_id (persisted now client_id j x) = false.
Proof.
  unfold blockedb, persisted. simpl. rewrite String.eqb_refl.
  apply andb_false_r.
Qed.

Lemma with_lock_not_blocked x :
  blockedb now client_id (with_lock (Some now) (Some client_id) x) = false.
Proof.
  unfold blockedb, with_lock. simpl. rewrite String.eqb_refl.
  apply andb_false_r.
Qed.

Lemma lock_step t r :
  In r R -> pass_inv t ->
  lock_referrer now client_id t (doc_of r)
    = Ok (map (upd (atId r) (with_lock (Some now) (Some client_id))) t)
  /\ pass_inv (map (upd (atId r) (with_lock (Some now) (Some client_id))) t).
Proof.
  intros Hr Inv.
  destruct (referrer_facts old_id tbl0 r OK0 Hr) as (_ & _ & _ & Hid).
  destruct (pass_inv_row t r Inv Hr) as (x & Hx & Ex & NB).
  split.
  - unfold lock_referrer. rewrite Hid. simpl.
    rewrite (set_lock_found now true (atId r) client_id t x (proj1 Inv) Hx Ex), NB.
    reflexivity.
  - apply pass_inv_upd; auto. apply with_lock_not_blocked.
Qed.

Lemma rewrite_step depth t r :
  In r R -> pass_inv t ->
  rewrite_referrer (write_schema (S depth) now) old_id new_id client_id t (doc_of r)
    = Ok (map (upd (atId r)
                 (persisted now client_id (repointed old_id new_id (doc_of r)))) t)
  /\ pass_inv (map (upd (atId r)
                 (persisted now client_id (repointed old_id new_id (doc_of r)))) t).
Proof.
  intros Hr Inv.
  destruct (referrer_facts old_id tbl0 r OK0 Hr) as (_ & Href & Hev & Hid).
  destruct (pass_inv_row t r Inv Hr) as (x & Hx & Ex & NB).
  split.
  - unfold rewrite_referrer.
    rewrite (repoint_schema_ok old_id new_id _ Hev Href). cbn [bind].
    rewrite repointed_document_id, Hid. cbn [bind].
    apply (write_schema_same_id depth now (atId r) _ client_id t x (proj1 Inv) Hx Ex NB).
    now rewrite repointed_document_id.
  - apply pass_inv_upd; auto. apply own_lease_not_blocked.
Qed.

(** The row of a referrer after the pass. *)
Definition repoint_row (x : SchemasTableRow) : SchemasTableRow :=
  if is_referrer old_id x
  then persisted now client_id (repointed old_id new_id (doc_of x)) x
  else x.

Lemma referrer_keys x :
  In x tbl0 -> In (atId x) (map atId R) -> In x R.
Proof.
  intros Hx Hk. apply in_map_iff in Hk as (r & E & Hr).
  assert (In r tbl0) as Hr0 by (apply filter_In in Hr; tauto).
  now rewrite (primary_key_inj tbl0 x r PK0 Hx Hr0 (eq_sym E)).
Qed.

(** When no referrer is blocked the pass turns the table into the one with
    every referrer re-pointed and held by the client. *)
Lemma change_referring_ok depth :
  old_id <> new_id ->
  (forall r, In r R -> blockedb now client_id r = false) ->
  _change_referring_schemas (write_schema (S depth) now) now old_id new_id client_id tbl0
    = Ok (map repoint_row tbl0).
Proof.
  intros Hne NB.
  unfold _change_referring_schemas.
  apply String.eqb_neq in Hne. rewrite Hne.
  rewrite (all_schemas_ok tbl0 OK0). cbn [bind].
  rewrite (referring_schemas_ok old_id tbl0 OK0). cbn [bind]. fold R.
  assert (pass_inv tbl0) as Inv0.
  { split; [exact PK0|]. split; [reflexivity|].
    intros x Hx Hk. apply NB. now apply referrer_keys. }
  rewrite !foldM_map.
  destruct (foldM_rows (fun t r => lock_referrer now client_id t (doc_of r))
              (fun r => upd (atId r) (with_lock (Some now) (Some client_id)))
              pass_inv R (fun t r Hr Ht => lock_step t r Hr Ht) tbl0 Inv0) as [E1 Inv1].
  rewrite E1. cbn [bind]. rewrite foldM_map.
  destruct (foldM_rows
              (fun t r => rewrite_referrer (write_schema (S depth) now)
                            old_id new_id client_id t (doc_of r))
              (fun r => upd (atId r)
                          (persisted now client_id (repointed old_id new_id (doc_of r))))
              pass_inv R (fun t r Hr Ht => rewrite_step depth t r Hr Ht) _ Inv1)
    as [E2 _].
  rewrite E2. f_equal. rewrite map_map. apply map_ext_in.
  intros x Hx. unfold repoint_row.
  assert (NoDup (map atId R)) as ND by (apply NoDup_map_filter; exact PK0).
  destruct (is_referrer old_id x) eqn:Href.
  - assert (In x R) as HxR by (apply filter_In; auto).
    rewrite (fold_upd_hit (fun _ => with_lock (Some now) (Some client_id)) R x x);
      auto.
    rewrite (fold_upd_hit
               (fun r => persisted now client_id (repointed old_id new_id (doc_of r)))
               R x); auto.
  - assert (forall r, In r R -> atId r <> atId x) as Hmiss.
    { intros r Hr E. assert (In r tbl0) as Hr0 by (apply filter_In in Hr; tauto).
      rewrite (primary_key_inj tbl0 r x PK0 Hr0 Hx E) in Hr.
      apply filter_In in Hr as [_ Hr]. congruence. }
    rewrite (fold_upd_miss (fun _ => with_lock (Some now) (Some client_id)) R x);
      auto.
    rewrite (fold_upd_miss
               (fun r => persisted now client_id (repointed old_id new_id (doc_of r)))
               R x); auto.
Qed.

End ReferrerPass.

Definition referrer_conflict (ref_id : string) : exn :=
  HTTPConflict ("Schema with @id " ++ ref_id ++
                " refers to this schema and could not be locked.").

(** The locking loop stops at the first referrer it cannot lock. *)
Lemma lock_fold_conflict now client_id R :
  forall t,
  primary_key t ->
  (forall r, In r R -> document_id (doc_of r) = Ok (atId r)) ->
  (forall r, In r R -> In (atId r) (map atId t)) ->
  (exists x, In x t /\ In (atId x) (map atId R) /\ blockedb now client_id x = true) ->
  exists x, In x t /\ In (atId x) (map atId R) /\ blockedb now client_id x = true
    /\ foldM (fun t r => lock_referrer now client_id t (doc_of r)) R t
       = Raise (referrer_conflict (atId x)).
Proof.
  induction R as [|r0 R IH]; intros t PK Hid Hkeys (x & Hx & Hk & B).
  - destruct Hk.
  - assert (In (atId r0) (map atId t)) as H0 by (apply Hkeys; now left).
    apply in_map_iff in H0 as (x0 & E0 & Hx0).
    cbn [foldM]. unfold lock_referrer at 1.
    rewrite (Hid r0) by now left. cbn [bind].
    rewrite (set_lock_found now true (atId r0) client_id t x0 PK Hx0 E0).
    destruct (blockedb now client_id x0) eqn:B0.
    + exists x0. repeat split; auto.
      * rewrite E0. now left.
      * cbn [bind]. unfold referrer_conflict. now rewrite E0.
    + cbn [bind].
      set (t' := relock (Some now) (Some client_id) (atId r0) t).
      assert (forall y, In y t' -> blockedb now client_id y = true -> In y t) as Hback.
      { intros y Hy By. apply in_map_iff in Hy as (z & <- & Hz).
        destruct (String.eqb (atId z) (atId r0)); auto.
        rewrite with_lock_not_blocked in By. discriminate. }
      assert (atId x <> atId r0) as Hne.
      { intros E. rewrite (primary_key_inj t x x0 PK Hx Hx0) in B by congruence.
        congruence. }
      destruct (IH t') as (x' & Hx' & Hk' & B' & E').
      * unfold t'. auto with store.
      * intros r Hr. apply Hid. now right.
      * intros r Hr. unfold t'. rewrite relock_atIds. apply Hkeys. now right.
      * exists x. repeat split; auto.
        -- unfold t', relock. apply in_map_iff. exists x. split; auto.
           apply String.eqb_neq in Hne. now rewrite Hne.
        -- destruct Hk as [E|Hk]; auto. congruence.
      * exists x'. repeat split; auto. now right.
Qed.

Lemma relock_row_ok ts h schema_id tbl :
  store_ok tbl -> store_ok (relock ts h schema_id tbl).
Proof.
  unfold store_ok, relock. intros H. apply Forall_map.
  revert H. apply Forall_impl. intros r Hr.
  destruct (String.eqb (atId r) schema_id); auto.
Qed.

#[local] Hint Resolve relock_row_ok : store.

Lemma is_referrer_upd_lock old_id key ts h x :
  is_referrer old_id (upd key (with_lock ts h) x) = is_referrer old_id x.
Proof. unfold upd. now destruct (String.eqb (atId x) key). Qed.

(** The table after a successful rename from [old_id] to the identifier
    [new_id] of the new content [doc]. *)
Definition renamed (now : Z) (old_id new_id : string) (doc : json)
    (client_id : string) (x : SchemasTableRow) : SchemasTableRow :=
  if String.eqb (atId x) old_id
  then mkRow new_id (Some now) (Some client_id) (Dumps doc) 0 (note x)
  else repoint_row now old_id new_id client_id x.

Definition rename_outcome (depth : nat) (now : Z) (old_id : string) (doc : json)
    (client_id : string) (tbl : table) : result unit * table :=
  do_transaction (unit_block (write_schema (S (S depth)) now old_id doc client_id)) tbl.

(** A transaction shows all of its block or nothing of it. *)
Lemma do_transaction_atomic {A} (block : table -> result (A * table)) tbl :
  (exists a tbl', block tbl = Ok (a, tbl') /\ do_transaction block tbl = (Ok a, tbl'))
  \/ (exists e, block tbl = Raise e /\ do_transaction block tbl = (Raise e, tbl)).
Proof.
  unfold do_transaction. destruct (block tbl) as [[a tbl']|e]; eauto.
Qed.

(** C1. Rename atomicity.  In a well-formed store a write under lease that
    changes the identifier of a document to one the store does not hold
    either (when no referrer carries a lease of another holder that is within
    its lifetime) takes the lease of every referrer, re-points each referrer's
    [wd_node] and [wd_label], persists them and persists the renamed document,
    or (when some referrer does) raises Conflict naming a referrer that could
    not be locked and leaves the whole table as it was. *)
Theorem rename_atomic (depth : nat) (now : Z) (old_id new_id client_id : string)
    (doc : json) (tbl : table) (target : SchemasTableRow) :
  primary_key tbl -> store_ok tbl ->
  In target tbl -> atId target = old_id -> ~ blocked_for now client_id target ->
  document_id doc = Ok new_id -> new_id <> old_id -> ~ In new_id (map atId tbl) ->
  (Forall (fun r => ~ blocked_for now client_id r) (filter (is_referrer old_id) tbl) ->
   rename_outcome depth now old_id doc client_id tbl
     = (Ok tt, map (renamed now old_id new_id doc client_id) tbl))
  /\ (Exists (blocked_for now client_id) (filter (is_referrer old_id) tbl) ->
      exists r, In r (filter (is_referrer old_id) tbl)
        /\ blocked_for now client_id r
        /\ rename_outcome depth now old_id doc client_id tbl
           = (Raise (referrer_conflict (atId r)), tbl)).
Proof.
  intros PK OK Htarget Hid NBt Hdoc Hne Hfresh.
  assert (blockedb now client_id target = false) as NBt'.
  { destruct (blockedb now client_id target) eqn:B; auto.
    apply blockedb_spec in B. contradiction. }
  set (tbl1 := relock (Some now) (Some client_id) old_id tbl).
  assert (primary_key tbl1) as PK1 by (unfold tbl1; auto with store).
  assert (store_ok tbl1) as OK1 by (unfold tbl1; auto with store).
  assert (write_schema (S (S depth)) now old_id doc client_id tbl
          = tbl2 <- _change_referring_schemas (write_schema (S depth) now)
                      now old_id new_id client_id tbl1 ;;
            update_schema old_id new_id (json_dumps doc) tbl2) as Hw.
  { cbn [write_schema].
    rewrite (set_lock_found now true old_id client_id tbl target PK Htarget Hid), NBt'.
    cbn [bind]. rewrite Hdoc. reflexivity. }
  unfold rename_outcome, do_transaction, unit_block. rewrite Hw. clear Hw.
  split.
  - (* every referrer can be locked *)
    intros Hall. rewrite Forall_forall in Hall.
    rewrite (change_referring_ok now old_id new_id client_id tbl1 PK1 OK1 depth).
    + cbn [bind]. unfold update_schema.
      assert (existsb (fun r => String.eqb (atId r) new_id)
                (map (repoint_row now old_id new_id client_id) tbl1) = false) as ->.
      { destruct (existsb _ _) eqn:X; auto. exfalso.
        apply existsb_exists in X as (y & Hy & Ey). apply String.eqb_eq in Ey.
        apply Hfresh. rewrite <- Ey.
        apply in_map_iff in Hy as (y1 & <- & Hy1).
        apply in_map_iff in Hy1 as (y0 & <- & Hy0).
        replace (atId (repoint_row now old_id new_id client_id _)) with (atId y0).
        - now apply in_map.
        - unfold repoint_row.
          destruct (is_referrer _ _); simpl;
            destruct (String.eqb (atId y0) old_id); reflexivity. }
      rewrite andb_false_r. cbn [bind]. f_equal.
      unfold tbl1, relock. rewrite !map_map. apply map_ext.
      intros x. unfold renamed, repoint_row.
      destruct (String.eqb (atId x) old_id) eqn:Ex.
      * destruct (is_referrer old_id (with_lock (Some now) (Some client_id) x));
          simpl; rewrite Ex; reflexivity.
      * destruct (is_referrer old_id x); simpl; rewrite Ex; reflexivity.
    + congruence.
    + intros r Hr. apply filter_In in Hr as [Hr Href].
      apply in_map_iff in Hr as (x & <- & Hx).
      fold (upd old_id (with_lock (Some now) (Some client_id)) x) in *.
      rewrite is_referrer_upd_lock in Href. unfold upd.
      destruct (String.eqb (atId x) old_id).
      * apply with_lock_not_blocked.
      * destruct (blockedb now client_id x) eqn:B; auto.
        apply blockedb_spec in B. exfalso.
        apply (Hall x); auto. apply filter_In. auto.
  - (* some referrer cannot be locked *)
    intros Hex. apply Exists_exists in Hex as (r & Hr & Br).
    unfold _change_referring_schemas.
    assert (String.eqb old_id new_id = false) as ->
      by (apply String.eqb_neq; congruence).
    rewrite (all_schemas_ok tbl1 OK1). cbn [bind].
    rewrite (referring_schemas_ok old_id tbl1 OK1). cbn [bind].
    rewrite foldM_map.
    assert (forall y, In y tbl1 -> blockedb now client_id y = true ->
                      In y tbl /\ atId y <> old_id) as Hback.
    { intros y Hy By. apply in_map_iff in Hy as (z & <- & Hz).
      destruct (String.eqb_spec (atId z) old_id) as [E|E]; auto.
      rewrite with_lock_not_blocked in By. discriminate. }
    assert (forall y, In y tbl -> atId y <> old_id -> In y tbl1) as Hfwd.
    { intros y Hy Ey. unfold tbl1, relock. apply in_map_iff. exists y.
      apply String.eqb_neq in Ey. rewrite Ey. auto. }
    apply filter_In in Hr as [Hr Href]. apply blockedb_spec in Br as Br'.
    assert (atId r <> old_id) as Hro.
    { intros E. rewrite (primary_key_inj tbl r target PK Hr Htarget) in Br' by congruence.
      congruence. }
    destruct (lock_fold_conflict now client_id (filter (is_referrer old_id) tbl1) tbl1 PK1)
      as (x & Hx & Hk & Bx & E).
    + intros y Hy. now apply (referrer_facts old_id tbl1 y OK1).
    + intros y Hy. apply in_map. apply filter_In in Hy. tauto.
    + exists r. split; [auto|]. split; [|exact Br'].
      apply in_map. apply filter_In. auto.
    + rewrite E. cbn [bind].
      destruct (Hback x Hx Bx) as [Hx0 Hxo].
      exists x. split; [|split; [now apply blockedb_spec|reflexivity]].
      apply filter_In. split; auto.
      apply in_map_iff in Hk as (y & Ey & Hy).
      apply filter_In in Hy as [Hy Hyref].
      now rewrite <- (primary_key_inj tbl1 y x PK1 Hy Hx Ey).
Qed.

(** A store where [cmu:Schema/main] includes [cmu:Schema/sub] as a subschema
    and [cmu:Schema/other] does not. *)
Definition sub_event : json :=
  JObj [("@id", JStr "cmu:Events/1"); ("wd_node", JStr "cmu:Schema/sub");
        ("wd_label", JStr "sub")].

Definition plain_event : json :=
  JObj [("@id", JStr "cmu:Events/2"); ("wd_node", JStr "wd:Q1")].

Definition library_store : table :=
  [ mkRow "cmu:Schema/sub" None None
      (Dumps (JObj [("@id", JStr "cmu:Schema/sub"); ("events", JArr [])])) 0 None;
    mkRow "cmu:Schema/main" (Some 100) (Some "alice")
      (Dumps (JObj [("@id", JStr "cmu:Schema/main");
                    ("events", JArr [sub_event; plain_event])])) 0 None;
    mkRow "cmu:Schema/other" None None
      (Dumps (JObj [("@id", JStr "cmu:Schema/other");
                    ("events", JArr [plain_event])])) 0 None ].

Definition renamed_sub : json :=
  JObj [("@id", JStr "cmu:Schema/part"); ("events", JArr [])].

Lemma library_store_primary_key : primary_key library_store.
Proof.
  unfold primary_key, library_store. simpl.
  repeat constructor; simpl; intuition discriminate.
Qed.

Lemma library_store_ok : store_ok library_store.
Proof. repeat constructor. Qed.

Lemma rename_atomic_witness :
  rename_outcome 0 130 "cmu:Schema/sub" renamed_sub "bob" library_store
  = (Ok tt,
     [ mkRow "cmu:Schema/part" (Some 130) (Some "bob") (Dumps renamed_sub) 0 None;
       mkRow "cmu:Schema/main" (Some 130) (Some "bob")
         (Dumps (JObj [("@id", JStr "cmu:Schema/main");
                       ("events",
                        JArr [JObj [("@id", JStr "cmu:Events/1");
                                    ("wd_node", JStr "cmu:Schema/part");
                                    ("wd_label", JStr "part")];
                              plain_event])])) 0 None;
       mkRow "cmu:Schema/other" None None
         (Dumps (JObj [("@id", JStr "cmu:Schema/other");
                       ("events", JArr [plain_event])])) 0 None ]).
Proof.
  refine (proj1 (rename_atomic 0 130 "cmu:Schema/sub" "cmu:Schema/part" "bob"
                   renamed_sub library_store
                   (mkRow "cmu:Schema/sub" None None
                      (Dumps (JObj [("@id", JStr "cmu:Schema/sub"); ("events", JArr [])]))
                      0 None)
                   library_store_primary_key library_store_ok _ eq_refl _ eq_refl _ _) _).
  - simpl. auto.
  - intros [(t & Et & _) _]. discriminate.
  - discriminate.
  - simpl. intuition discriminate.
  - repeat constructor. cbn [lock_ts holder_id].
    intros [(t & Et & Ht) _]. injection Et as <-.
    unfold LOCK_LIFETIME in Ht. lia.
Defined.

(** While Alice's lease on the referrer is within its lifetime the rename is
    refused and nothing is written. *)
Example rename_refused :
  rename_outcome 0 110 "cmu:Schema/sub" renamed_sub "bob" library_store
  = (Raise (referrer_conflict "cmu:Schema/main"), library_store).
Proof. reflexivity. Qed.

(** ** Subschema inlining *)

(** A participant that is kept is never passed when the placeholder event is
    the first event of the library: the loop adds the index 0 to [j]. *)
Lemma prune_stuck_at_index_0 fuel unused_args p ps e :
  getitem p "entity" = Ok e ->
  in_strings unused_args e = Ok false ->
  prune_participants fuel 0 unused_args (p :: ps) 0 = Raise OutOfFuel.
Proof.
  intros He Hin. induction fuel as [|fuel IH]; simpl; [reflexivity|].
  rewrite He. simpl. rewrite Hin. simpl. exact IH.
Qed.

Definition kept_participant : json :=
  JObj [("@id", JStr "p-kept"); ("entity", JStr "buyer-id"); ("roleName", JStr "A0")].

Definition unused_participant : json :=
  JObj [("@id", JStr "p-unused"); ("entity", JStr "payee-arg-id"); ("roleName", JStr "A1")].

(** C3, at the inputs where the code fails it.  With the placeholder event
    at index 0 the pruning loop of [inject_subschemas] never ends once a
    participant is kept, and with the placeholder at index 2 it steps over
    the participant that refers to the unused argument and leaves it. *)
Theorem prune_participants_defect :
  (forall fuel,
     prune_participants fuel 0 ["payee-arg-id"]
       [kept_participant; unused_participant] 0 = Raise OutOfFuel)
  /\ (forall fuel,
     prune_participants (S (S fuel)) 2 ["payee-arg-id"]
       [kept_participant; unused_participant] 0
     = Ok [kept_participant; unused_participant]).
Proof.
  split; intros fuel.
  - now apply prune_stuck_at_index_0 with (e := JStr "buyer-id").
  - reflexivity.
Qed.

(** With the placeholder at index 1 the loop is the filter it is meant to
    be. *)
Lemma prune_at_index_1 unused_args :
  forall ps done fuel,
  Forall (fun p => exists e, getitem p "entity" = Ok (JStr e)) ps ->
  Forall (fun p => exists e, getitem p "entity" = Ok (JStr e)
                        /\ existsb (String.eqb e) unused_args = false) done ->
  (length ps < fuel)%nat ->
  prune_participants fuel 1 unused_args (done ++ ps) (length done)
  = Ok (done ++ filter (fun p => match getitem p "entity" with
                              | Ok (JStr e) => negb (existsb (String.eqb e) unused_args)
                              | _ => true
                              end) ps).
Proof.
  induction ps as [|p ps IH]; intros done fuel Hps Hdone Hfuel.
  - destruct fuel; [inversion Hfuel|]. simpl.
    rewrite app_nil_r.
    assert (nth_error done (length done) = None) as -> by (apply nth_error_None; lia).
    reflexivity.
  - destruct fuel; [inversion Hfuel|]. simpl in Hfuel.
    inversion Hps as [|? ? (e & He) Hps']; subst.
    cbn [prune_participants].
    rewrite nth_error_app2 by lia. rewrite Nat.sub_diag. cbn [nth_error].
    rewrite He. cbn [bind in_strings filter]. rewrite He.
    destruct (existsb (String.eqb e) unused_args) eqn:X; cbn [negb].
    + rewrite firstn_app, firstn_all, Nat.sub_diag. cbn [firstn].
      rewrite app_nil_r.
      replace (skipn (S (length done)) (done ++ p :: ps)) with ps.
      * apply IH; auto. lia.
      * rewrite skipn_app.
        rewrite skipn_all2 by lia.
        replace (S (length done) - length done)%nat with 1%nat by lia.
        reflexivity.
    + replace (done ++ p :: ps) with ((done ++ [p]) ++ ps)
        by (rewrite <- app_assoc; reflexivity).
      replace (length done + 1)%nat with (length (done ++ [p]))
        by (rewrite length_app; reflexivity).
      rewrite IH; [rewrite <- app_assoc; reflexivity|assumption| |lia].
      apply Forall_app. split; [assumption|]. constructor; eauto.
Qed.

(** The root of a subschema is its only root: with no root or several roots
    [subschema_root] raises. *)
Lemma subschema_root_spec subschema roots :
  all_roots subschema = Ok roots ->
  match roots with
  | [root] => subschema_root subschema = Ok root
  | [] => subschema_root subschema = Raise IndexError
  | _ :: _ :: _ =>
      forall name, document_id subschema = Ok name ->
      subschema_root subschema
      = Raise (ValueError ("Subschema " ++ name ++ " has multiple root events."))
  end.
Proof.
  intros H. unfold subschema_root. rewrite H. cbn [bind].
  destruct roots as [|r1 [|r2 roots]]; try reflexivity.
  intros name Hname. unfold document_id in Hname.
  cbn [length Nat.ltb Nat.leb].
  destruct (getitem subschema "@id") as [i|]; [|discriminate].
  cbn [bind] in *. rewrite Hname. reflexivity.
Qed.

Lemma subschema_root_Ok subschema root :
  subschema_root subschema = Ok root -> all_roots subschema = Ok [root].
Proof.
  unfold subschema_root. intros H.
  destruct (all_roots subschema) as [roots|] eqn:E; [|discriminate].
  cbn [bind] in H. destruct roots as [|r1 [|r2 roots]].
  - discriminate.
  - now injection H as <-.
  - cbn [length Nat.ltb Nat.leb] in H.
    destruct (getitem subschema "@id"); [|discriminate].
    cbn [bind] in H. destruct (as_str a); discriminate.
Qed.

Section Hang.

Variables (validate_document : json -> bool) (uuid4 : nat -> string).

(** Inlining at index 0 never ends when the first event of the subschema
    keeps its first participant. *)
Lemma inline_at_index_0_hangs draws lib event subschema
    s1 n args ps s2 unused_args e es v p rest ent :
  Util.fix_atIds uuid4 true draws subschema = Ok (s1, n) ->
  schema_args s1 = Ok args ->
  getitem event "participants" = Ok ps ->
  foldM (bind_participant args) (Util.ensure_list ps) (s1, dedup (map snd args))
    = Ok (s2, unused_args) ->
  getitem s2 "events" = Ok (JArr (e :: es)) ->
  getitem e "participants" = Ok v ->
  Util.ensure_list v = p :: rest ->
  getitem p "entity" = Ok ent ->
  in_strings unused_args ent = Ok false ->
  forall fuel,
  inline_subschema uuid4 fuel draws lib 0 event subschema = Raise OutOfFuel.
Proof.
  intros H1 H2 H3 H4 H5 H6 H7 H8 H9 fuel.
  unfold inline_subschema. rewrite H1. cbn [bind]. rewrite H2. cbn [bind].
  rewrite H3. cbn [bind]. rewrite H4. cbn [bind].
  unfold for_each_in. rewrite H5. cbn [bind mapM].
  unfold prune_event at 1. rewrite H6. cbn [bind]. rewrite H7.
  rewrite (prune_stuck_at_index_0 fuel unused_args p rest ent H8 H9).
  reflexivity.
Qed.

Lemma inject_at_index_0_hangs tbl draws lib v event schema_id r rows subschema :
  getitem lib "events" = Ok v ->
  nth_error (Util.ensure_list v) 0 = Some event ->
  is_subschema_event event = Ok true ->
  getitem event "wd_node" = Ok (JStr schema_id) ->
  select_by_atId schema_id tbl = r :: rows ->
  loads_sdf validate_document (data r) = Ok subschema ->
  (forall fuel,
     inline_subschema uuid4 fuel draws lib 0 event subschema = Raise OutOfFuel) ->
  forall fuel,
  inject_subschemas validate_document uuid4 fuel tbl draws lib = Raise OutOfFuel.
Proof.
  intros H1 H2 H3 H4 H5 H6 H7 fuel.
  unfold inject_subschemas. destruct fuel as [|fuel]; [reflexivity|].
  cbn [inject_loop]. rewrite H1. cbn [bind]. rewrite H2, H3. cbn [bind].
  rewrite H4. cbn [bind as_str]. rewrite H5, H6, H7. reflexivity.
Qed.

End Hang.

(** A library whose first event stands for the subschema [cmu:Schema/steps],
    which has two root events. *)
Definition uuid_of (n : nat) : string := "uuid-" ++ Util.decimal n.

Definition steps_doc : json :=
  JObj [("@id", JStr "cmu:Schema/steps");
        ("entities",
         JArr [JObj [("@id", JStr "cmu:Entities/agent"); ("name", JStr "agent");
                     ("privateData", JObj [("isSchemaArg", JBool true)])]]);
        ("events",
         JArr [JObj [("@id", JStr "cmu:Events/step1"); ("name", JStr "step1");
                     ("participants",
                      JArr [JObj [("@id", JStr "cmu:Participants/p1");
                                  ("entity", JStr "cmu:Entities/agent");
                                  ("roleName", JStr "A0")]])];
               JObj [("@id", JStr "cmu:Events/step2"); ("name", JStr "step2");
                     ("participants", JArr [])]])].

Definition plan_doc : json :=
  JObj [("@id", JStr "cmu:Schema/plan");
        ("entities",
         JArr [JObj [("@id", JStr "cmu:Entities/alice"); ("name", JStr "alice")]]);
        ("events",
         JArr [JObj [("@id", JStr "cmu:Events/do"); ("name", JStr "do");
                     ("wd_node", JStr "cmu:Schema/steps");
                     ("participants",
                      JArr [JObj [("@id", JStr "cmu:Participants/who");
                                  ("entity", JStr "cmu:Entities/alice");
                                  ("roleName", JStr "agent")]])]])].

Definition plan_store : table :=
  [ mkRow "cmu:Schema/plan" None None (Dumps plan_doc) 0 None;
    mkRow "cmu:Schema/steps" None None (Dumps steps_doc) 0 None ].

(** C5, at an input where the code fails it.  The subschema has two root
    events, and the composition neither returns nor raises: the placeholder
    is the first event of the library, so the pruning loop never ends and the
    check of the roots is never reached. *)
Theorem compose_two_roots_hangs :
  all_roots steps_doc = Ok ["cmu:Events/step1"; "cmu:Events/step2"]
  /\ forall fuel,
     package_schemas (fun _ => true) uuid_of (fun _ => []) (fun _ => [])
       JNull "2.3" (fun node => Ok (node, node))
       fuel "lib" ["cmu:Schema/plan"; "cmu:Schema/steps"] plan_store
     = Raise OutOfFuel.
Proof.
  split; [reflexivity|]. intros fuel. unfold package_schemas.
  set (L := package_library _ _ _ _ _ _ _ _ _). vm_compute in L. subst L.
  cbn [bind].
  match goal with
  | |- context [inject_subschemas _ _ _ ?t ?d ?l] =>
      assert (forall fuel, inject_subschemas (fun _ => true) uuid_of fuel t d l
                           = Raise OutOfFuel) as H
  end.
  { eapply inject_at_index_0_hangs.
    1-6: reflexivity.
    eapply inline_at_index_0_hangs.
    1-2: (vm_compute; reflexivity).
    1: reflexivity.
    1: (vm_compute; reflexivity).
    all: reflexivity. }
  rewrite H. reflexivity.
Qed.

(** When the inlining of a subschema returns, the subschema it put into the
    library had exactly one root. *)
Lemma inline_subschema_one_root uuid4 fuel draws lib i event subschema lib' draws' :
  inline_subschema uuid4 fuel draws lib i event subschema = Ok (lib', draws') ->
  exists inlined root,
    all_roots inlined = Ok [root] /\ subschema_root inlined = Ok root.
Proof.
  unfold inline_subschema. intros H.
  apply bind_Ok in H as ([s1 n] & _ & H).
  apply bind_Ok in H as (args & _ & H).
  apply bind_Ok in H as (ps & _ & H).
  apply bind_Ok in H as ([s2 unused] & _ & H).
  apply bind_Ok in H as (s3 & _ & H).
  apply bind_Ok in H as (lib1 & _ & H).
  apply bind_Ok in H as (lib2 & _ & H).
  apply bind_Ok in H as (root & Hroot & _).
  exists s3, root. split; auto. now apply subschema_root_Ok.
Qed.

(** ** The quarantine flag and validation on read *)

(** A shape check standing for the validation of [sdf.Document]: the
    collections of a document are present. *)
Definition sample_shape (d : json) : bool :=
  has_key "@id" d && has_key "events" d && has_key "entities" d.

(** The message of that check. *)
Definition sample_message (d : json) : string :=
  if has_key "events" d then "- entities: field required"
  else "- events: field required".

Definition flagged_doc : json :=
  JObj [("@id", JStr "cmu:Schema/old"); ("events", JArr []); ("entities", JArr [])].

(** A row that an earlier start quarantined and whose content passes the
    validation of today. *)
Definition flagged_store : table :=
  [ mkRow "cmu:Schema/old" None None (Dumps flagged_doc) 1
      (Some ("Not Valid SDF" ++ String Util.newline "- entities: field required")%string) ].

(** The flag does not keep a document out: the composition loads the flagged
    row and a default read serves it. *)
Lemma quarantined_row_composed_and_served :
  Forall (fun r => quarantined r = 1) flagged_store
  /\ load_valid sample_shape (select_in ["cmu:Schema/old"] flagged_store)
     = Ok [flagged_doc]
  /\ get_schema sample_shape "cmu:Schema/old" false flagged_store = Ok flagged_doc.
Proof. repeat split. repeat constructor. Qed.

Lemma load_valid_dicts validate_document rows :
  Forall (fun r => exists f, data r = Dumps (JObj f)) rows ->
  load_valid validate_document rows
  = Ok (filter validate_document (map doc_of rows)).
Proof.
  induction rows as [|r rows IH]; intros H; [reflexivity|].
  inversion H as [|? ? (f & Hf) H']; subst.
  cbn [load_valid map filter]. unfold loads_sdf, doc_of. rewrite Hf.
  cbn [json_loads bind validate_type].
  destruct (validate_document (JObj f)); rewrite (IH H'); reflexivity.
Qed.

(** Rows with the same identifier and the same content. *)
Definition same_content (a b : SchemasTableRow) : Prop :=
  atId a = atId b /\ data a = data b.

Lemma same_content_select_in schema_ids tbl2 tbl :
  Forall2 same_content tbl2 tbl ->
  Forall2 same_content (select_in schema_ids tbl2) (select_in schema_ids tbl).
Proof.
  unfold select_in. induction 1 as [|a b l2 l [Hid Hdata] _ IH]; [constructor|].
  cbn [filter]. rewrite Hid.
  destruct (existsb _ schema_ids); [constructor; [split|]|]; auto.
Qed.

Lemma same_content_select_by_atId schema_id tbl2 tbl :
  Forall2 same_content tbl2 tbl ->
  Forall2 same_content (select_by_atId schema_id tbl2) (select_by_atId schema_id tbl).
Proof.
  unfold select_by_atId. induction 1 as [|a b l2 l [Hid Hdata] _ IH]; [constructor|].
  cbn [filter]. rewrite Hid.
  destruct (String.eqb _ schema_id); [constructor; [split|]|]; auto.
Qed.

Lemma same_content_load_valid validate_document rows2 rows :
  Forall2 same_content rows2 rows ->
  load_valid validate_document rows2 = load_valid validate_document rows.
Proof.
  induction 1 as [|a b l2 l [Hid Hdata] _ IH]; [reflexivity|].
  cbn [load_valid]. now rewrite Hdata, IH.
Qed.

Lemma same_content_get_schema validate_document schema_id no_validate tbl2 tbl :
  Forall2 same_content tbl2 tbl ->
  get_schema validate_document schema_id no_validate tbl2
  = get_schema validate_document schema_id no_validate tbl.
Proof.
  intros H. apply (same_content_select_by_atId schema_id) in H. unfold get_schema.
  destruct H as [|a b l2 l [Hid Hdata] _]; [reflexivity|]. now rewrite Hdata.
Qed.

(** C4, as the code has it.  What keeps a document out is the validation of
    its content when it is read, which is also what the pass at start-up
    flags: a stored document whose content fails validation is flagged by
    that pass, is left out of the input of the composition, and is refused by
    a default read with a validation error, while a read that opts out of
    validation serves it.  The flag itself is not consulted: the composition
    and the reads give the same on every store with the same identifiers
    and contents, whatever the flags, notes and locks of its rows; and a row
    whose content validates is composed and served, whatever its flag. *)
Theorem invalid_content_excluded (validate_document : json -> bool)
    (validation_message : json -> string) (tbl : table)
    (r : SchemasTableRow) (f : list (string * json)) :
  primary_key tbl -> In r tbl ->
  data r = Dumps (JObj f) -> validate_document (JObj f) = false ->
  (forall schema_ids,
     Forall (fun r => exists f, data r = Dumps (JObj f)) (select_in schema_ids tbl) ->
     exists schemas,
       load_valid validate_document (select_in schema_ids tbl) = Ok schemas
       /\ ~ In (JObj f) schemas
       /\ Forall (fun s => validate_document s = true) schemas)
  /\ get_schema validate_document (atId r) false tbl = Raise ValidationError
  /\ get_schema validate_document (atId r) true tbl = Ok (JObj f)
  /\ (forall tbl', _validate_schemas validate_document validation_message tbl = Ok tbl' ->
      exists r', In r' tbl' /\ atId r' = atId r /\ quarantined r' <> 0)
  /\ (forall tbl2,
        Forall2 same_content tbl2 tbl ->
        (forall schema_ids,
           load_valid validate_document (select_in schema_ids tbl2)
           = load_valid validate_document (select_in schema_ids tbl))
        /\ forall schema_id no_validate,
             get_schema validate_document schema_id no_validate tbl2
             = get_schema validate_document schema_id no_validate tbl)
  /\ (forall r' f',
        In r' tbl -> data r' = Dumps (JObj f') -> validate_document (JObj f') = true ->
        get_schema validate_document (atId r') false tbl = Ok (JObj f')
        /\ forall schema_ids,
             In (atId r') schema_ids ->
             Forall (fun r => exists f, data r = Dumps (JObj f))
                    (select_in schema_ids tbl) ->
             exists schemas,
               load_valid validate_document (select_in schema_ids tbl) = Ok schemas
               /\ In (JObj f') schemas).
Proof.
  intros PK Hin Hdata Hinvalid.
  split; [|split; [|split; [|split; [|split]]]].
  - intros ids Hrows. rewrite (load_valid_dicts _ _ Hrows).
    eexists. split; [reflexivity|]. split.
    + intros H. apply filter_In in H as [_ H]. congruence.
    + apply Forall_forall. intros s Hs. now apply filter_In in Hs.
  - unfold get_schema. rewrite (select_by_atId_unique tbl r PK Hin).
    unfold loads_sdf. rewrite Hdata. simpl. now rewrite Hinvalid.
  - unfold get_schema. rewrite (select_by_atId_unique tbl r PK Hin).
    now rewrite Hdata.
  - clear PK. induction tbl as [|x tbl IH]; [easy|].
    intros tbl' H. cbn [_validate_schemas mapM] in H.
    apply bind_Ok in H as (x' & Hx & H).
    apply bind_Ok in H as (rest & Hrest & H). injection H as <-.
    destruct Hin as [->|Hin].
    + exists x'. split; [now left|].
      destruct (quarantined r =? 0) eqn:Q.
      * unfold quarantine_reason in Hx. rewrite Hdata in Hx.
        cbn [json_loads validate_type] in Hx. rewrite Hinvalid in Hx.
        cbn [bind] in Hx. injection Hx as <-. simpl. split; [reflexivity|lia].
      * injection Hx as <-. split; auto. now apply Z.eqb_neq.
    + destruct (IH Hin rest Hrest) as (r' & Hr' & E & Q).
      exists r'. split; [now right|auto].
  - intros tbl2 Hsame. split.
    + intros ids. apply same_content_load_valid. now apply same_content_select_in.
    + intros id nv. now apply same_content_get_schema.
  - intros r' f' Hin' Hdata' Hvalid. split.
    + unfold get_schema. rewrite (select_by_atId_unique tbl r' PK Hin').
      unfold loads_sdf. rewrite Hdata'. simpl. now rewrite Hvalid.
    + intros ids Hid Hrows. rewrite (load_valid_dicts _ _ Hrows).
      eexists. split; [reflexivity|].
      apply filter_In. split; [|exact Hvalid].
      apply in_map_iff. exists r'. split.
      * unfold doc_of. now rewrite Hdata'.
      * unfold select_in. apply filter_In. split; [exact Hin'|].
        apply existsb_exists. exists (atId r'). split; [exact Hid|].
        apply String.eqb_refl.
Qed.

Definition broken_doc : json := JObj [("@id", JStr "cmu:Schema/broken")].

Definition broken_store : table :=
  [ mkRow "cmu:Schema/broken" None None (Dumps broken_doc) 0 None;
    mkRow "cmu:Schema/old" None None (Dumps flagged_doc) 0 None ].

Lemma invalid_content_excluded_witness :
  get_schema sample_shape "cmu:Schema/broken" false broken_store
    = Raise ValidationError
  /\ get_schema sample_shape "cmu:Schema/broken" true broken_store = Ok broken_doc.
Proof.
  assert (primary_key broken_store) as PK.
  { unfold primary_key, broken_store. simpl.
    repeat constructor; simpl; intuition discriminate. }
  destruct (invalid_content_excluded sample_shape sample_message broken_store
              (mkRow "cmu:Schema/broken" None None (Dumps broken_doc) 0 None)
              [("@id", JStr "cmu:Schema/broken")] PK
              (or_introl eq_refl) eq_refl eq_refl) as (_ & H1 & H2 & _).
  split; assumption.
Defined.

(** ** The digest of the composition input *)

(** The value of a symbol of the alphabet: its position. *)
Fixpoint position_in (c : ascii) (s : string) : N :=
  match s with
  | EmptyString => 0
  | String c' rest => if Ascii.eqb c c' then 0 else N.succ (position_in c rest)
  end%N.

Definition digit_value (c : ascii) : N := position_in c _alphabet.

(** The number a string of base-62 digits stands for, the lowest digit
    first. *)
Fixpoint base62_value (s : string) : N :=
  match s with
  | EmptyString => 0
  | String c rest => digit_value c + 62 * base62_value rest
  end%N.

Lemma digit_value_alphabet_at d :
  (d < 62)%N -> digit_value (alphabet_at d) = d.
Proof.
  intros H.
  assert (forallb (fun n => N.eqb (digit_value (alphabet_at (N.of_nat n))) (N.of_nat n))
            (seq 0 62) = true) as All by (vm_compute; reflexivity).
  rewrite forallb_forall in All.
  specialize (All (N.to_nat d)). rewrite N2Nat.id in All.
  apply N.eqb_eq, All, in_seq. lia.
Qed.

Lemma to_base62_value n : base62_value (to_base62 n) = n.
Proof.
  funelim (to_base62 n); [reflexivity|].
  cbn [base62_value]. rewrite H.
  rewrite digit_value_alphabet_at by (apply N.mod_lt; lia).
  rewrite N.add_comm. symmetry. apply N.div_mod. lia.
Qed.

(** *** Sorting by key *)

Lemma leb_trans a b c :
  String.leb a b = true -> String.leb b c = true -> String.leb a c = true.
Proof.
  unfold String.leb.
  assert (forall x y, String.compare x y <> Gt <-> x = y \/ OrderedTypeEx.String_as_OT.lt x y)
    as Hle.
  { intros x y. rewrite <- OrderedTypeEx.String_as_OT.cmp_lt,
      <- OrderedTypeEx.String_as_OT.cmp_eq.
    unfold OrderedTypeEx.String_as_OT.cmp.
    destruct (String.compare x y); intuition congruence. }
  intros H1 H2.
  assert (String.compare a b <> Gt) as H1' by (destruct (String.compare a b); congruence).
  assert (String.compare b c <> Gt) as H2' by (destruct (String.compare b c); congruence).
  apply Hle in H1', H2'.
  assert (String.compare a c <> Gt) as H3.
  { apply Hle. destruct H1' as [->|L1]; auto. destruct H2' as [<-|L2]; auto.
    right. eapply OrderedTypeEx.String_as_OT.lt_trans; eauto. }
  destruct (String.compare a c); congruence.
Qed.

Section SortByKey.

Context {A : Type}.

Definition key_le (a b : string * A) : Prop := String.leb (fst a) (fst b) = true.

Lemma insert_sorted_perm k (x : A) l :
  Permutation ((k, x) :: l) (insert_sorted k x l).
Proof.
  induction l as [|[k' y] l IH]; cbn [insert_sorted]; [reflexivity|].
  destruct (String.leb k k'); [reflexivity|].
  rewrite perm_swap. now constructor.
Qed.

Lemma sorted_by_key_perm (l : list (string * A)) : Permutation l (sorted_by_key l).
Proof.
  induction l as [|[k x] l IH]; cbn [sorted_by_key]; [reflexivity|].
  rewrite <- insert_sorted_perm. now constructor.
Qed.

Lemma insert_sorted_sorted k (x : A) l :
  StronglySorted key_le l -> StronglySorted key_le (insert_sorted k x l).
Proof.
  induction l as [|[k' y] l IH]; cbn [insert_sorted]; intros S.
  - repeat constructor.
  - inversion S as [|? ? S' Hall]; subst.
    destruct (String.leb k k') eqn:E.
    + constructor; [exact S|]. constructor; [exact E|].
      revert Hall. apply Forall_impl. intros [k2 z]. unfold key_le. simpl.
      now apply leb_trans.
    + constructor; [now apply IH|].
      apply (Permutation_Forall (insert_sorted_perm k x l)).
      constructor; [|exact Hall].
      unfold key_le. simpl. destruct (String.leb_total k k'); congruence.
Qed.

Lemma sorted_by_key_sorted (l : list (string * A)) :
  StronglySorted key_le (sorted_by_key l).
Proof.
  induction l as [|[k x] l IH]; cbn [sorted_by_key]; [constructor|].
  now apply insert_sorted_sorted.
Qed.

(** Two sorted lists with the same items and distinct keys are the same list. *)
Lemma sorted_unique (l1 : list (string * A)) :
  forall l2,
  StronglySorted key_le l1 -> StronglySorted key_le l2 ->
  Permutation l1 l2 -> NoDup (map fst l1) -> l1 = l2.
Proof.
  induction l1 as [|a l1 IH]; intros l2 S1 S2 P ND.
  - apply Permutation_nil in P. now subst.
  - destruct l2 as [|b l2]; [now apply Permutation_sym, Permutation_nil in P|].
    inversion S1 as [|? ? S1' H1]; inversion S2 as [|? ? S2' H2]; subst.
    inversion ND as [|? ? Hnot ND']; subst.
    assert (a = b) as ->.
    { assert (In a (b :: l2)) as Ha by (apply (Permutation_in _ P); now left).
      assert (In b (a :: l1)) as Hb
        by (apply (Permutation_in _ (Permutation_sym P)); now left).
      destruct Ha as [->|Ha]; auto. destruct Hb as [->|Hb]; auto.
      rewrite Forall_forall in H1, H2.
      exfalso. apply Hnot.
      rewrite (String.leb_antisym _ _ (H1 b Hb) (H2 a Ha)).
      now apply in_map. }
    f_equal. apply IH; auto. now apply Permutation_cons_inv in P.
Qed.

Lemma sorted_by_key_perm_eq (l1 l2 : list (string * A)) :
  Permutation l1 l2 -> NoDup (map fst l1) -> sorted_by_key l1 = sorted_by_key l2.
Proof.
  intros P ND. apply sorted_unique; try apply sorted_by_key_sorted.
  - rewrite <- !sorted_by_key_perm. exact P.
  - revert ND. apply Permutation_NoDup, Permutation_map, sorted_by_key_perm.
Qed.

End SortByKey.

(** *** The name of the library *)

Lemma getitem_setitem_other lib k v lib' k0 :
  setitem lib k v = Ok lib' -> k0 <> k -> getitem lib' k0 = getitem lib k0.
Proof.
  destruct lib; try discriminate. intros [= <-] Hne.
  unfold getitem. now rewrite assoc_set_other.
Qed.

Lemma extend_other lib k items lib' k0 :
  extend lib k items = Ok lib' -> k0 <> k -> getitem lib' k0 = getitem lib k0.
Proof.
  unfold extend. intros H Hne. apply bind_Ok in H as (v & _ & H).
  destruct v; try discriminate. eapply getitem_setitem_other; eauto.
Qed.

Lemma add_to_library_atId library schema remove_args library' :
  _add_to_library library schema remove_args = Ok library' ->
  getitem library' "@id" = getitem library "@id".
Proof.
  unfold _add_to_library. intros H. split_binds H.
  match type of H with
  | match ?v with _ => _ end = _ => destruct v; try discriminate
  end.
  rewrite (getitem_setitem_other _ _ _ _ "@id" H) by discriminate.
  repeat match goal with
         | E : extend _ _ _ = Ok ?l |- context [getitem ?l "@id"] =>
             rewrite (extend_other _ _ _ _ "@id" E) by discriminate
         end.
  reflexivity.
Qed.

Section Digest.

Variables (validate_document : json -> bool) (uuid4 : nat -> string).
Variables (encode : text -> list Byte.byte) (blake2b : list Byte.byte -> list Byte.byte).
Variables (jsonld_context : json) (sdf_version : string).

Let package := package_library validate_document uuid4 encode blake2b
                 jsonld_context sdf_version.

(** The library is named after the digest of the sorted valid rows. *)
Lemma package_library_name name schema_ids tbl library draws :
  package name schema_ids tbl = Ok (library, draws) ->
  exists schemas sorted,
    load_valid validate_document (select_in schema_ids tbl) = Ok schemas
    /\ sort_schemas schemas = Ok sorted
    /\ getitem library "@id"
       = Ok (JStr ("cmu:Schema/" ++ name ++ "-" ++ input_digest encode blake2b sorted)).
Proof.
  unfold package, package_library. intros H.
  apply bind_Ok in H as (schemas & Hload & H).
  apply bind_Ok in H as (types & _ & H).
  apply bind_Ok in H as (sorted & Hsort & H).
  cbn [create_blank_schema setitem bind] in H.
  apply bind_Ok in H as ([lib1 d1] & Hfold & H).
  apply bind_Ok in H as (pd & _ & H).
  apply bind_Ok in H as (pd' & _ & H).
  apply bind_Ok in H as (lib2 & Hset & H). injection H as <- <-.
  exists schemas, sorted. repeat split; auto.
  rewrite (getitem_setitem_other _ _ _ _ "@id" Hset) by discriminate.
  revert Hfold.
  apply (foldM_invariant
           (fun st : json * nat =>
              getitem (fst st) "@id"
              = Ok (JStr ("cmu:Schema/" ++ name ++ "-" ++ input_digest encode blake2b sorted)))).
  - intros [l d] schema [l' d'] _ Hl Hstep. unfold add_top_level in Hstep.
    apply bind_Ok in Hstep as (i & _ & Hstep).
    apply bind_Ok in Hstep as (i' & _ & Hstep).
    destruct (existsb _ types).
    + now injection Hstep as <- <-.
    + apply bind_Ok in Hstep as ([s' n] & _ & Hstep).
      apply bind_Ok in Hstep as (l2 & Hadd & Hstep). injection Hstep as <- <-.
      cbn [fst] in *. now rewrite (add_to_library_atId _ _ _ _ Hadd).
  - reflexivity.
Qed.

Lemma select_in_members schema_ids schema_ids' tbl :
  (forall x, In x schema_ids <-> In x schema_ids') ->
  select_in schema_ids tbl = select_in schema_ids' tbl.
Proof.
  intros H. unfold select_in. apply filter_ext. intros r.
  destruct (existsb (String.eqb (atId r)) schema_ids) eqn:E1;
    destruct (existsb (String.eqb (atId r)) schema_ids') eqn:E2; auto.
  - apply existsb_exists in E1 as (x & Hx & Ex). apply H in Hx.
    assert (existsb (String.eqb (atId r)) schema_ids' = true)
      by (apply existsb_exists; eauto). congruence.
  - apply existsb_exists in E2 as (x & Hx & Ex). apply H in Hx.
    assert (existsb (String.eqb (atId r)) schema_ids = true)
      by (apply existsb_exists; eauto). congruence.
Qed.

(** The key under which a document is sorted. *)
Definition sort_key (s : json) : string :=
  match document_id s with
  | Ok k => k
  | Raise _ => ""
  end.

Lemma sort_schemas_keyed schemas :
  Forall (fun s => exists k, document_id s = Ok k) schemas ->
  sort_schemas schemas
  = Ok (map snd (sorted_by_key (map (fun s => (sort_key s, s)) schemas))).
Proof.
  intros H. unfold sort_schemas.
  rewrite (mapM_ok _ (fun s => (sort_key s, s))); [reflexivity|].
  intros s Hs. rewrite Forall_forall in H. destruct (H s Hs) as (k & Hk).
  unfold sort_key. now rewrite Hk.
Qed.

End Digest.

(** ** Renumbering identifiers *)

Import Util.

(** Induction on documents. *)
Section JsonInduction.

Variable P : json -> Prop.
Hypothesis HNull : P JNull.
Hypothesis HBool : forall b, P (JBool b).
Hypothesis HNum : forall n, P (JNum n).
Hypothesis HStr : forall s, P (JStr s).
Hypothesis HArr : forall items, Forall P items -> P (JArr items).
Hypothesis HObj : forall fields, Forall (fun kv => P (snd kv)) fields -> P (JObj fields).

Fixpoint json_induction (v : json) : P v :=
  match v with
  | JNull => HNull
  | JBool b => HBool b
  | JNum n => HNum n
  | JStr s => HStr s
  | JArr items =>
      HArr items ((fix go (l : list json) : Forall P l :=
               match l with
               | [] => Forall_nil P
               | x :: r => Forall_cons x (json_induction x) (go r)
               end) items)
  | JObj fields =>
      HObj fields ((fix go (l : list (string * json)) : Forall (fun kv => P (snd kv)) l :=
               match l with
               | [] => Forall_nil _
               | kv :: r => Forall_cons kv (json_induction (snd kv)) (go r)
               end) fields)
  end.

End JsonInduction.

(** The place of the identifier of the element at [p]. *)
Definition id_place (p : path) : path := p ++ [Key "@id"].

(** The place is an ["@id"] key. *)
Fixpoint ends_at_id (q : path) : bool :=
  match q with
  | [] => false
  | [Key k] => String.eqb k "@id"
  | _ :: rest => ends_at_id rest
  end.

Lemma ends_at_id_id_place p : ends_at_id (id_place p) = true.
Proof.
  unfold id_place. induction p as [|st p IH]; [reflexivity|].
  cbn [app ends_at_id]. destruct (p ++ [Key "@id"]) eqn:E.
  - now destruct p.
  - destruct st; exact IH.
Qed.

Lemma get_at_app v p q :
  get_at v (p ++ q) = match get_at v p with
                      | Some v' => get_at v' q
                      | None => None
                      end.
Proof.
  revert v. induction p as [|st p IH]; intros v; [reflexivity|].
  cbn [app get_at]. destruct st.
  - destruct v; auto. destruct (assoc k fields); auto.
  - destruct v; auto. destruct (nth_error items i); auto.
Qed.

Lemma assoc_update_same k f fields :
  assoc k (assoc_update k f fields) = option_map f (assoc k fields).
Proof.
  induction fields as [|[k' v] fields IH]; [reflexivity|].
  cbn [assoc_update assoc]. destruct (String.eqb k k') eqn:E; cbn [assoc];
    rewrite E; auto.
Qed.

Lemma assoc_update_other k k' f fields :
  k' <> k -> assoc k' (assoc_update k f fields) = assoc k' fields.
Proof.
  intros Hne. induction fields as [|[k0 v] fields IH]; [reflexivity|].
  cbn [assoc_update assoc]. destruct (String.eqb_spec k k0) as [->|]; cbn [assoc].
  - destruct (String.eqb_spec k' k0); [contradiction|reflexivity].
  - destruct (String.eqb k' k0); auto.
Qed.

Lemma list_update_same i f items :
  nth_error (list_update i f items) i = option_map f (nth_error items i).
Proof.
  revert i. induction items as [|x items IH]; intros [|i]; cbn; auto.
Qed.

Lemma list_update_other i j f items :
  j <> i -> nth_error (list_update i f items) j = nth_error items j.
Proof.
  revert i j. induction items as [|x items IH]; intros [|i] [|j] Hne; cbn; auto.
  contradiction.
Qed.

Lemma assoc_set_same k v fields : assoc k (assoc_set k v fields) = Some v.
Proof.
  induction fields as [|[k' v'] fields IH]; cbn.
  - now rewrite String.eqb_refl.
  - destruct (String.eqb k k') eqn:E; cbn; now rewrite E.
Qed.

(** Writing the identifier of the element at [p] shows at its place and
    nowhere else. *)
Lemma get_set_id_same p new_id :
  forall v old,
  get_at v (id_place p) = Some old ->
  get_at (update_at p (set_atId new_id) v) (id_place p) = Some (JStr new_id).
Proof.
  unfold id_place. induction p as [|st p IH]; intros v old H.
  - cbn in H. destruct v; try discriminate. cbn.
    now rewrite assoc_set_same.
  - cbn [app get_at update_at] in *. destruct st.
    + destruct v; try discriminate.
      destruct (assoc k fields) as [v1|] eqn:E; [|discriminate].
      cbn [get_at]. rewrite assoc_update_same, E. cbn. eauto.
    + destruct v; try discriminate.
      destruct (nth_error items i) as [v1|] eqn:E; [|discriminate].
      cbn [get_at]. rewrite list_update_same, E. cbn. eauto.
Qed.

Lemma get_set_id_other p new_id :
  forall v old q s,
  get_at v (id_place p) = Some (JStr old) ->
  get_at v q = Some (JStr s) ->
  q <> id_place p ->
  get_at (update_at p (set_atId new_id) v) q = Some (JStr s).
Proof.
  unfold id_place. induction p as [|st p IH]; intros v old q s H Hq Hne.
  - cbn in H. destruct v; try discriminate. cbn [update_at set_atId].
    destruct q as [|[k|i] q]; cbn [get_at] in *; try discriminate.
    destruct (String.eqb_spec k "@id") as [->|Hk].
    + exfalso. destruct (assoc "@id" fields) as [v1|]; [|discriminate].
      injection H as ->. destruct q as [|[k'|i'] q]; cbn in Hq; try discriminate.
      now apply Hne.
    + now rewrite assoc_set_other.
  - cbn [app get_at update_at] in *. destruct st.
    + destruct v; try discriminate.
      destruct (assoc k fields) as [v1|] eqn:E; [|discriminate].
      destruct q as [|[k'|i'] q]; cbn [get_at] in *; try discriminate.
      destruct (String.eqb_spec k' k) as [->|Hk].
      * rewrite assoc_update_same. rewrite E in Hq |- *. cbn.
        eapply IH; eauto. congruence.
      * now rewrite assoc_update_other.
    + destruct v; try discriminate.
      destruct (nth_error items i) as [v1|] eqn:E; [|discriminate].
      destruct q as [|[k'|i'] q]; cbn [get_at] in *; try discriminate.
      destruct (Nat.eq_dec i' i) as [->|Hi].
      * rewrite list_update_same. rewrite E in Hq |- *. cbn.
        eapply IH; eauto. congruence.
      * now rewrite list_update_other.
Qed.

(** What [sub_id] does to the value under a key and to an item of a list. *)
Definition walk_field (target replacement k : string) (v : json) : json :=
  if negb (String.eqb k "@id") && eq_str v target then JStr replacement
  else sub_id_walk target replacement v.

Definition walk_item (target replacement : string) (v : json) : json :=
  if eq_str v target then JStr replacement else sub_id_walk target replacement v.

Lemma sub_id_walk_obj target replacement fields :
  sub_id_walk target replacement (JObj fields)
  = JObj (map (fun kv => (fst kv, walk_field target replacement (fst kv) (snd kv))) fields).
Proof.
  cbn [sub_id_walk]. f_equal. apply map_ext. intros [k v]. unfold walk_field. cbn.
  now destruct (negb (String.eqb k "@id") && eq_str v target).
Qed.

Lemma sub_id_walk_arr target replacement items :
  sub_id_walk target replacement (JArr items)
  = JArr (map (walk_item target replacement) items).
Proof. reflexivity. Qed.

Lemma assoc_map_fields (g : string -> json -> json) k fields :
  assoc k (map (fun kv => (fst kv, g (fst kv) (snd kv))) fields)
  = option_map (g k) (assoc k fields).
Proof.
  induction fields as [|[k' v] fields IH]; [reflexivity|].
  cbn. destruct (String.eqb_spec k k') as [->|]; auto.
Qed.

Lemma get_at_scalar v q x :
  get_at v q = Some x -> q <> [] ->
  match v with JObj _ | JArr _ => True | _ => False end.
Proof.
  destruct q as [|[k|i] q]; [congruence|..]; destruct v; cbn; try discriminate; auto.
Qed.

Lemma eq_str_container v q x target :
  get_at v q = Some x -> q <> [] -> eq_str v target = false.
Proof.
  intros H Hq. apply get_at_scalar in H; auto. now destruct v.
Qed.

(** A string in the document after [sub_id]: unchanged under an ["@id"] key,
    replaced elsewhere when it is the target. *)
Lemma get_sub_id_walk target replacement :
  forall q v s,
  q <> [] ->
  get_at v q = Some (JStr s) ->
  get_at (sub_id_walk target replacement v) q
  = Some (JStr (if ends_at_id q then s
                else if String.eqb s target then replacement else s)).
Proof.
  induction q as [|st q IH]; intros v s Hne H; [congruence|].
  destruct q as [|st' q'].
  - (* the last step *)
    destruct st as [k|i]; destruct v; try discriminate; cbn [get_at] in H.
    + rewrite sub_id_walk_obj. cbn [get_at]. rewrite assoc_map_fields.
      destruct (assoc k fields) as [v1|]; [|discriminate].
      injection H as ->. cbn [option_map ends_at_id]. unfold walk_field. cbn.
      destruct (String.eqb k "@id"); cbn; auto.
      destruct (String.eqb s target); auto.
    + rewrite sub_id_walk_arr. cbn [get_at]. rewrite nth_error_map.
      destruct (nth_error items i) as [v1|]; [|discriminate].
      injection H as ->. cbn. unfold walk_item. cbn.
      destruct (String.eqb s target); auto.
  - (* an inner step *)
    assert (ends_at_id (st :: st' :: q') = ends_at_id (st' :: q')) as ->
      by (destruct st; reflexivity).
    destruct st as [k|i]; destruct v; try discriminate; cbn [get_at] in H.
    + rewrite sub_id_walk_obj. cbn [get_at]. rewrite assoc_map_fields.
      destruct (assoc k fields) as [v1|]; [|discriminate].
      cbn [option_map]. unfold walk_field.
      rewrite (eq_str_container v1 (st' :: q') _ target H) by discriminate.
      rewrite andb_false_r. apply IH; [discriminate|exact H].
    + rewrite sub_id_walk_arr. cbn [get_at]. rewrite nth_error_map.
      destruct (nth_error items i) as [v1|]; [|discriminate].
      cbn [option_map]. unfold walk_item.
      rewrite (eq_str_container v1 (st' :: q') _ target H) by discriminate.
      apply IH; [discriminate|exact H].
Qed.

Lemma collect_ids_scalar v x :
  In x (collect_ids v) -> match v with JObj _ | JArr _ => True | _ => False end.
Proof. destruct v; cbn; auto. Qed.

(** [sub_id] keeps every identifier. *)
Lemma collect_sub_id_walk target replacement s v :
  In (JStr s) (collect_ids v) ->
  In (JStr s) (collect_ids (sub_id_walk target replacement v)).
Proof.
  induction v as [| | | |items IH|fields IH] using json_induction; auto.
  - rewrite sub_id_walk_arr. cbn [collect_ids]. rewrite !in_flat_map.
    intros (x & Hx & Hs). rewrite Forall_forall in IH.
    exists (walk_item target replacement x). split; [now apply in_map|].
    unfold walk_item.
    assert (eq_str x target = false) as ->
      by (apply collect_ids_scalar in Hs; now destruct x).
    now apply IH.
  - rewrite sub_id_walk_obj. cbn [collect_ids]. rewrite !in_flat_map.
    intros ([k x] & Hx & Hs). rewrite Forall_forall in IH.
    exists (k, walk_field target replacement k x). split.
    + apply in_map_iff. exists (k, x). auto.
    + apply in_app_iff in Hs as [Hs|Hs]; apply in_app_iff.
      * left. destruct (String.eqb k "@id") eqn:E; [|destruct Hs].
        destruct Hs as [->|[]]. unfold walk_field. rewrite E. cbn. now left.
      * right. unfold walk_field.
        assert (eq_str x target = false) as ->
          by (apply collect_ids_scalar in Hs; now destruct x).
        rewrite andb_false_r. apply (IH (k, x) Hx Hs).
Qed.

Lemma assoc_In k fields v : assoc k fields = Some v -> In (k, v) fields.
Proof.
  induction fields as [|[k' v'] fields IH]; cbn; [discriminate|].
  destruct (String.eqb_spec k k') as [->|]; [intros [= ->]; now left|auto].
Qed.

(** The identifier found at a place is one of the identifiers of the
    document. *)
Lemma get_id_collected p :
  forall v x, get_at v (id_place p) = Some x -> In x (collect_ids v).
Proof.
  unfold id_place. induction p as [|st p IH]; intros v x H.
  - cbn in H. destruct v; try discriminate.
    destruct (assoc "@id" fields) as [v1|] eqn:E; [|discriminate].
    injection H as ->. cbn [collect_ids]. apply in_flat_map.
    exists ("@id", x). split; [now apply assoc_In|]. cbn. now left.
  - cbn [app get_at] in H. destruct st; destruct v; try discriminate.
    + destruct (assoc k fields) as [v1|] eqn:E; [|discriminate].
      cbn [collect_ids]. apply in_flat_map.
      exists (k, v1). split; [now apply assoc_In|].
      apply in_app_iff. right. now apply IH.
    + destruct (nth_error items i) as [v1|] eqn:E; [|discriminate].
      cbn [collect_ids]. apply in_flat_map.
      exists v1. split; [eapply nth_error_In; eauto|now apply IH].
Qed.

Definition collect_fields (fields : list (string * json)) : list json :=
  flat_map (fun kv : string * json =>
              let (k, v) := kv in
              (if String.eqb k "@id" then [v] else []) ++ collect_ids v) fields.

Lemma collect_assoc_update k f fields v1 s :
  assoc k fields = Some v1 ->
  (In (JStr s) ((if String.eqb k "@id" then [v1] else []) ++ collect_ids v1) ->
   In (JStr s) ((if String.eqb k "@id" then [f v1] else []) ++ collect_ids (f v1))) ->
  In (JStr s) (collect_fields fields) ->
  In (JStr s) (collect_fields (assoc_update k f fields)).
Proof.
  intros Hk Hf. induction fields as [|[k' v'] fields IH]; [easy|].
  cbn [assoc] in Hk. cbn [assoc_update collect_fields flat_map].
  destruct (String.eqb_spec k k') as [<-|Hne].
  - injection Hk as ->. cbn [collect_fields flat_map]. rewrite !in_app_iff.
    rewrite <- !in_app_iff. intros H. apply in_app_iff in H as [H|H].
    + apply in_app_iff. left. auto.
    + apply in_app_iff. now right.
  - cbn [collect_fields flat_map]. intros H. apply in_app_iff in H as [H|H].
    + apply in_app_iff. now left.
    + apply in_app_iff. right. now apply IH.
Qed.

Lemma collect_list_update i f items v1 s :
  nth_error items i = Some v1 ->
  (In (JStr s) (collect_ids v1) -> In (JStr s) (collect_ids (f v1))) ->
  In (JStr s) (flat_map collect_ids items) ->
  In (JStr s) (flat_map collect_ids (list_update i f items)).
Proof.
  intros Hi Hf. revert i Hi. induction items as [|x items IH]; intros [|i] Hi;
    try discriminate; cbn [list_update flat_map nth_error] in *.
  - injection Hi as ->. intros H. apply in_app_iff in H as [H|H];
      apply in_app_iff; auto.
  - intros H. apply in_app_iff in H as [H|H]; apply in_app_iff; auto.
Qed.

(** Writing the identifier of an element removes at most the identifier it
    had. *)
Lemma collect_set_id new_id s p :
  forall v old,
  get_at v (id_place p) = Some (JStr old) ->
  In (JStr s) (collect_ids v) ->
  s <> old ->
  In (JStr s) (collect_ids (update_at p (set_atId new_id) v)).
Proof.
  unfold id_place. induction p as [|st p IH]; intros v old H Hin Hne.
  - cbn in H. destruct v; try discriminate. cbn [update_at set_atId collect_ids] in *.
    fold (collect_fields fields) in Hin.
    fold (collect_fields (assoc_set "@id" (JStr new_id) fields)).
    induction fields as [|[k' v'] fields IH]; [easy|].
    cbn [assoc assoc_set collect_fields flat_map] in *.
    destruct (String.eqb_spec "@id" k') as [<-|Hk].
    + injection H as ->. cbn [collect_fields flat_map String.eqb Ascii.eqb Bool.eqb] in *.
      cbn in Hin. cbn. destruct Hin as [Hin|Hin]; [congruence|now right].
    + cbn [collect_fields flat_map]. apply in_app_iff in Hin as [Hin|Hin];
        apply in_app_iff; [now left|right]. now apply IH.
  - cbn [app get_at update_at] in *. destruct st; destruct v; try discriminate.
    + destruct (assoc k fields) as [v1|] eqn:E; [|discriminate].
      cbn [collect_ids] in *. fold (collect_fields fields) in Hin.
      fold (collect_fields (assoc_update k (update_at p (set_atId new_id)) fields)).
      apply (collect_assoc_update k _ fields v1 s E); auto.
      intros Hs. apply in_app_iff in Hs as [Hs|Hs]; apply in_app_iff.
      * exfalso. destruct (String.eqb k "@id"); [|destruct Hs].
        destruct Hs as [->|[]].
        rewrite get_at_app in H. cbn in H.
        destruct p as [|[k0|i0] p]; cbn in H; discriminate.
      * right. eapply IH; eauto.
    + destruct (nth_error items i) as [v1|] eqn:E; [|discriminate].
      cbn [collect_ids] in *.
      apply (collect_list_update i _ items v1 s E); auto.
      intros Hs. eapply IH; eauto.
Qed.

Section Renumber.

Variable uuid4 : nat -> string.
Variables (use_uuids : bool) (draws : nat).

(** The identifier the pass gives to the element it numbers [counter]. *)
Definition fresh_id (t : ke_type) (counter : nat) (name : string) : string :=
  if use_uuids then uuid4 (draws + counter)%nat else canonical_id t counter name.

(** One turn of the loop, spelled out. *)
Lemma fix_one_Ok t lib counter p lib' counter' :
  fix_one uuid4 use_uuids draws t (lib, counter) p = Ok (lib', counter') ->
  exists x name old,
    get_at lib p = Some x
    /\ name_of t x = Ok name
    /\ get_at lib (id_place p) = Some (JStr old)
    /\ counter' = S counter
    /\ match update_at p (set_atId (fresh_id t counter name)) lib with
       | JObj _ | JArr _ => True
       | _ => False
       end
    /\ lib' = sub_id_walk old (fresh_id t counter name)
                (update_at p (set_atId (fresh_id t counter name)) lib).
Proof.
  unfold fix_one. intros H.
  destruct (get_at lib p) as [x|] eqn:Hx; [|discriminate].
  apply bind_Ok in H as (name & Hname & H).
  apply bind_Ok in H as (old & Hold & H).
  apply bind_Ok in H as (old_atId & Hstr & H).
  apply bind_Ok in H as (lib2 & Hsub & H). injection H as <- <-.
  destruct old; try discriminate. injection Hstr as ->.
  exists x, name, old_atId. fold (fresh_id t counter name) in *.
  repeat split; auto.
  - unfold id_place. rewrite get_at_app, Hx. cbn.
    destruct x; try discriminate. cbn in Hold.
    destruct (assoc "@id" fields); [|discriminate]. congruence.
  - unfold sub_id in Hsub. destruct (update_at _ _ _); try discriminate; auto.
  - unfold sub_id in Hsub. destruct (update_at _ _ _); try discriminate;
      now injection Hsub as <-.
Qed.

(** A reference that resolves keeps resolving through one turn. *)
Definition resolves (q : path) (lib : json) : Prop :=
  exists s, get_at lib q = Some (JStr s) /\ In (JStr s) (collect_ids lib).

Lemma fix_one_resolves t q st p st' :
  ends_at_id q = false ->
  fix_one uuid4 use_uuids draws t st p = Ok st' ->
  resolves q (fst st) -> resolves q (fst st').
Proof.
  intros Hq H (s & Hget & Hin). destruct st as [lib c], st' as [lib' c'].
  apply fix_one_Ok in H as (x & name & old & Hx & _ & Hold & _ & Hcont & ->).
  cbn [fst] in *. set (new := fresh_id t c name) in *.
  assert (q <> id_place p) as Hne
    by (intros ->; rewrite ends_at_id_id_place in Hq; discriminate).
  pose proof (get_set_id_other p new lib old q s Hold Hget Hne) as Hget1.
  assert (q <> []) as Hnil.
  { intros ->. cbn in Hget1. injection Hget1 as E. rewrite E in Hcont. exact Hcont. }
  pose proof (get_sub_id_walk old new q _ s Hnil Hget1) as Hget2.
  rewrite Hq in Hget2.
  destruct (String.eqb_spec s old) as [->|Hs].
  - exists new. split; [exact Hget2|].
    apply collect_sub_id_walk. apply (get_id_collected p).
    eapply get_set_id_same; eauto.
  - exists s. split; [exact Hget2|].
    apply collect_sub_id_walk. eapply collect_set_id; eauto.
Qed.

Lemma fix_for_ke_type_resolves t q places st st' :
  ends_at_id q = false ->
  fix_for_ke_type uuid4 use_uuids draws t places st = Ok st' ->
  resolves q (fst st) -> resolves q (fst st').
Proof.
  intros Hq H Hres. unfold fix_for_ke_type in H. revert H.
  apply (foldM_invariant (fun st => resolves q (fst st))); auto.
  intros s a s' _ Hs Hstep. eapply fix_one_resolves; eauto.
Qed.

(** Renumbering keeps every reference that resolves resolved. *)
Lemma fix_atIds_resolves q lib lib' n :
  ends_at_id q = false ->
  fix_atIds uuid4 use_uuids draws lib = Ok (lib', n) ->
  resolves q lib -> resolves q lib'.
Proof.
  intros Hq H Hres. unfold fix_atIds in H.
  apply bind_Ok in H as (ps1 & _ & H).
  apply bind_Ok in H as (st1 & H1 & H).
  apply bind_Ok in H as (ps2 & _ & H).
  apply bind_Ok in H as (st2 & H2 & H).
  apply bind_Ok in H as (ps3 & _ & H).
  apply bind_Ok in H as (st3 & H3 & H).
  apply bind_Ok in H as (ps4 & _ & H).
  apply bind_Ok in H as (st4 & H4 & H).
  apply bind_Ok in H as (eps & _ & H).
  apply bind_Ok in H as (pss & _ & H5).
  change lib' with (fst (lib', n)).
  eapply fix_for_ke_type_resolves; [exact Hq|exact H5|].
  eapply fix_for_ke_type_resolves; [exact Hq|exact H4|].
  eapply fix_for_ke_type_resolves; [exact Hq|exact H3|].
  eapply fix_for_ke_type_resolves; [exact Hq|exact H2|].
  eapply fix_for_ke_type_resolves; [exact Hq|exact H1|].
  exact Hres.
Qed.

End Renumber.

(** *** The shape of a document *)

(** The document with its strings blanked: what the walk over the elements
    depends on. *)
Fixpoint skeleton (v : json) : json :=
  match v with
  | JStr _ => JStr ""
  | JArr items => JArr (map skeleton items)
  | JObj fields => JObj (map (fun kv : string * json => (fst kv, skeleton (snd kv))) fields)
  | _ => v
  end.

Lemma skeleton_sub_id_walk target replacement v :
  skeleton (sub_id_walk target replacement v) = skeleton v.
Proof.
  induction v as [| | | |items IH|fields IH] using json_induction; auto.
  - rewrite sub_id_walk_arr. cbn [skeleton]. f_equal. rewrite map_map.
    apply map_ext_in. intros x Hx. rewrite Forall_forall in IH.
    unfold walk_item. destruct (eq_str x target) eqn:E; [|now apply IH].
    destruct x; try discriminate. reflexivity.
  - rewrite sub_id_walk_obj. cbn [skeleton]. f_equal. rewrite map_map.
    apply map_ext_in. intros [k x] Hx. rewrite Forall_forall in IH.
    cbn [fst snd]. f_equal. unfold walk_field.
    destruct (negb (String.eqb k "@id") && eq_str x target) eqn:E;
      [|apply (IH (k, x) Hx)].
    apply andb_true_iff in E as [_ E]. destruct x; try discriminate. reflexivity.
Qed.

Lemma skeleton_set_id new_id p :
  forall v old,
  get_at v (id_place p) = Some (JStr old) ->
  skeleton (update_at p (set_atId new_id) v) = skeleton v.
Proof.
  unfold id_place. induction p as [|st p IH]; intros v old H.
  - cbn in H. destruct v; try discriminate. cbn [update_at set_atId skeleton].
    f_equal. induction fields as [|[k' v'] fields IHf]; [discriminate|].
    cbn [assoc assoc_set] in *. destruct (String.eqb "@id" k').
    + injection H as ->. reflexivity.
    + cbn [map]. f_equal. now apply IHf.
  - cbn [app get_at update_at] in *. destruct st; destruct v; try discriminate.
    + cbn [skeleton]. f_equal.
      induction fields as [|[k' v'] fields IHf]; [reflexivity|].
      cbn [assoc assoc_update] in *. destruct (String.eqb k k').
      * cbn [map fst snd]. do 2 f_equal. eapply IH; eauto.
      * cbn [map]. f_equal. now apply IHf.
    + cbn [skeleton]. f_equal. revert i H.
      induction items as [|x items IHi]; intros [|i] H; cbn in *; try discriminate.
      * f_equal. eapply IH; eauto.
      * f_equal. now apply IHi.
Qed.

Lemma get_at_skeleton p :
  forall v, get_at (skeleton v) p = option_map skeleton (get_at v p).
Proof.
  induction p as [|st p IH]; intros v; [reflexivity|].
  destruct st; destruct v; try reflexivity; cbn [skeleton get_at].
  - rewrite (assoc_map_fields (fun _ => skeleton)).
    destruct (assoc k fields); cbn; auto.
  - rewrite nth_error_map. destruct (nth_error items i); cbn; auto.
Qed.

(** *** The elements the pass renumbers *)

Definition required_pl (lib : json) (key : string) : list path :=
  match lib with
  | JObj fields => match assoc key fields with
                   | Some v => places_of [Key key] v
                   | None => []
                   end
  | _ => []
  end.

Definition participant_pl (lib : json) (p : path) : list path :=
  match get_at lib p with
  | Some (JObj fields) =>
      match assoc "participants" fields with
      | Some (JArr items) =>
          map (fun i => p ++ [Key "participants"; Idx i]) (seq 0 (length items))
      | _ => []
      end
  | _ => []
  end.

(** The places of the entities, events, relations, instances and
    participants of a document, in the order of the pass. *)
Definition element_places (lib : json) : list path :=
  required_pl lib "entities" ++ required_pl lib "events"
  ++ required_pl lib "relations" ++ required_pl lib "instances"
  ++ flat_map (participant_pl lib) (required_pl lib "events").

Lemma places_of_skeleton p v : places_of p (skeleton v) = places_of p v.
Proof. destruct v; try reflexivity. cbn. now rewrite length_map. Qed.

Lemma required_pl_skeleton lib key :
  required_pl (skeleton lib) key = required_pl lib key.
Proof.
  destruct lib; try reflexivity. cbn [skeleton required_pl].
  rewrite (assoc_map_fields (fun _ => skeleton)).
  destruct (assoc key fields); cbn; auto. apply places_of_skeleton.
Qed.

Lemma participant_pl_skeleton lib p :
  participant_pl (skeleton lib) p = participant_pl lib p.
Proof.
  unfold participant_pl. rewrite get_at_skeleton.
  destruct (get_at lib p) as [[| | | | |fields]|]; try reflexivity.
  cbn [option_map skeleton]. rewrite (assoc_map_fields (fun _ => skeleton)).
  destruct (assoc "participants" fields) as [[| | | |items|]|]; try reflexivity.
  cbn. now rewrite length_map.
Qed.

Lemma required_pl_shape a b key :
  skeleton a = skeleton b -> required_pl a key = required_pl b key.
Proof.
  intros E. now rewrite <- (required_pl_skeleton a), <- (required_pl_skeleton b), E.
Qed.

Lemma participant_pl_shape a b p :
  skeleton a = skeleton b -> participant_pl a p = participant_pl b p.
Proof.
  intros E. now rewrite <- (participant_pl_skeleton a), <- (participant_pl_skeleton b), E.
Qed.

Lemma required_places_pl lib key ps :
  required_places lib key = Ok ps -> ps = required_pl lib key.
Proof.
  unfold required_places, required_pl, getitem. destruct lib; try discriminate.
  destruct (assoc key fields); [|discriminate]. now intros [= <-].
Qed.

Lemma optional_places_pl lib key ps :
  optional_places lib key = Ok ps -> ps = required_pl lib key.
Proof.
  unfold optional_places, required_pl, get. destruct lib; try discriminate.
  destruct (assoc key fields); now intros [= <-].
Qed.

Lemma participant_places_pl lib eps pss :
  mapM (participant_places lib) eps = Ok pss ->
  concat pss = flat_map (participant_pl lib) eps.
Proof.
  revert pss. induction eps as [|ep eps IH]; intros pss H.
  - now injection H as <-.
  - cbn [mapM] in H. apply bind_Ok in H as (ps & Hps & H).
    apply bind_Ok in H as (rest & Hrest & H). injection H as <-.
    cbn [concat flat_map]. f_equal; [|now apply IH].
    unfold participant_places, participant_pl in *.
    destruct (get_at lib ep) as [[| | | | |fields]|]; try discriminate.
    destruct (assoc "participants" fields) as [[| |?|[|? ?]|?|[|? ?]]|];
      try discriminate; now injection Hps as <-.
Qed.

Lemma id_place_inj p q : id_place p = id_place q -> p = q.
Proof. unfold id_place. intros H. now apply app_inj_tail in H. Qed.

Section Run.

Variable uuid4 : nat -> string.
Variables (use_uuids : bool) (draws : nat).

Let fresh := fresh_id uuid4 use_uuids draws.

Lemma fix_one_shape t st p st' :
  fix_one uuid4 use_uuids draws t st p = Ok st' ->
  skeleton (fst st') = skeleton (fst st) /\ snd st' = S (snd st).
Proof.
  destruct st as [lib c], st' as [lib' c']. intros H.
  apply fix_one_Ok in H as (x & name & old & _ & _ & Hold & -> & _ & ->).
  cbn [fst snd]. split; [|reflexivity].
  rewrite skeleton_sub_id_walk. eapply skeleton_set_id; eauto.
Qed.

Lemma fix_for_ke_type_shape t places st st' :
  fix_for_ke_type uuid4 use_uuids draws t places st = Ok st' ->
  skeleton (fst st') = skeleton (fst st).
Proof.
  unfold fix_for_ke_type.
  apply (foldM_invariant (fun s => skeleton (fst s) = skeleton (fst st))); auto.
  intros s a s' _ Hs Hstep. apply fix_one_shape in Hstep as [-> _]. exact Hs.
Qed.

(** The pass as one loop over the elements with their kinds. *)
Definition fix_tagged (st : json * nat) (tp : ke_type * path) : result (json * nat) :=
  fix_one uuid4 use_uuids draws (fst tp) st (snd tp).

Lemma fix_for_ke_type_tagged t places st :
  fix_for_ke_type uuid4 use_uuids draws t places st
  = foldM fix_tagged (map (pair t) places) st.
Proof.
  unfold fix_for_ke_type. revert st.
  induction places as [|p places IH]; intros st; [reflexivity|].
  cbn [map foldM]. unfold fix_tagged at 1. cbn [fst snd].
  destruct (fix_one _ _ _ _ _ _); cbn [bind]; auto.
Qed.

Lemma foldM_app {A S} (f : S -> A -> result S) l1 l2 s :
  foldM f (l1 ++ l2) s = bind (foldM f l1 s) (foldM f l2).
Proof.
  revert s. induction l1 as [|a l1 IH]; intros s; [reflexivity|].
  cbn [app foldM]. destruct (f s a); cbn [bind]; auto.
Qed.

Definition tagged_places (lib : json) : list (ke_type * path) :=
  map (pair Entities) (required_pl lib "entities")
  ++ map (pair Events) (required_pl lib "events")
  ++ map (pair Relations) (required_pl lib "relations")
  ++ map (pair Instances) (required_pl lib "instances")
  ++ map (pair Participants)
       (flat_map (participant_pl lib) (required_pl lib "events")).

Lemma tagged_places_places lib : map snd (tagged_places lib) = element_places lib.
Proof.
  unfold tagged_places, element_places.
  rewrite !map_app, !map_map. cbn [snd]. now rewrite !map_id.
Qed.

Lemma fix_atIds_tagged lib st :
  fix_atIds uuid4 use_uuids draws lib = Ok st ->
  foldM fix_tagged (tagged_places lib) (lib, O) = Ok st.
Proof.
  unfold fix_atIds. intros H.
  apply bind_Ok in H as (ps1 & P1 & H).
  apply bind_Ok in H as (st1 & H1 & H).
  apply bind_Ok in H as (ps2 & P2 & H).
  apply bind_Ok in H as (st2 & H2 & H).
  apply bind_Ok in H as (ps3 & P3 & H).
  apply bind_Ok in H as (st3 & H3 & H).
  apply bind_Ok in H as (ps4 & P4 & H).
  apply bind_Ok in H as (st4 & H4 & H).
  apply bind_Ok in H as (eps & P5 & H).
  apply bind_Ok in H as (pss & P6 & H5).
  pose proof (fix_for_ke_type_shape _ _ _ _ H1) as S1.
  pose proof (fix_for_ke_type_shape _ _ _ _ H2) as S2.
  pose proof (fix_for_ke_type_shape _ _ _ _ H3) as S3.
  pose proof (fix_for_ke_type_shape _ _ _ _ H4) as S4.
  cbn [fst] in S1.
  apply required_places_pl in P1, P2, P5.
  apply optional_places_pl in P3, P4.
  apply participant_places_pl in P6.
  assert (skeleton (fst st2) = skeleton lib) as S2' by congruence.
  assert (skeleton (fst st3) = skeleton lib) as S3' by congruence.
  assert (skeleton (fst st4) = skeleton lib) as S4' by congruence.
  rewrite (required_pl_shape _ lib _ S1) in P2.
  rewrite (required_pl_shape _ lib _ S2') in P3.
  rewrite (required_pl_shape _ lib _ S3') in P4.
  rewrite (required_pl_shape _ lib _ S4') in P5.
  rewrite P6 in H5. subst eps.
  rewrite (flat_map_ext _ _ (fun p => participant_pl_shape _ lib p S4')) in H5.
  subst ps1 ps2 ps3 ps4.
  unfold tagged_places.
  rewrite foldM_app, <- fix_for_ke_type_tagged, H1. cbn [bind].
  rewrite foldM_app, <- fix_for_ke_type_tagged, H2. cbn [bind].
  rewrite foldM_app, <- fix_for_ke_type_tagged, H3. cbn [bind].
  rewrite foldM_app, <- fix_for_ke_type_tagged, H4. cbn [bind].
  rewrite <- fix_for_ke_type_tagged. exact H5.
Qed.

(** After the loop every element it went through carries the identifier the
    loop gave it, numbered by its turn. *)
Lemma run_ids items :
  forall st st',
  NoDup (map snd items) ->
  foldM fix_tagged items st = Ok st' ->
  skeleton (fst st') = skeleton (fst st)
  /\ snd st' = (snd st + length items)%nat
  /\ (forall k t p, nth_error items k = Some (t, p) ->
      exists name, get_at (fst st') (id_place p)
                   = Some (JStr (fresh t (snd st + k)%nat name)))
  /\ (forall q s, ends_at_id q = true ->
      get_at (fst st) q = Some (JStr s) ->
      ~ In q (map id_place (map snd items)) ->
      get_at (fst st') q = Some (JStr s)).
Proof.
  induction items as [|[t p] items IH]; intros st st' ND H.
  - injection H as <-. repeat split; auto.
    intros [|k] t p Hk; discriminate.
  - cbn [foldM] in H. apply bind_Ok in H as (st1 & Hstep & Hrest).
    cbn [map snd] in ND. inversion ND as [|? ? Hnot ND']; subst.
    destruct (IH st1 st' ND' Hrest) as (Sk & Cn & Ids & Keep).
    pose proof (fix_one_shape _ _ _ _ Hstep) as [Sk1 Cn1].
    unfold fix_tagged in Hstep. cbn [fst snd] in Hstep, Sk1, Cn1.
    destruct st as [lib c], st1 as [lib1 c1]. cbn [fst snd] in *.
    apply fix_one_Ok in Hstep as (x & name & old & Hx & _ & Hold & _ & Hcont & ->).
    fold (fresh t c name) in *. subst c1.
    assert (forall q s, ends_at_id q = true ->
              get_at (update_at p (set_atId (fresh t c name)) lib) q = Some (JStr s) ->
              get_at (sub_id_walk old (fresh t c name)
                        (update_at p (set_atId (fresh t c name)) lib)) q
              = Some (JStr s)) as Hwalk.
    { intros q s Hq Hget.
      assert (q <> []) as Hnil by (intros ->; discriminate).
      rewrite (get_sub_id_walk old _ q _ s Hnil Hget). now rewrite Hq. }
    split; [congruence|]. split; [cbn [length]; lia|]. split.
    + intros [|k] t' p' Hk; cbn [nth_error] in Hk.
      * injection Hk as <- <-. exists name. rewrite Nat.add_0_r.
        apply Keep.
        -- apply ends_at_id_id_place.
        -- apply Hwalk; [apply ends_at_id_id_place|].
           eapply get_set_id_same; eauto.
        -- intros Hin. apply in_map_iff in Hin as (p' & E & Hp').
           apply id_place_inj in E. subst p'. contradiction.
      * destruct (Ids k t' p' Hk) as (name' & E). exists name'.
        now replace (c + S k)%nat with (S c + k)%nat by lia.
    + intros q s Hq Hget Hnotin. apply Keep; auto.
      * apply Hwalk; auto. eapply get_set_id_other; eauto.
        intros ->. apply Hnotin. now left.
      * intros Hin. apply Hnotin. now right.
Qed.

(** A string outside the [@id] keys that is the identifier of none of the
    elements the loop goes through is left as it is. *)
Lemma run_keeps items :
  forall st st' q s,
  NoDup (map snd items) ->
  foldM fix_tagged items st = Ok st' ->
  ends_at_id q = false ->
  get_at (fst st) q = Some (JStr s) ->
  (forall t p, In (t, p) items -> get_at (fst st) (id_place p) <> Some (JStr s)) ->
  get_at (fst st') q = Some (JStr s).
Proof.
  induction items as [|[t p] items IH]; intros st st' q s ND H Hq Hget Hfree.
  - now injection H as <-.
  - cbn [foldM] in H. apply bind_Ok in H as (st1 & Hstep & Hrest).
    cbn [map snd] in ND. inversion ND as [|? ? Hnot ND']; subst.
    pose proof (fix_one_shape _ _ _ _ Hstep) as [Sk1 _].
    unfold fix_tagged in Hstep. cbn [fst snd] in Hstep.
    destruct st as [lib c], st1 as [lib1 c1]. cbn [fst snd] in *.
    apply fix_one_Ok in Hstep as (x & name & old & Hx & _ & Hold & _ & Hcont & ->).
    fold (fresh t c name) in *.
    assert (s <> old) as Hs.
    { intros ->. apply (Hfree t p); [now left|exact Hold]. }
    assert (q <> id_place p) as Hne
      by (intros ->; rewrite ends_at_id_id_place in Hq; discriminate).
    pose proof (get_set_id_other p (fresh t c name) lib old q s Hold Hget Hne) as Hget1.
    assert (q <> []) as Hnil.
    { intros ->. cbn in Hget1. injection Hget1 as E. rewrite E in Hcont. exact Hcont. }
    apply (IH _ _ q s ND' Hrest Hq); cbn [fst].
    + rewrite (get_sub_id_walk old _ q _ s Hnil Hget1), Hq.
      destruct (String.eqb_spec s old); [contradiction|reflexivity].
    + intros t' p' Hin' Hat.
      assert (exists o, get_at lib (id_place p') = Some (JStr o)) as (o & Ho).
      { pose proof (get_at_skeleton (id_place p') lib) as G.
        rewrite <- Sk1, get_at_skeleton, Hat in G. cbn in G.
        destruct (get_at lib (id_place p')) as [[]|]; try discriminate. eauto. }
      assert (id_place p' <> id_place p) as Hp'.
      { intros E. apply id_place_inj in E. subst p'. apply Hnot.
        apply in_map_iff. exists (t', p). auto. }
      pose proof (get_set_id_other p (fresh t c name) lib old _ o Hold Ho Hp') as G1.
      assert (id_place p' <> []) as Hnil' by (unfold id_place; now destruct p').
      rewrite (get_sub_id_walk old _ _ _ o Hnil' G1), ends_at_id_id_place in Hat.
      injection Hat as ->. apply (Hfree t' p'); [now right|exact Ho].
Qed.

End Run.

(** *** The places are distinct *)

Lemma places_of_NoDup p v : NoDup (places_of p v).
Proof.
  destruct v; try (repeat constructor; intros []).
  cbn [places_of]. apply NoDup_map_NoDup_ForallPairs; [|apply seq_NoDup].
  intros i j _ _ E. apply app_inv_head in E. now injection E.
Qed.

Lemma places_of_form p v q :
  In q (places_of p v) -> q = p \/ exists i, q = p ++ [Idx i].
Proof.
  destruct v; cbn [places_of In]; try (intros [<-|[]]; now left).
  intros H. apply in_map_iff in H as (i & <- & _). eauto.
Qed.

Lemma required_pl_NoDup lib key : NoDup (required_pl lib key).
Proof.
  unfold required_pl. destruct lib; try constructor.
  destruct (assoc key fields); [apply places_of_NoDup|constructor].
Qed.

Lemma required_pl_form lib key q :
  In q (required_pl lib key) -> q = [Key key] \/ exists i, q = [Key key; Idx i].
Proof.
  unfold required_pl. destruct lib; try easy.
  destruct (assoc key fields); [|easy]. apply places_of_form.
Qed.

Lemma participant_pl_form lib ep q :
  In q (participant_pl lib ep) -> exists j, q = ep ++ [Key "participants"; Idx j].
Proof.
  unfold participant_pl.
  destruct (get_at lib ep) as [[| | | | |fields]|]; try easy.
  destruct (assoc "participants" fields) as [[| | | |items|]|]; try easy.
  intros H. apply in_map_iff in H as (j & <- & _). eauto.
Qed.

Lemma participant_pl_NoDup lib ep : NoDup (participant_pl lib ep).
Proof.
  unfold participant_pl.
  destruct (get_at lib ep) as [[| | | | |fields]|]; try constructor.
  destruct (assoc "participants" fields) as [[| | | |items|]|]; try constructor.
  apply NoDup_map_NoDup_ForallPairs; [|apply seq_NoDup].
  intros i j _ _ E. apply app_inv_head in E. now injection E.
Qed.

Lemma NoDup_flat_map {A B} (f : A -> list B) l :
  NoDup l -> (forall x, NoDup (f x)) ->
  (forall x y q, In x l -> In y l -> In q (f x) -> In q (f y) -> x = y) ->
  NoDup (flat_map f l).
Proof.
  induction l as [|a l IH]; intros ND Hf Hdisj; [constructor|].
  inversion ND as [|? ? Hnot ND']; subst. cbn [flat_map].
  apply NoDup_app; auto.
  - apply IH; auto. intros x y q Hx Hy. apply Hdisj; now right.
  - intros q Hq Hq'. apply in_flat_map in Hq' as (y & Hy & Hqy).
    assert (a = y) by (apply (Hdisj a y q); auto; [now left|now right]).
    subst. contradiction.
Qed.

Definition head_key (q : path) : string :=
  match q with
  | Key k :: _ => k
  | _ => ""
  end.

Lemma required_pl_head lib key q :
  In q (required_pl lib key) -> head_key q = key /\ (length q <= 2)%nat.
Proof.
  intros H. apply required_pl_form in H as [->|(i & ->)]; cbn; auto.
Qed.

Lemma participants_head lib q :
  In q (flat_map (participant_pl lib) (required_pl lib "events")) ->
  head_key q = "events" /\ (3 <= length q)%nat.
Proof.
  intros H. apply in_flat_map in H as (ep & Hep & Hq).
  apply participant_pl_form in Hq as (j & ->).
  apply required_pl_form in Hep as [->|(i & ->)]; cbn; auto.
Qed.

Lemma element_places_NoDup lib : NoDup (element_places lib).
Proof.
  unfold element_places.
  assert (NoDup (flat_map (participant_pl lib) (required_pl lib "events"))) as NP.
  { apply NoDup_flat_map.
    - apply required_pl_NoDup.
    - apply participant_pl_NoDup.
    - intros x y q _ _ Hx Hy.
      apply participant_pl_form in Hx as (j & ->).
      apply participant_pl_form in Hy as (j' & E).
      change [Key "participants"; Idx j] with ([Key "participants"] ++ [Idx j]) in E.
      change [Key "participants"; Idx j'] with ([Key "participants"] ++ [Idx j']) in E.
      rewrite !app_assoc in E. apply app_inj_tail in E as [E _].
      now apply app_inj_tail in E as [E _]. }
  repeat apply NoDup_app; try apply required_pl_NoDup; try exact NP.
  - intros q Hq Hq'. apply required_pl_head in Hq as [Hk _].
    apply participants_head in Hq' as [Hk' _]. rewrite Hk in Hk'. discriminate.
  - intros q Hq Hq'. apply required_pl_head in Hq as [Hk _].
    apply in_app_iff in Hq' as [Hq'|Hq'].
    + apply required_pl_head in Hq' as [Hk' _]. rewrite Hk in Hk'. discriminate.
    + apply participants_head in Hq' as [Hk' _]. rewrite Hk in Hk'. discriminate.
  - intros q Hq Hq'. apply required_pl_head in Hq as [Hk Hlen].
    apply in_app_iff in Hq' as [Hq'|Hq'];
      [|apply in_app_iff in Hq' as [Hq'|Hq']].
    + apply required_pl_head in Hq' as [Hk' _]. rewrite Hk in Hk'. discriminate.
    + apply required_pl_head in Hq' as [Hk' _]. rewrite Hk in Hk'. discriminate.
    + apply participants_head in Hq' as [_ Hlen']. lia.
  - intros q Hq Hq'. apply required_pl_head in Hq as [Hk _].
    apply in_app_iff in Hq' as [Hq'|Hq'];
      [|apply in_app_iff in Hq' as [Hq'|Hq'];
        [|apply in_app_iff in Hq' as [Hq'|Hq']]].
    + apply required_pl_head in Hq' as [Hk' _]. rewrite Hk in Hk'. discriminate.
    + apply required_pl_head in Hq' as [Hk' _]. rewrite Hk in Hk'. discriminate.
    + apply required_pl_head in Hq' as [Hk' _]. rewrite Hk in Hk'. discriminate.
    + apply participants_head in Hq' as [Hk' _]. rewrite Hk in Hk'. discriminate.
Qed.

(** *** Canonical identifiers are numbered apart *)

Fixpoint no_slash (s : string) : bool :=
  match s with
  | EmptyString => true
  | String c rest => negb (Ascii.eqb c "/") && no_slash rest
  end.

Lemma no_slash_app a b : no_slash (a ++ b) = no_slash a && no_slash b.
Proof.
  induction a as [|c a IH]; [reflexivity|]. cbn. rewrite IH. apply andb_assoc.
Qed.

Lemma no_slash_zeros k : no_slash (zeros k) = true.
Proof. induction k; auto. Qed.

Lemma no_slash_uint d : no_slash (NilEmpty.string_of_uint d) = true.
Proof. induction d; auto. Qed.

Lemma no_slash_pad5 n : no_slash (pad5 n) = true.
Proof.
  unfold pad5, decimal. now rewrite no_slash_app, no_slash_zeros, no_slash_uint.
Qed.

Lemma slash_splits a :
  forall b x y,
  no_slash a = true -> no_slash b = true ->
  (a ++ String "/" x = b ++ String "/" y)%string -> a = b.
Proof.
  induction a as [|c a IH]; intros [|c' b] x y Ha Hb E; cbn in *; auto.
  - injection E as <- _. discriminate.
  - injection E as -> _. discriminate.
  - injection E as <- E. f_equal.
    apply andb_true_iff in Ha as [_ Ha]. apply andb_true_iff in Hb as [_ Hb].
    eapply IH; eauto.
Qed.

(** The number a string of digits stands for. *)
Definition digits_value (s : string) : nat :=
  match NilEmpty.uint_of_string s with
  | Some d => Nat.of_uint d
  | None => O
  end.

Lemma digits_value_decimal n : digits_value (decimal n) = n.
Proof.
  unfold digits_value, decimal. rewrite NilEmpty.usu.
  apply DecimalNat.Unsigned.of_to.
Qed.

Lemma digits_value_zeros k s : digits_value (zeros k ++ s) = digits_value s.
Proof.
  induction k as [|k IH]; [reflexivity|].
  cbn [zeros append]. unfold digits_value in *. cbn [NilEmpty.uint_of_string].
  destruct (NilEmpty.uint_of_string (zeros k ++ s)); cbn; auto.
Qed.

Lemma pad5_inj n m : pad5 n = pad5 m -> n = m.
Proof.
  intros E. apply (f_equal digits_value) in E. unfold pad5 in E.
  now rewrite !digits_value_zeros, !digits_value_decimal in E.
Qed.

Lemma append_inv_head a x y : (a ++ x = a ++ y)%string -> x = y.
Proof. induction a as [|c a IH]; cbn; auto. intros [= E]. auto. Qed.

Lemma canonical_id_counter t t' c c' name name' :
  canonical_id t c name = canonical_id t' c' name' -> c = c'.
Proof.
  unfold canonical_id. intros E.
  assert (t = t') as <-.
  { destruct t, t'; try reflexivity; cbn [ke_name append] in E; discriminate E. }
  apply append_inv_head in E. apply append_inv_head in E.
  cbn [append] in E. injection E as E.
  apply pad5_inj. eapply slash_splits; eauto using no_slash_pad5.
Qed.

Lemma element_places_shape a b :
  skeleton a = skeleton b -> element_places a = element_places b.
Proof.
  intros E. unfold element_places.
  rewrite !(required_pl_shape a b _ E).
  now rewrite (flat_map_ext _ _ (fun p => participant_pl_shape a b p E)).
Qed.

(** C9, as the code has it.  After [fix_atIds] with sequential identifiers
    any two of the entities, events, relations, instances and participants
    of the document carry different identifiers, and every string outside the
    [@id] keys that named an identifier of the document before the pass
    names an identifier of the document after it.  An identifier that is
    not the one of such an element is left as it is, and so is a string
    outside the [@id] keys that named no identifier of the document: the
    pass does not touch a reference that resolved to nothing. *)
Theorem fix_atIds_spec (uuid4 : nat -> string) (draws : nat) (lib lib' : json)
    (n : nat) :
  fix_atIds uuid4 false draws lib = Ok (lib', n) ->
  (forall p q,
     In p (element_places lib') -> In q (element_places lib') -> p <> q ->
     exists s s',
       get_at lib' (id_place p) = Some (JStr s)
       /\ get_at lib' (id_place q) = Some (JStr s')
       /\ s <> s')
  /\ (forall q, ends_at_id q = false -> resolves q lib -> resolves q lib')
  /\ (forall q s,
        ends_at_id q = true -> get_at lib q = Some (JStr s) ->
        ~ In q (map id_place (element_places lib)) ->
        get_at lib' q = Some (JStr s))
  /\ (forall q s,
        ends_at_id q = false -> get_at lib q = Some (JStr s) ->
        ~ In (JStr s) (collect_ids lib) ->
        get_at lib' q = Some (JStr s)).
Proof.
  intros H.
  pose proof (fix_atIds_tagged _ _ _ _ _ H) as Hrun.
  pose proof (element_places_NoDup lib) as ND.
  rewrite <- tagged_places_places in ND.
  destruct (run_ids uuid4 false draws _ _ _ ND Hrun) as (Sk & _ & Ids & Keep).
  cbn [fst snd] in *.
  split; [|split; [|split]].
  - rewrite (element_places_shape lib' lib Sk), <- tagged_places_places.
    intros p q Hp Hq Hne.
    apply In_nth_error in Hp as (i & Hi). apply In_nth_error in Hq as (j & Hj).
    rewrite nth_error_map in Hi, Hj.
    destruct (nth_error (tagged_places lib) i) as [[t p0]|] eqn:Ei; [|discriminate].
    destruct (nth_error (tagged_places lib) j) as [[t' q0]|] eqn:Ej; [|discriminate].
    cbn in Hi, Hj. injection Hi as ->. injection Hj as ->.
    destruct (Ids i t p Ei) as (name & Gp). destruct (Ids j t' q Ej) as (name' & Gq).
    exists (fresh_id uuid4 false draws t i name),
           (fresh_id uuid4 false draws t' j name').
    repeat split; auto.
    unfold fresh_id. intros E. apply canonical_id_counter in E. subst j.
    rewrite Ei in Ej. congruence.
  - intros q Hq. eapply fix_atIds_resolves; eauto.
  - intros q s Hq Hget Hout. apply Keep; auto.
    now rewrite tagged_places_places.
  - intros q s Hq Hget Hnone.
    apply (run_keeps uuid4 false draws _ _ _ q s ND Hrun Hq Hget).
    intros t p _ Hat. apply Hnone. eapply get_id_collected; eauto.
Qed.

(** A document with a participant of an entity that does not exist and with
    two fillers of the same identifier. *)
Definition dangling_doc : json :=
  JObj [("@id", JStr "cmu:Schema/d");
        ("entities", JArr [JObj [("@id", JStr "cmu:Entities/e"); ("name", JStr "e")]]);
        ("events",
         JArr [JObj [("@id", JStr "cmu:Events/go"); ("name", JStr "go");
                     ("participants",
                      JArr [JObj [("@id", JStr "cmu:Participants/p");
                                  ("entity", JStr "cmu:Entities/ghost");
                                  ("roleName", JStr "A0");
                                  ("values",
                                   JArr [JObj [("@id", JStr "cmu:Values/v")];
                                         JObj [("@id", JStr "cmu:Values/v")]])]])]])].

Definition renumbered_dangling_doc : json :=
  JObj [("@id", JStr "cmu:Schema/d");
        ("entities",
         JArr [JObj [("@id", JStr "cmu:Entities/00000/e"); ("name", JStr "e")]]);
        ("events",
         JArr [JObj [("@id", JStr "cmu:Events/00001/go"); ("name", JStr "go");
                     ("participants",
                      JArr [JObj [("@id", JStr "cmu:Participants/00002/ghost");
                                  ("entity", JStr "cmu:Entities/ghost");
                                  ("roleName", JStr "A0");
                                  ("values",
                                   JArr [JObj [("@id", JStr "cmu:Values/v")];
                                         JObj [("@id", JStr "cmu:Values/v")]])]])]])].

(** The pass renumbers what it walks and repairs nothing: the reference to
    the missing entity still names no identifier, and the two fillers still
    share theirs. *)
Lemma fix_atIds_keeps_dangling_and_duplicates :
  fix_atIds (fun _ => "") false 0 dangling_doc = Ok (renumbered_dangling_doc, 3%nat)
  /\ get_at renumbered_dangling_doc
       [Key "events"; Idx 0; Key "participants"; Idx 0; Key "entity"]
     = Some (JStr "cmu:Entities/ghost")
  /\ ~ In (JStr "cmu:Entities/ghost") (collect_ids renumbered_dangling_doc)
  /\ ~ NoDup (collect_ids renumbered_dangling_doc).
Proof.
  split; [reflexivity|]. split; [reflexivity|]. split.
  - cbn. intuition discriminate.
  - cbn. intros ND.
    repeat match goal with
           | H : NoDup (_ :: _) |- _ => inversion H; clear H; subst
           end.
    cbn in *. tauto.
Qed.

Lemma fix_atIds_spec_witness :
  exists s s',
    get_at renumbered_dangling_doc (id_place [Key "entities"; Idx 0]) = Some (JStr s)
    /\ get_at renumbered_dangling_doc (id_place [Key "events"; Idx 0]) = Some (JStr s')
    /\ s <> s'.
Proof.
  refine (proj1 (fix_atIds_spec (fun _ => "") 0 dangling_doc renumbered_dangling_doc 3
                   eq_refl)
            [Key "entities"; Idx 0] [Key "events"; Idx 0] _ _ _).
  - cbn. auto.
  - cbn. auto.
  - discriminate.
Defined.

(** ** The name of the composed library *)

(** The passes over the library leave its own identifier alone. *)

Lemma for_each_in_other key body doc doc' k0 :
  for_each_in key body doc = Ok doc' -> k0 <> key ->
  getitem doc' k0 = getitem doc k0.
Proof.
  unfold for_each_in. intros H Hne. apply bind_Ok in H as (v & _ & H).
  destruct v; try (apply bind_Ok in H as (v' & _ & H));
    eapply getitem_setitem_other; eauto.
Qed.

Lemma sub_id_atId lib target replacement lib' s :
  Util.sub_id lib target replacement = Ok lib' ->
  getitem lib "@id" = Ok (JStr s) -> getitem lib' "@id" = Ok (JStr s).
Proof.
  destruct lib; try discriminate; intros E H; try discriminate.
  assert (lib' = sub_id_walk target replacement (JObj fields)) as ->
    by (unfold Util.sub_id in E; congruence).
  rewrite sub_id_walk_obj. unfold getitem in *. rewrite assoc_map_fields.
  destruct (assoc "@id" fields) as [v|]; [|discriminate].
  injection H as ->. reflexivity.
Qed.

Lemma fix_atIds_atId uuid4 use_uuids draws lib lib' n s :
  Util.fix_atIds uuid4 use_uuids draws lib = Ok (lib', n) ->
  getitem lib "@id" = Ok (JStr s) -> getitem lib' "@id" = Ok (JStr s).
Proof.
  intros H Hid.
  pose proof (fix_atIds_tagged _ _ _ _ _ H) as Hrun.
  pose proof (element_places_NoDup lib) as ND.
  rewrite <- tagged_places_places in ND.
  destruct (run_ids uuid4 use_uuids draws _ _ _ ND Hrun) as (_ & _ & _ & Keep).
  cbn [fst snd] in *.
  assert (get_at lib' [Key "@id"] = Some (JStr s)) as G.
  { apply Keep; [reflexivity| |].
    - cbn. destruct lib; try discriminate. cbn in Hid.
      destruct (assoc "@id" fields); [|discriminate]. now injection Hid as ->.
    - rewrite tagged_places_places. intros Hin.
      apply in_map_iff in Hin as (p & E & Hp).
      change [Key "@id"] with (id_place []) in E. apply id_place_inj in E. subst p.
      unfold element_places in Hp.
      repeat (apply in_app_iff in Hp as [Hp|Hp];
              [apply required_pl_head in Hp as [Hk _]; discriminate|]).
      apply participants_head in Hp as [Hk _]. discriminate. }
  cbn in G. destruct lib'; try discriminate. cbn.
  destruct (assoc "@id" fields); [|discriminate]. now injection G as ->.
Qed.

Lemma recursive_remove_atId lib to_remove lib' s :
  Util.recursive_remove lib to_remove = Ok lib' ->
  existsb (String.eqb "@id") to_remove = false ->
  getitem lib "@id" = Ok (JStr s) -> getitem lib' "@id" = Ok (JStr s).
Proof.
  destruct lib; try discriminate; intros E Hno H; try discriminate.
  assert (lib' = remove_walk to_remove (JObj fields)) as ->
    by (unfold Util.recursive_remove in E; congruence).
  clear E. cbn [remove_walk getitem] in *.
  induction fields as [|[k v] fields IH]; [discriminate|].
  cbn [assoc flat_map] in *.
  destruct (String.eqb_spec "@id" k) as [<-|Hne].
  - injection H as ->. rewrite Hno. cbn. reflexivity.
  - destruct (existsb (String.eqb k) to_remove); cbn [app assoc]; auto.
    apply String.eqb_neq in Hne. rewrite Hne. auto.
Qed.

Section LibraryName.

Variables (validate_document : json -> bool) (uuid4 : nat -> string).

Lemma inline_subschema_atId fuel draws lib i event subschema lib' draws' s :
  inline_subschema uuid4 fuel draws lib i event subschema = Ok (lib', draws') ->
  getitem lib "@id" = Ok (JStr s) -> getitem lib' "@id" = Ok (JStr s).
Proof.
  unfold inline_subschema. intros H Hid.
  apply bind_Ok in H as ([s1 n] & _ & H).
  apply bind_Ok in H as (args & _ & H).
  apply bind_Ok in H as (ps & _ & H).
  apply bind_Ok in H as ([s2 unused] & _ & H).
  apply bind_Ok in H as (s3 & _ & H).
  apply bind_Ok in H as (lib1 & H1 & H).
  apply bind_Ok in H as (lib2 & H2 & H).
  apply bind_Ok in H as (root & _ & H).
  apply bind_Ok in H as (e & _ & H).
  apply bind_Ok in H as (event_id & _ & H).
  apply bind_Ok in H as (lib3 & H3 & H).
  apply bind_Ok in H as (lib4 & H4 & H). injection H as <- <-.
  eapply sub_id_atId; [exact H4|].
  assert (getitem lib1 "@id" = Ok (JStr s)) as G1.
  { unfold del_event in H1. apply bind_Ok in H1 as (v & _ & H1).
    destruct v; try (now injection H1 as <-).
    rewrite (getitem_setitem_other _ _ _ _ "@id" H1); [auto|discriminate]. }
  assert (getitem lib2 "@id" = Ok (JStr s)) as G2
    by now rewrite (add_to_library_atId _ _ _ _ H2).
  unfold sub_id_events in H3. apply bind_Ok in H3 as (v & _ & H3).
  destruct v; try (now injection H3 as <-).
  apply bind_Ok in H3 as (v' & _ & H3).
  rewrite (getitem_setitem_other _ _ _ _ "@id" H3); [auto|discriminate].
Qed.

Lemma inject_loop_atId fuel tbl :
  forall draws lib i lib' draws' s,
  inject_loop validate_document uuid4 fuel tbl draws lib i = Ok (lib', draws') ->
  getitem lib "@id" = Ok (JStr s) -> getitem lib' "@id" = Ok (JStr s).
Proof.
  induction fuel as [|fuel IH]; intros draws lib i lib' draws' s H Hid;
    [discriminate|].
  cbn [inject_loop] in H. apply bind_Ok in H as (v & _ & H).
  destruct (nth_error (Util.ensure_list v) i) as [event|];
    [|now injection H as <- <-].
  apply bind_Ok in H as (sub & _ & H). destruct sub; [|eapply IH; eauto].
  apply bind_Ok in H as (w & _ & H). apply bind_Ok in H as (schema_id & _ & H).
  destruct (select_by_atId schema_id tbl) as [|r rows]; [eapply IH; eauto|].
  destruct (loads_sdf validate_document (data r)) as [subschema|e].
  - apply bind_Ok in H as ([lib1 d1] & Hin & H).
    eapply IH; [exact H|]. eapply inline_subschema_atId; eauto.
  - destruct e; try discriminate. eapply IH; eauto.
Qed.

Variables (encode : text -> list Byte.byte) (blake2b : list Byte.byte -> list Byte.byte).
Variables (jsonld_context : json) (sdf_version : string).
Variable get_wikidata_values : string -> result (string * string).

(** The library that [package_schemas] returns is named after the digest of
    the sorted valid rows. *)
Lemma package_schemas_name fuel name schema_ids tbl library :
  package_schemas validate_document uuid4 encode blake2b jsonld_context sdf_version
    get_wikidata_values fuel name schema_ids tbl = Ok library ->
  exists schemas sorted,
    load_valid validate_document (select_in schema_ids tbl) = Ok schemas
    /\ sort_schemas schemas = Ok sorted
    /\ getitem library "@id"
       = Ok (JStr ("cmu:Schema/" ++ name ++ "-" ++ input_digest encode blake2b sorted)).
Proof.
  unfold package_schemas. intros H.
  apply bind_Ok in H as ([lib0 d0] & H0 & H).
  apply bind_Ok in H as ([lib1 d1] & H1 & H).
  apply bind_Ok in H as ([lib2 d2] & H2 & H).
  apply bind_Ok in H as (lib3 & H3 & H).
  apply bind_Ok in H as (lib4 & H4 & H).
  apply bind_Ok in H as (lib5 & H5 & H).
  apply bind_Ok in H as (lib6 & H6 & H7).
  apply package_library_name in H0 as (schemas & sorted & L & S & G0).
  exists schemas, sorted. repeat split; auto.
  eapply recursive_remove_atId; [exact H7|reflexivity|].
  eapply recursive_remove_atId; [exact H6|reflexivity|].
  unfold _fix_unused_args in H5.
  apply bind_Ok in H5 as (ents & _ & H5). apply bind_Ok in H5 as (evs & _ & H5).
  apply bind_Ok in H5 as (arg_ids & _ & H5).
  rewrite (for_each_in_other _ _ _ _ "@id" H5) by discriminate.
  unfold _fix_wd_values in H4. unfold _fix_children_gates in H3.
  apply bind_Ok in H4 as (a & A1 & H4). apply bind_Ok in H4 as (b & A2 & A3).
  rewrite (for_each_in_other _ _ _ _ "@id" A3) by discriminate.
  rewrite (for_each_in_other _ _ _ _ "@id" A2) by discriminate.
  rewrite (for_each_in_other _ _ _ _ "@id" A1) by discriminate.
  rewrite (for_each_in_other _ _ _ _ "@id" H3) by discriminate.
  eapply fix_atIds_atId; [exact H2|].
  eapply inject_loop_atId; [exact H1|]. exact G0.
Qed.

End LibraryName.

(** ** The digest names the library *)

(** *** The sorted input *)

(** The order of the sorted input: by the identifier of the document. *)
Definition id_le (a b : json) : Prop :=
  String.leb (sort_key a) (sort_key b) = true.

(** The documents of a list that have the identifier [k], in order. *)
Definition with_id (k : string) (l : list json) : list json :=
  filter (fun s => String.eqb (sort_key s) k) l.

Lemma leb_refl s : String.leb s s = true.
Proof. now destruct (String.leb_total s s). Qed.

(** The sort is stable: items of one key keep their order. *)
Lemma insert_sorted_stable {A} (p k : string) (x : A) l :
  filter (fun kx => String.eqb (fst kx) p) (insert_sorted k x l)
  = filter (fun kx => String.eqb (fst kx) p) ((k, x) :: l).
Proof.
  induction l as [|[k' y] l IH]; [reflexivity|].
  cbn [insert_sorted]. destruct (String.leb k k') eqn:E; [reflexivity|].
  cbn [filter fst] in *. rewrite IH.
  destruct (String.eqb_spec k p) as [->|Hk];
    destruct (String.eqb_spec k' p) as [->|Hk']; try reflexivity.
  rewrite leb_refl in E. discriminate.
Qed.

Lemma sorted_by_key_stable {A} (p : string) (l : list (string * A)) :
  filter (fun kx => String.eqb (fst kx) p) (sorted_by_key l)
  = filter (fun kx => String.eqb (fst kx) p) l.
Proof.
  induction l as [|[k x] l IH]; [reflexivity|].
  cbn [sorted_by_key]. rewrite insert_sorted_stable. cbn [filter]. now rewrite IH.
Qed.

Definition keyed_by_id (kx : string * json) : Prop := fst kx = sort_key (snd kx).

Lemma with_id_keyed k (l : list (string * json)) :
  Forall keyed_by_id l ->
  with_id k (map snd l) = map snd (filter (fun kx => String.eqb (fst kx) k) l).
Proof.
  induction 1 as [|[k' s] l Hk _ IH]; [reflexivity|].
  unfold with_id in *. cbn [map filter snd fst]. unfold keyed_by_id in Hk.
  cbn [fst snd] in Hk. rewrite <- Hk, IH. now destruct (String.eqb k' k).
Qed.

Lemma sorted_keyed (l : list (string * json)) :
  Forall keyed_by_id l -> StronglySorted key_le l -> StronglySorted id_le (map snd l).
Proof.
  intros Hk S. induction S as [|[k s] l S IH Hall]; [constructor|].
  inversion Hk as [|? ? Hks Hkl]; subst. cbn [map snd].
  constructor; [now apply IH|].
  apply Forall_map. rewrite Forall_forall in *. intros [k' s'] Hin.
  specialize (Hall _ Hin). specialize (Hkl _ Hin).
  unfold key_le, keyed_by_id, id_le in *. cbn [fst snd] in *. congruence.
Qed.

Lemma sort_schemas_ids schemas sorted :
  sort_schemas schemas = Ok sorted ->
  Forall (fun s => exists k, document_id s = Ok k) schemas.
Proof.
  unfold sort_schemas. intros H. apply bind_Ok in H as (keyed & Hk & _).
  revert keyed Hk. induction schemas as [|s l IH]; intros keyed Hk; [constructor|].
  cbn [mapM] in Hk. apply bind_Ok in Hk as (y & Hy & Hk).
  apply bind_Ok in Hk as (ys & Hys & _).
  apply bind_Ok in Hy as (k & Hk' & _). constructor; eauto.
Qed.

(** The sorted list does not depend on the order in which documents of
    distinct identifiers come. *)
Lemma sort_schemas_perm schemas schemas' :
  Forall (fun s => exists k, document_id s = Ok k) schemas ->
  NoDup (map sort_key schemas) ->
  Permutation schemas schemas' ->
  sort_schemas schemas = sort_schemas schemas'.
Proof.
  intros Hid ND P.
  rewrite (sort_schemas_keyed schemas Hid).
  rewrite (sort_schemas_keyed schemas')
    by (revert Hid; apply Permutation_Forall; exact P).
  do 2 f_equal. apply sorted_by_key_perm_eq.
  - now apply Permutation_map.
  - rewrite map_map. cbn [fst]. exact ND.
Qed.

(** What [sorted] does to the documents: the result holds the same
    documents, in the order of their identifiers, and documents of one
    identifier keep the order they had. *)
Lemma sort_schemas_sorted schemas sorted :
  sort_schemas schemas = Ok sorted ->
  Permutation schemas sorted
  /\ StronglySorted id_le sorted
  /\ forall k, with_id k sorted = with_id k schemas.
Proof.
  intros H. pose proof (sort_schemas_ids _ _ H) as Hid.
  rewrite (sort_schemas_keyed schemas Hid) in H. injection H as <-.
  set (l := map (fun s => (sort_key s, s)) schemas).
  assert (map snd l = schemas) as Hl.
  { unfold l. rewrite map_map. cbn [snd]. apply map_id. }
  assert (Forall keyed_by_id l) as Hkl.
  { unfold l. apply Forall_map, Forall_forall. reflexivity. }
  assert (Forall keyed_by_id (sorted_by_key l)) as Hks.
  { revert Hkl. apply Permutation_Forall, sorted_by_key_perm. }
  split; [|split].
  - rewrite <- Hl at 1. apply Permutation_map, sorted_by_key_perm.
  - apply sorted_keyed; [exact Hks|apply sorted_by_key_sorted].
  - intros k. rewrite (with_id_keyed k _ Hks), sorted_by_key_stable.
    rewrite <- (with_id_keyed k _ Hkl). now rewrite Hl.
Qed.

Section DigestSuffix.

Variables (validate_document : json -> bool) (uuid4 : nat -> string).
Variables (encode : text -> list Byte.byte) (blake2b : list Byte.byte -> list Byte.byte).
Variables (jsonld_context : json) (sdf_version : string).
Variable get_wikidata_values : string -> result (string * string).

Let compose := package_schemas validate_document uuid4 encode blake2b
                 jsonld_context sdf_version get_wikidata_values.

(** C8. The digest of a composition.  [digest_to_base62] writes the number
    the bytes of the hash stand for (the first byte the lowest) in base 62,
    the lowest digit first.  The library that [package_schemas] returns is
    named [name-digest], where the digest is that text for the hash of the
    encoded serialisations, one after the other, of the valid rows sorted by
    identifier: the sorted list holds the loaded documents, each once, in
    the order of their identifiers, documents of one identifier in the order
    they had.  So composing the same identifiers of the same store again
    gives the same suffix; the sorted list is the same for any order in
    which the rows come back when their identifiers are distinct; and two
    compositions that load the same documents, from whatever stores and in
    whatever order, give libraries of the same name. *)
Theorem digest_suffix_idempotent :
  (forall b, base62_value (digest_to_base62 b) = le_value b)
  /\ (forall fuel1 fuel2 name1 name2 ids1 ids2 tbl lib1 lib2,
      (forall x, In x ids1 <-> In x ids2) ->
      compose fuel1 name1 ids1 tbl = Ok lib1 ->
      compose fuel2 name2 ids2 tbl = Ok lib2 ->
      exists schemas sorted,
        load_valid validate_document (select_in ids1 tbl) = Ok schemas
        /\ sort_schemas schemas = Ok sorted
        /\ Permutation schemas sorted
        /\ StronglySorted id_le sorted
        /\ (forall k, with_id k sorted = with_id k schemas)
        /\ getitem lib1 "@id"
           = Ok (JStr ("cmu:Schema/" ++ name1 ++ "-"
                       ++ digest_to_base62
                            (blake2b (concat (map (fun s => encode (json_dumps s))
                                                  sorted)))))
        /\ getitem lib2 "@id"
           = Ok (JStr ("cmu:Schema/" ++ name2 ++ "-"
                       ++ digest_to_base62
                            (blake2b (concat (map (fun s => encode (json_dumps s))
                                                  sorted))))))
  /\ (forall schemas schemas',
      Forall (fun s => exists k, document_id s = Ok k) schemas ->
      NoDup (map sort_key schemas) ->
      Permutation schemas schemas' ->
      exists sorted,
        sort_schemas schemas = Ok sorted /\ sort_schemas schemas' = Ok sorted)
  /\ (forall fuel1 fuel2 name ids1 ids2 tbl1 tbl2 schemas1 schemas2 lib1 lib2,
      load_valid validate_document (select_in ids1 tbl1) = Ok schemas1 ->
      load_valid validate_document (select_in ids2 tbl2) = Ok schemas2 ->
      Permutation schemas1 schemas2 ->
      NoDup (map sort_key schemas1) ->
      compose fuel1 name ids1 tbl1 = Ok lib1 ->
      compose fuel2 name ids2 tbl2 = Ok lib2 ->
      getitem lib1 "@id" = getitem lib2 "@id").
Proof.
  split; [|split; [|split]].
  - intros b. apply to_base62_value.
  - intros fuel1 fuel2 name1 name2 ids1 ids2 tbl lib1 lib2 Hids H1 H2.
    apply package_schemas_name in H1 as (s1 & sorted1 & L1 & S1 & E1).
    apply package_schemas_name in H2 as (s2 & sorted2 & L2 & S2 & E2).
    rewrite <- (select_in_members ids1 ids2 tbl Hids) in L2.
    assert (s1 = s2) as <- by congruence.
    assert (sorted1 = sorted2) as <- by congruence.
    destruct (sort_schemas_sorted _ _ S1) as (P & S & St).
    exists s1, sorted1. unfold input_digest in E1, E2. repeat split; auto.
  - intros schemas schemas' Hid ND P.
    rewrite <- (sort_schemas_perm schemas schemas' Hid ND P).
    rewrite (sort_schemas_keyed schemas Hid). eauto.
  - intros fuel1 fuel2 name ids1 ids2 tbl1 tbl2 schemas1 schemas2 lib1 lib2
           L1 L2 P ND H1 H2.
    apply package_schemas_name in H1 as (s1 & sorted1 & L1' & S1 & E1).
    apply package_schemas_name in H2 as (s2 & sorted2 & L2' & S2 & E2).
    assert (s1 = schemas1) as -> by congruence.
    assert (s2 = schemas2) as -> by congruence.
    rewrite (sort_schemas_perm schemas1 schemas2 (sort_schemas_ids _ _ S1) ND P) in S1.
    assert (sorted1 = sorted2) as <- by congruence.
    now rewrite E1, E2.
Qed.

End DigestSuffix.

Definition doc_a : json :=
  JObj [("@id", JStr "cmu:Schema/a"); ("events", JArr []); ("entities", JArr [])].

Definition doc_b : json :=
  JObj [("@id", JStr "cmu:Schema/b"); ("events", JArr []); ("entities", JArr [])].

(** Two stores that hold the same two documents, the rows in different
    order. *)
Definition store_ab : table :=
  [ mkRow "cmu:Schema/a" None None (Dumps doc_a) 0 None;
    mkRow "cmu:Schema/b" None None (Dumps doc_b) 0 None ].

Definition store_ba : table :=
  [ mkRow "cmu:Schema/b" None None (Dumps doc_b) 0 None;
    mkRow "cmu:Schema/a" None None (Dumps doc_a) 0 None ].

(** An encoding and a hash to run the composition with: the encoding gives
    the bytes of the identifier of the document, the hash the last two
    bytes of its input, so that the digest tells the orders of the two
    documents apart. *)
Definition id_bytes (t : text) : list Byte.byte :=
  match t with
  | Dumps j => map Ascii.byte_of_ascii (list_ascii_of_string (sort_key j))
  | Malformed _ => []
  end.

Definition last_two (b : list Byte.byte) : list Byte.byte := rev (firstn 2 (rev b)).

(** The library of the two documents, composed for the identifiers as
    they were requested: [PX6] stands for the bytes of [/b], the end of the
    input sorted by identifier. *)
Definition pair_library (schema_ids : list string) : json :=
  JObj [("@context", JNull); ("sdfVersion", JStr "2.3");
        ("@id", JStr "cmu:Schema/shop-PX6"); ("version", JStr "cmu-v0");
        ("events", JArr []); ("relations", JArr []); ("entities", JArr []);
        ("privateData",
         JObj [("inputDigest", JStr "PX6");
               ("constitutentSchemas", JArr (map JStr schema_ids))]);
        ("provenanceData", JArr [])].

Lemma digest_suffix_idempotent_witness :
  package_schemas (fun _ => true) (fun _ => "") id_bytes last_two JNull "2.3"
    (fun node => Ok (node, node)) 5 "shop" ["cmu:Schema/a"; "cmu:Schema/b"] store_ab
  = Ok (pair_library ["cmu:Schema/a"; "cmu:Schema/b"])
  /\ package_schemas (fun _ => true) (fun _ => "") id_bytes last_two JNull "2.3"
       (fun node => Ok (node, node)) 5 "shop" ["cmu:Schema/b"; "cmu:Schema/a"] store_ba
     = Ok (pair_library ["cmu:Schema/b"; "cmu:Schema/a"])
  /\ getitem (pair_library ["cmu:Schema/a"; "cmu:Schema/b"]) "@id"
     = getitem (pair_library ["cmu:Schema/b"; "cmu:Schema/a"]) "@id".
Proof.
  assert (package_schemas (fun _ => true) (fun _ => "") id_bytes last_two JNull "2.3"
            (fun node => Ok (node, node)) 5 "shop" ["cmu:Schema/a"; "cmu:Schema/b"]
            store_ab
          = Ok (pair_library ["cmu:Schema/a"; "cmu:Schema/b"])) as H1
    by (vm_compute; reflexivity).
  assert (package_schemas (fun _ => true) (fun _ => "") id_bytes last_two JNull "2.3"
            (fun node => Ok (node, node)) 5 "shop" ["cmu:Schema/b"; "cmu:Schema/a"]
            store_ba
          = Ok (pair_library ["cmu:Schema/b"; "cmu:Schema/a"])) as H2
    by (vm_compute; reflexivity).
  split; [exact H1|split; [exact H2|]].
  refine (proj2 (proj2 (proj2 (digest_suffix_idempotent (fun _ => true) (fun _ => "")
                                 id_bytes last_two JNull "2.3"
                                 (fun node => Ok (node, node)))))
            5%nat 5%nat "shop" ["cmu:Schema/a"; "cmu:Schema/b"]
            ["cmu:Schema/b"; "cmu:Schema/a"] store_ab store_ba
            [doc_a; doc_b] [doc_b; doc_a] _ _ eq_refl eq_refl _ _ H1 H2).
  - apply perm_swap.
  - repeat constructor; simpl; intuition discriminate.
Defined.

Example digest_to_base62_example :
  digest_to_base62 [Byte.x01; Byte.x02] = "H8".
Proof. reflexivity. Qed.

(** A composition that goes through: the placeholder is the second event of
    the library, the subschema has one root and two formal arguments of
    which the event binds one. *)
Definition payment_doc : json :=
  JObj [("@id", JStr "cmu:Schema/payment");
        ("entities",
         JArr [JObj [("@id", JStr "cmu:Entities/payer"); ("name", JStr "payer");
                     ("privateData", JObj [("isSchemaArg", JBool true)])];
               JObj [("@id", JStr "cmu:Entities/payee"); ("name", JStr "payee");
                     ("privateData", JObj [("isSchemaArg", JBool true)])]]);
        ("events",
         JArr [JObj [("@id", JStr "cmu:Events/hand"); ("name", JStr "hand over");
                     ("participants",
                      JArr [JObj [("@id", JStr "cmu:Participants/a");
                                  ("entity", JStr "cmu:Entities/payer");
                                  ("roleName", JStr "A0")];
                            JObj [("@id", JStr "cmu:Participants/b");
                                  ("entity", JStr "cmu:Entities/payee");
                                  ("roleName", JStr "A1")]])]])].

Definition purchase_doc : json :=
  JObj [("@id", JStr "cmu:Schema/purchase");
        ("entities",
         JArr [JObj [("@id", JStr "cmu:Entities/buyer"); ("name", JStr "buyer")]]);
        ("events",
         JArr [JObj [("@id", JStr "cmu:Events/choose"); ("name", JStr "choose");
                     ("participants", JArr [])];
               JObj [("@id", JStr "cmu:Events/pay"); ("name", JStr "pay");
                     ("wd_node", JStr "cmu:Schema/payment");
                     ("participants",
                      JArr [JObj [("@id", JStr "cmu:Participants/who");
                                  ("entity", JStr "cmu:Entities/buyer");
                                  ("roleName", JStr "payer")]])]])].

Definition purchase_store : table :=
  [ mkRow "cmu:Schema/purchase" None None (Dumps purchase_doc) 0 None;
    mkRow "cmu:Schema/payment" None None (Dumps payment_doc) 0 None ].

Example compose_purchase :
  package_schemas (fun _ => true) uuid_of (fun _ => []) (fun _ => [Byte.x01; Byte.x02])
    JNull "2.3" (fun node => Ok (node, node))
    20 "shop" ["cmu:Schema/purchase"; "cmu:Schema/payment"] purchase_store
  = Ok (JObj
      [("@context", JNull); ("sdfVersion", JStr "2.3");
       ("@id", JStr "cmu:Schema/shop-H8"); ("version", JStr "cmu-v0");
       ("events",
        JArr [JObj [("@id", JStr "cmu:Events/00001/choose"); ("name", JStr "choose");
                    ("participants", JArr []);
                    ("privateData",
                     JObj [("originalDocumentId", JStr "cmu:Schema/purchase")])];
              JObj [("@id", JStr "cmu:Events/00002/hand_over");
                    ("name", JStr "hand over");
                    ("participants",
                     JArr [JObj [("@id", JStr "cmu:Participants/00003/buyer");
                                 ("entity", JStr "cmu:Entities/00000/buyer");
                                 ("roleName", JStr "A0")]]);
                    ("privateData",
                     JObj [("originalDocumentId", JStr "cmu:Schema/payment")])]]);
       ("relations", JArr []);
       ("entities",
        JArr [JObj [("@id", JStr "cmu:Entities/00000/buyer"); ("name", JStr "buyer");
                    ("privateData",
                     JObj [("originalDocumentId", JStr "cmu:Schema/purchase")])]]);
       ("privateData",
        JObj [("inputDigest", JStr "H8");
              ("constitutentSchemas",
               JArr [JStr "cmu:Schema/purchase"; JStr "cmu:Schema/payment"])]);
       ("provenanceData", JArr [])]).
Proof. vm_compute. reflexivity. Qed.

(** ** Creating documents *)

Lemma select_by_atId_app schema_id t1 t2 :
  select_by_atId schema_id (t1 ++ t2)
  = select_by_atId schema_id t1 ++ select_by_atId schema_id t2.
Proof. unfold select_by_atId. apply filter_app. Qed.

Lemma existsb_atId schema_id tbl :
  existsb (fun r => String.eqb (atId r) schema_id) tbl = true
  <-> In schema_id (map atId tbl).
Proof.
  rewrite existsb_exists, in_map_iff. split.
  - intros (r & Hr & E). apply String.eqb_eq in E. eauto.
  - intros (r & E & Hr). exists r. split; auto. now apply String.eqb_eq.
Qed.

(** What [write_new_schema] does, by cases on the key. *)
Lemma write_new_schema_cases sdf_data new_id tbl :
  document_id sdf_data = Ok new_id ->
  write_new_schema sdf_data tbl =
    if existsb (fun r => String.eqb (atId r) new_id) tbl
    then Raise IntegrityError
    else Ok (tbl ++ [mkRow new_id None None (json_dumps sdf_data) 0 None]).
Proof. intros Hid. unfold write_new_schema. now rewrite Hid. Qed.

(** X1. A document stored by [write_new_schema] under a new identifier is
    read back unchanged by [get_schema(id, no_validate=True)]; the new row
    has no lock holder, reading any other identifier gives what it gave
    before, and the primary key still holds. *)
Theorem write_new_schema_round_trip (validate_document : json -> bool)
    (sdf_data : json) (new_id : string) (tbl : table) :
  document_id sdf_data = Ok new_id ->
  ~ In new_id (map atId tbl) ->
  exists tbl',
    write_new_schema sdf_data tbl = Ok tbl'
    /\ get_schema validate_document new_id true tbl' = Ok sdf_data
    /\ get_lock_holder new_id tbl' = None
    /\ (forall other no_validate, other <> new_id ->
        get_schema validate_document other no_validate tbl'
        = get_schema validate_document other no_validate tbl)
    /\ (primary_key tbl -> primary_key tbl').
Proof.
  intros Hid Hnew.
  rewrite (write_new_schema_cases _ _ tbl Hid).
  destruct (existsb _ tbl) eqn:E; [apply existsb_atId in E; contradiction|].
  eexists. split; [reflexivity|].
  pose proof (proj2 (select_by_atId_nil new_id tbl) Hnew) as Hnil.
  repeat split.
  - unfold get_schema. rewrite select_by_atId_app, Hnil. simpl.
    now rewrite String.eqb_refl.
  - unfold get_lock_holder. rewrite select_by_atId_app, Hnil. simpl.
    now rewrite String.eqb_refl.
  - intros other no_validate Hne. unfold get_schema.
    rewrite select_by_atId_app. simpl.
    destruct (String.eqb_spec new_id other) as [->|_]; [contradiction|].
    now rewrite app_nil_r.
  - unfold primary_key. rewrite map_app. simpl. intros PK.
    apply (Permutation_NoDup (l := new_id :: map atId tbl)).
    + apply Permutation_cons_append.
    + now constructor.
Qed.

Definition fresh_doc : json := JObj [("@id", JStr "cmu:Schema/c"); ("events", JArr [])].

Lemma write_new_schema_round_trip_witness :
  exists tbl',
    write_new_schema fresh_doc locked_store = Ok tbl'
    /\ get_schema (fun _ => true) "cmu:Schema/c" true tbl' = Ok fresh_doc
    /\ get_lock_holder "cmu:Schema/c" tbl' = None
    /\ (forall other no_validate, other <> "cmu:Schema/c" ->
        get_schema (fun _ => true) other no_validate tbl'
        = get_schema (fun _ => true) other no_validate locked_store)
    /\ (primary_key locked_store -> primary_key tbl').
Proof.
  apply (write_new_schema_round_trip (fun _ => true) fresh_doc "cmu:Schema/c" locked_store).
  - reflexivity.
  - simpl. intuition discriminate.
Defined.

(** ** Validation at start-up *)

(** How the start-up pass leaves one row. *)
Definition validated_row (validate_document : json -> bool)
    (r r' : SchemasTableRow) : Prop :=
  atId r' = atId r /\ data r' = data r
  /\ lock_ts r' = lock_ts r /\ holder_id r' = holder_id r
  /\ (quarantined r' = 0
      <-> quarantined r = 0 /\ exists d, loads_sdf validate_document (data r) = Ok d).

Lemma quarantine_reason_None validate_document validation_message t :
  quarantine_reason validate_document validation_message t = Ok None
  <-> exists d, loads_sdf validate_document t = Ok d.
Proof.
  unfold quarantine_reason, loads_sdf.
  destruct (json_loads t) as [j|e]; cbn [bind].
  - destruct (validate_type validate_document j) as [d|e].
    + split; eauto.
    + split; [destruct e; discriminate|intros (d & H); discriminate].
  - split; [destruct e; discriminate|intros (d & H); discriminate].
Qed.

Lemma validate_schemas_rows validate_document validation_message tbl :
  forall tbl', _validate_schemas validate_document validation_message tbl = Ok tbl' ->
  Forall2 (validated_row validate_document) tbl tbl'.
Proof.
  unfold _validate_schemas.
  induction tbl as [|r tbl IH]; simpl; intros tbl' H.
  - injection H as <-. constructor.
  - apply bind_Ok in H as (r' & Hr & H).
    apply bind_Ok in H as (rest & Hrest & H). injection H as <-.
    constructor; [|now apply IH].
    unfold validated_row.
    destruct (Z.eqb_spec (quarantined r) 0) as [Q|Q].
    + apply bind_Ok in Hr as (reason & Hreason & Hr).
      destruct reason as [why|].
      * injection Hr as <-. simpl. repeat split; try discriminate.
        intros (_ & Hd).
        apply (quarantine_reason_None _ validation_message) in Hd. congruence.
      * injection Hr as <-. repeat split; auto.
        now apply (quarantine_reason_None _ validation_message).
    + injection Hr as <-. repeat split; auto; tauto.
Qed.

(** X3. When the start-up pass [_validate_schemas] returns, every row has
    kept its identifier, content and lock, and the rows that are not
    quarantined are exactly the rows that were not quarantined before and
    whose content loads as a valid document; so every row left
    unquarantined holds a valid document. *)
Theorem validate_schemas_sound (validate_document : json -> bool)
    (validation_message : json -> string) (tbl tbl' : table) :
  _validate_schemas validate_document validation_message tbl = Ok tbl' ->
  Forall2 (validated_row validate_document) tbl tbl'
  /\ forall r', In r' tbl' -> quarantined r' = 0 ->
       exists d, loads_sdf validate_document (data r') = Ok d.
Proof.
  intros H. apply validate_schemas_rows in H. split; [exact H|].
  induction H as [|r r' tbl tbl' Hr _ IH]; simpl; [contradiction|].
  intros x [<-|Hx] Q; [|now apply IH].
  destruct Hr as (_ & Hdata & _ & _ & Hq). rewrite Hdata. now apply Hq.
Qed.

(** A store at start-up, one row holding text that is not JSON and one a
    document without events, and the store after the pass. *)
Definition stale_store : table :=
  [ mkRow "cmu:Schema/cut" None None (Malformed "{") 0 None;
    mkRow "cmu:Schema/old" None None (Dumps flagged_doc) 0 None;
    mkRow "cmu:Schema/broken" None None (Dumps broken_doc) 0 None ].

Definition started_store : table :=
  [ mkRow "cmu:Schema/cut" None None (Malformed "{") 1 (Some "Not valid JSON");
    mkRow "cmu:Schema/old" None None (Dumps flagged_doc) 0 None;
    mkRow "cmu:Schema/broken" None None (Dumps broken_doc) 1
      (Some ("Not Valid SDF" ++ String Util.newline "- events: field required")%string) ].

Lemma validate_schemas_sound_witness :
  Forall2 (validated_row sample_shape) stale_store started_store
  /\ forall r', In r' started_store -> quarantined r' = 0 ->
       exists d, loads_sdf sample_shape (data r') = Ok d.
Proof.
  apply (validate_schemas_sound sample_shape sample_message stale_store started_store).
  reflexivity.
Defined.

Lemma validate_schemas_again validate_document validation_message tbl :
  forall tbl', _validate_schemas validate_document validation_message tbl = Ok tbl' ->
  _validate_schemas validate_document validation_message tbl' = Ok tbl'.
Proof.
  unfold _validate_schemas.
  induction tbl as [|r tbl IH]; simpl; intros tbl' H.
  - now injection H as <-.
  - apply bind_Ok in H as (r' & Hr & H).
    apply bind_Ok in H as (rest & Hrest & H). injection H as <-.
    simpl. rewrite (IH _ Hrest).
    destruct (Z.eqb_spec (quarantined r) 0) as [Q|Q].
    + apply bind_Ok in Hr as (reason & Hreason & Hr).
      destruct reason as [why|]; injection Hr as <-; simpl; [reflexivity|].
      apply Z.eqb_eq in Q. now rewrite Q, Hreason.
    + injection Hr as <-. apply Z.eqb_neq in Q. now rewrite Q.
Qed.

(** X4. [init_db] is idempotent on the documents: starting the server a
    second time leaves the store of the first start as it is and gives the
    same outcome. *)
Theorem init_db_idempotent (validate_document : json -> bool)
    (validation_message : json -> string) (tbl : table) :
  init_db validate_document validation_message
    (snd (init_db validate_document validation_message tbl))
  = init_db validate_document validation_message tbl.
Proof.
  unfold init_db, do_transaction, unit_block.
  destruct (_validate_schemas validate_document validation_message tbl)
    as [tbl'|e] eqn:E; simpl.
  - now rewrite (validate_schemas_again _ _ _ _ E).
  - now rewrite E.
Qed.

(** ** The lease after a write *)

(** Every row of the identifier carries the lease of the client, taken at
    [now]. *)
Definition leased (now : Z) (client_id schema_id : string) (t : table) : Prop :=
  forall r, In r t -> atId r = schema_id ->
    holder_id r = Some client_id /\ lock_ts r = Some now.

Lemma relock_leases now client_id schema_id t :
  leased now client_id schema_id (relock (Some now) (Some client_id) schema_id t).
Proof.
  intros r Hr E. unfold relock in Hr. apply in_map_iff in Hr as (x & <- & _).
  destruct (String.eqb_spec (atId x) schema_id) as [_|Hne].
  - now split.
  - contradiction.
Qed.

Lemma relock_leased now client_id schema_id other t :
  leased now client_id schema_id t ->
  leased now client_id schema_id (relock (Some now) (Some client_id) other t).
Proof.
  intros L r Hr E. unfold relock in Hr. apply in_map_iff in Hr as (x & <- & Hx).
  destruct (String.eqb (atId x) other); [now split|now apply L].
Qed.

Lemma update_schema_same_leased now client_id schema_id ref_id d t t' :
  update_schema ref_id ref_id d t = Ok t' ->
  leased now client_id schema_id t -> leased now client_id schema_id t'.
Proof.
  unfold update_schema. destruct (_ && _); [discriminate|]. intros [= <-] L r Hr E.
  apply in_map_iff in Hr as (x & <- & Hx).
  destruct (String.eqb_spec (atId x) ref_id) as [Hx'|_]; [|now apply L].
  simpl in *. apply L; congruence.
Qed.

(** A write that keeps the identifier keeps the leases of the client. *)
Lemma write_same_id_leased depth now client_id schema_id ref_id ref_data t t' :
  write_schema depth now ref_id ref_data client_id t = Ok t' ->
  document_id ref_data = Ok ref_id ->
  leased now client_id schema_id t -> leased now client_id schema_id t'.
Proof.
  destruct depth as [|depth]; simpl; [discriminate|]. intros H Hid L.
  apply bind_Ok in H as (t1 & H1 & H). rewrite Hid in H. simpl in H.
  apply bind_Ok in H as (t2 & H2 & H3).
  unfold _change_referring_schemas in H2. rewrite String.eqb_refl in H2.
  injection H2 as <-.
  apply set_lock_Ok in H1 as [_ ->].
  eapply update_schema_same_leased; eauto. now apply relock_leased.
Qed.

Lemma change_referring_leased depth now old_id new_id client_id schema_id t t' :
  _change_referring_schemas (write_schema depth now) now old_id new_id client_id t
    = Ok t' ->
  leased now client_id schema_id t -> leased now client_id schema_id t'.
Proof.
  unfold _change_referring_schemas.
  destruct (String.eqb old_id new_id); [now intros [= <-]|]. intros H L.
  apply bind_Ok in H as (all_schemas & _ & H).
  apply bind_Ok in H as (referring & _ & H).
  apply bind_Ok in H as (t1 & Hlock & Hrewrite).
  revert Hrewrite. apply foldM_invariant.
  - intros s ref_data s' _ Ls Hstep. unfold rewrite_referrer in Hstep.
    apply bind_Ok in Hstep as (ref_data' & _ & Hstep).
    apply bind_Ok in Hstep as (ref_id & Href & Hstep).
    eapply write_same_id_leased; eauto.
  - revert Hlock. apply foldM_invariant; [|exact L].
    intros s ref_data s' _ Ls Hstep. unfold lock_referrer in Hstep.
    apply bind_Ok in Hstep as (ref_id & _ & Hstep).
    destruct (set_lock now true ref_id client_id s) as [x|e] eqn:E.
    + injection Hstep as <-. apply set_lock_Ok in E as [_ ->].
      now apply relock_leased.
    + destruct e; discriminate.
Qed.

(** The keys of the table when the last statement of a write runs. *)
Lemma write_schema_steps depth now schema_id sdf_data client_id new_id tbl tbl' :
  write_schema depth now schema_id sdf_data client_id tbl = Ok tbl' ->
  document_id sdf_data = Ok new_id ->
  exists tbl2,
    update_schema schema_id new_id (json_dumps sdf_data) tbl2 = Ok tbl'
    /\ map atId tbl2 = map atId tbl
    /\ In schema_id (map atId tbl)
    /\ leased now client_id schema_id tbl2.
Proof.
  destruct depth as [|depth]; simpl; [discriminate|]. intros H Hid.
  apply bind_Ok in H as (tbl1 & H1 & H). rewrite Hid in H. simpl in H.
  apply bind_Ok in H as (tbl2 & H2 & H3).
  exists tbl2. split; [exact H3|].
  pose proof (set_lock_Ok _ _ _ _ _ _ H1) as [Hin ->].
  split; [|split; [exact Hin|]].
  - rewrite <- (relock_atIds (Some now) (Some client_id) schema_id tbl).
    revert H2. apply change_referring_atIds.
    intros ref_id ref_data c t t'. apply write_schema_rec_atIds.
  - eapply change_referring_leased; eauto. apply relock_leases.
Qed.

(** X5. A successful [write_schema] leaves the written document, under the
    identifier it now has, with the lease of the writer taken at the time of
    the write: the lease is not given back, and for its lifetime every other
    client is refused the lock. *)
Theorem write_schema_keeps_lease (depth : nat) (now : Z)
    (schema_id client_id new_id : string) (sdf_data : json) (tbl tbl' : table) :
  write_schema depth now schema_id sdf_data client_id tbl = Ok tbl' ->
  document_id sdf_data = Ok new_id ->
  (forall r', In r' tbl' -> atId r' = new_id ->
     holder_id r' = Some client_id /\ lock_ts r' = Some now)
  /\ forall other later,
       other <> client_id -> later - now <= LOCK_LIFETIME ->
       exists d, set_lock later true new_id other tbl' = Raise (HTTPConflict d).
Proof.
  intros H Hid.
  destruct (write_schema_steps _ _ _ _ _ _ _ _ H Hid) as (tbl2 & Hup & Hkeys & Hin & L).
  assert (leased now client_id new_id tbl') as L'.
  { unfold update_schema in Hup.
    destruct (_ && _) eqn:C; [discriminate|]. injection Hup as <-.
    intros r' Hr' E. apply in_map_iff in Hr' as (x & <- & Hx).
    destruct (String.eqb_spec (atId x) schema_id) as [Hx'|Hne].
    - simpl. now apply L.
    - exfalso. rewrite <- Hkeys, <- existsb_atId in Hin.
      rewrite Hin, andb_true_r in C.
      assert (existsb (fun r => String.eqb (atId r) new_id) tbl2 = true) as Hnew.
      { apply existsb_exists. exists x. split; auto. now apply String.eqb_eq. }
      rewrite Hnew, andb_true_r in C.
      apply negb_false_iff, String.eqb_eq in C. congruence. }
  split; [exact L'|].
  intros other later Hother Hlife.
  pose proof (write_schema_atIds _ _ _ _ _ _ _ _ H Hid) as Hkeys'.
  assert (In new_id (map atId tbl')) as Hnew.
  { rewrite Hkeys'. apply in_map_iff. exists schema_id. split; auto.
    unfold rename_key. now rewrite String.eqb_refl. }
  unfold set_lock.
  destruct (select_by_atId new_id tbl') as [|r rest] eqn:E.
  - apply select_by_atId_nil in E. contradiction.
  - assert (In r (select_by_atId new_id tbl')) as Hr by (rewrite E; now left).
    apply select_by_atId_In in Hr as [Hr Hid'].
    destruct (L' r Hr Hid') as [Hh Ht]. rewrite Hh, Ht. simpl.
    destruct (String.eqb_spec client_id other) as [->|_]; [contradiction|].
    apply Z.leb_le in Hlife. rewrite Hlife. simpl. eauto.
Qed.

(** The store [library_store] after Carol renamed [cmu:Schema/sub]. *)
Definition part_store : table :=
  [ mkRow "cmu:Schema/part" (Some 130) (Some "carol") (Dumps renamed_sub) 0 None;
    mkRow "cmu:Schema/main" (Some 130) (Some "carol")
      (Dumps (JObj [("@id", JStr "cmu:Schema/main");
                    ("events",
                     JArr [JObj [("@id", JStr "cmu:Events/1");
                                 ("wd_node", JStr "cmu:Schema/part");
                                 ("wd_label", JStr "part")];
                           plain_event])])) 0 None;
    mkRow "cmu:Schema/other" None None
      (Dumps (JObj [("@id", JStr "cmu:Schema/other");
                    ("events", JArr [plain_event])])) 0 None ].

Lemma write_schema_keeps_lease_witness :
  (forall r', In r' part_store -> atId r' = "cmu:Schema/part" ->
     holder_id r' = Some "carol" /\ lock_ts r' = Some 130)
  /\ forall other later,
       other <> "carol" -> later - 130 <= LOCK_LIFETIME ->
       exists d, set_lock later true "cmu:Schema/part" other part_store
                 = Raise (HTTPConflict d).
Proof.
  apply (write_schema_keeps_lease 2 130 "cmu:Schema/sub" "carol" "cmu:Schema/part"
           renamed_sub library_store part_store).
  - reflexivity.
  - reflexivity.
Defined.

(** X6. A write never moves a document onto the identifier of another row:
    when the document carries an identifier that differs from the one it is
    written to and that a row already has, [write_schema] raises, and the
    transaction around it leaves the store as it was. *)
Theorem rename_onto_existing_refused (depth : nat) (now : Z)
    (schema_id client_id new_id : string) (sdf_data : json) (tbl : table) :
  document_id sdf_data = Ok new_id ->
  new_id <> schema_id ->
  In new_id (map atId tbl) ->
  exists e,
    write_schema depth now schema_id sdf_data client_id tbl = Raise e
    /\ do_transaction (unit_block (write_schema depth now schema_id sdf_data client_id))
                      tbl = (Raise e, tbl).
Proof.
  intros Hid Hne Hnew. unfold do_transaction, unit_block.
  destruct (write_schema depth now schema_id sdf_data client_id tbl) as [tbl'|e] eqn:H.
  - exfalso.
    destruct (write_schema_steps _ _ _ _ _ _ _ _ H Hid) as (tbl2 & Hup & Hkeys & Hin & _).
    unfold update_schema in Hup.
    rewrite <- Hkeys, <- existsb_atId in Hin, Hnew. rewrite Hin, Hnew in Hup.
    apply String.eqb_neq in Hne. now rewrite Hne in Hup.
  - exists e. now split.
Qed.

Lemma rename_onto_existing_refused_witness :
  exists e,
    write_schema 2 105 "cmu:Schema/b" (JObj [("@id", JStr "cmu:Schema/a")]) "bob"
                 locked_store = Raise e
    /\ do_transaction
         (unit_block (write_schema 2 105 "cmu:Schema/b"
                        (JObj [("@id", JStr "cmu:Schema/a")]) "bob"))
         locked_store = (Raise e, locked_store).
Proof.
  apply (rename_onto_existing_refused 2 105 "cmu:Schema/b" "bob" "cmu:Schema/a").
  - reflexivity.
  - discriminate.
  - simpl. auto.
Defined.

(** ** The passes over a composed library *)

(** A dict has each of its keys once. *)
Definition distinct_keys (e : json) : Prop :=
  match e with
  | JObj fields => NoDup (map fst fields)
  | _ => True
  end.

Lemma assoc_None k fields : assoc k fields = None <-> ~ In k (map fst fields).
Proof.
  induction fields as [|[k' v] fields IH]; simpl; [tauto|].
  destruct (String.eqb_spec k k') as [->|Hne].
  - split; [discriminate|]. intros H. exfalso. auto.
  - rewrite IH. intuition congruence.
Qed.

Lemma assoc_del_keys k fields x :
  In x (map fst (assoc_del k fields)) -> In x (map fst fields).
Proof.
  induction fields as [|[k' v] fields IH]; simpl; auto.
  destruct (String.eqb k k'); simpl; intuition.
Qed.

Lemma assoc_del_NoDup k fields :
  NoDup (map fst fields) -> NoDup (map fst (assoc_del k fields)).
Proof.
  induction fields as [|[k' v] fields IH]; simpl; auto.
  intros H. inversion H as [|? ? Hk Hrest]; subst.
  destruct (String.eqb k k'); simpl; auto.
  constructor; auto. intros Hin. apply Hk. eapply assoc_del_keys; eauto.
Qed.

Lemma assoc_del_same k fields :
  NoDup (map fst fields) -> assoc k (assoc_del k fields) = None.
Proof.
  induction fields as [|[k' v] fields IH]; simpl; auto.
  intros H. inversion H as [|? ? Hk Hrest]; subst.
  destruct (String.eqb_spec k k') as [->|Hne]; simpl.
  - now apply assoc_None.
  - apply String.eqb_neq in Hne. rewrite Hne. auto.
Qed.

Lemma assoc_del_other k k' fields :
  k <> k' -> assoc k (assoc_del k' fields) = assoc k fields.
Proof.
  intros Hne. induction fields as [|[k0 v] fields IH]; simpl; auto.
  destruct (String.eqb_spec k' k0) as [->|Hne'].
  - apply String.eqb_neq in Hne. now rewrite Hne.
  - simpl. now rewrite IH.
Qed.

Lemma has_key_del_same k e : distinct_keys e -> has_key k (del_key k e) = false.
Proof.
  destruct e; simpl; auto. intros H. now rewrite assoc_del_same.
Qed.

Lemma has_key_del_other k k' e : k <> k' -> has_key k (del_key k' e) = has_key k e.
Proof.
  destruct e; simpl; auto. intros H. now rewrite assoc_del_other.
Qed.

Lemma getitem_del_other k k' e : k <> k' -> getitem (del_key k' e) k = getitem e k.
Proof.
  destruct e; simpl; auto. intros H. now rewrite assoc_del_other.
Qed.

Lemma distinct_keys_del k e : distinct_keys e -> distinct_keys (del_key k e).
Proof. destruct e; simpl; auto. apply assoc_del_NoDup. Qed.

Lemma has_key_getitem k e : has_key k e = true <-> exists v, getitem e k = Ok v.
Proof.
  destruct e; simpl; try (split; [discriminate|intros (v & H); discriminate]).
  destruct (assoc k fields); split; eauto; try discriminate.
  intros (v & H). discriminate.
Qed.

Lemma has_key_setitem k k' v e e' :
  setitem e k' v = Ok e' ->
  has_key k e' = if String.eqb k k' then true else has_key k e.
Proof.
  destruct e; try discriminate. intros [= <-]. simpl.
  destruct (String.eqb_spec k k') as [->|Hne].
  - now rewrite assoc_set_same.
  - now rewrite assoc_set_other.
Qed.

Lemma assoc_set_twice k v fields :
  assoc_set k v (assoc_set k v fields) = assoc_set k v fields.
Proof.
  induction fields as [|[k' x] fields IH]; simpl.
  - now rewrite String.eqb_refl.
  - destruct (String.eqb k k') eqn:E; simpl; rewrite E; [reflexivity|now rewrite IH].
Qed.

Lemma getitem_setitem_same e k v e' :
  setitem e k v = Ok e' -> getitem e' k = Ok v.
Proof.
  destruct e; try discriminate. intros [= <-]. simpl. now rewrite assoc_set_same.
Qed.

Lemma mapM_Forall2 {A B} (f : A -> result B) l :
  forall l', mapM f l = Ok l' -> Forall2 (fun x y => f x = Ok y) l l'.
Proof.
  induction l as [|x l IH]; simpl; intros l' H.
  - injection H as <-. constructor.
  - apply bind_Ok in H as (y & Hy & H). apply bind_Ok in H as (ys & Hys & H).
    injection H as <-. constructor; auto.
Qed.

(** The loop [for e in ensure_list(doc[key])] whose body leaves a dict: the
    elements after the loop are the results of the body, in order. *)
Lemma for_each_in_dicts key body doc doc' :
  (forall x x', body x = Ok x' -> is_dict x' = true) ->
  for_each_in key body doc = Ok doc' ->
  exists v v', getitem doc key = Ok v /\ getitem doc' key = Ok v'
    /\ Forall2 (fun x x' => body x = Ok x') (ensure_list v) (ensure_list v').
Proof.
  intros Hdict H. unfold for_each_in in H. apply bind_Ok in H as (v & Hv & H).
  exists v.
  assert (forall v', body v = Ok v' -> setitem doc key v' = Ok doc' ->
          (forall l, v <> JArr l) ->
          exists v', getitem doc' key = Ok v'
            /\ Forall2 (fun x x' => body x = Ok x') (ensure_list v) (ensure_list v'))
    as Hone.
  { intros v' Hb Hs Hv'. exists v'. split; [eapply getitem_setitem_same; eauto|].
    apply Hdict in Hb as Hd. destruct v'; try discriminate.
    destruct v; simpl; try (constructor; [assumption|constructor]).
    now destruct (Hv' items). }
  destruct v;
    try (apply bind_Ok in H as (v' & Hb & Hs);
         destruct (Hone v' Hb Hs) as (w & Hw & HF); [discriminate|eauto]).
  apply bind_Ok in H as (items' & Hm & Hs).
  exists (JArr items'). repeat split; auto.
  - eapply getitem_setitem_same; eauto.
  - simpl. now apply mapM_Forall2.
Qed.

(** *** Children gates *)

(** What [_fix_children_gates] establishes for an event. *)
Definition gate_ok (e : json) : Prop :=
  has_key "children_gate" e = has_key "children" e
  /\ forall c, getitem e "children" = Ok c -> exists n, len c = Ok (S n).

Lemma fix_children_gate_dict e e' : fix_children_gate e = Ok e' -> is_dict e' = true.
Proof.
  unfold fix_children_gate. destruct e as [| | | | |fields]; try discriminate.
  intros H. apply bind_Ok in H as (e1 & H1 & H).
  assert (is_dict e1 = true) as D1.
  { destruct (has_key "children" (JObj fields)).
    - apply bind_Ok in H1 as (c & _ & H1). apply bind_Ok in H1 as (n & _ & H1).
      injection H1 as <-. now destruct (n =? 0)%nat.
    - now injection H1 as <-. }
  destruct e1 as [| | | | |f1]; try discriminate.
  match type of H with
  | (if ?c then _ else _) = _ => destruct c
  end.
  - match type of H with
    | setitem ?x _ _ = _ => destruct x; try discriminate
    end.
    now injection H as <-.
  - injection H as <-. now destruct (_ && _).
Qed.

Lemma fix_children_gate_post e e' :
  distinct_keys e -> fix_children_gate e = Ok e' -> gate_ok e'.
Proof.
  unfold fix_children_gate. destruct e as [| | | | |fields]; try discriminate.
  intros ND H. apply bind_Ok in H as (e1 & H1 & H).
  assert (distinct_keys e1
          /\ forall c, getitem e1 "children" = Ok c -> exists n, len c = Ok (S n))
    as (ND1 & C1).
  { destruct (has_key "children" (JObj fields)) eqn:Hc.
    - apply bind_Ok in H1 as (c & Hget & H1). apply bind_Ok in H1 as (n & Hlen & H1).
      injection H1 as <-. destruct n as [|n]; simpl.
      + split; [now apply assoc_del_NoDup|]. intros c' Hc'.
        rewrite assoc_del_same in Hc' by assumption. discriminate.
      + split; [assumption|]. intros c' Hc'.
        change (getitem (JObj fields) "children" = Ok c') in Hc'.
        rewrite Hget in Hc'. injection Hc' as <-. eauto.
    - injection H1 as <-. split; [assumption|]. intros c' Hc'.
      assert (has_key "children" (JObj fields) = true) by (apply has_key_getitem; eauto).
      congruence. }
  clear H1.
  set (e2 := if negb (has_key "children" e1) && has_key "children_gate" e1
             then del_key "children_gate" e1 else e1) in *.
  assert (getitem e2 "children" = getitem e1 "children") as G2.
  { unfold e2. destruct (_ && _); auto. now apply getitem_del_other. }
  assert (has_key "children" e2 = has_key "children" e1) as K2.
  { unfold e2. destruct (_ && _); auto. now apply has_key_del_other. }
  assert (has_key "children" e2 = false -> has_key "children_gate" e2 = false) as N2.
  { intros Hk. rewrite K2 in Hk. unfold e2. rewrite Hk. simpl.
    destruct (has_key "children_gate" e1) eqn:Hg1; auto.
    now apply has_key_del_same. }
  clearbody e2.
  destruct (has_key "children" e2) eqn:Hc2; simpl in H.
  - destruct (has_key "children_gate" e2) eqn:Hg2; simpl in H.
    + injection H as <-. split; [congruence|]. intros c Hc. apply C1. congruence.
    + split.
      * rewrite (has_key_setitem "children_gate" _ _ _ _ H),
                (has_key_setitem "children" _ _ _ _ H). simpl. congruence.
      * intros c Hc. apply C1.
        rewrite (getitem_setitem_other _ _ _ _ "children" H) in Hc by discriminate.
        congruence.
  - injection H as <-. split.
    + rewrite Hc2. now apply N2.
    + intros c Hc.
      assert (has_key "children" e2 = true) by (apply has_key_getitem; eauto).
      congruence.
Qed.

(** An event that has a gate exactly when it has children, and whose
    children are not empty, is left as it is. *)
Lemma fix_children_gate_fixed e :
  is_dict e = true -> gate_ok e -> fix_children_gate e = Ok e.
Proof.
  destruct e as [| | | | |fields]; try discriminate. intros _ [Hg Hc].
  unfold fix_children_gate.
  destruct (has_key "children" (JObj fields)) eqn:K.
  - apply has_key_getitem in K as K'. destruct K' as (c & Hget).
    destruct (Hc c Hget) as (n & Hlen).
    rewrite Hget. cbn [bind]. rewrite Hlen. cbn [bind Nat.eqb].
    rewrite Hg, K. cbn [negb andb]. rewrite Hg, K. reflexivity.
  - cbn [bind]. rewrite Hg, K. cbn [negb andb]. rewrite K. reflexivity.
Qed.

(** X7. After [_fix_children_gates] every event of the library has a
    [children_gate] exactly when it has [children], and children that are
    present are not empty; a second run of the pass changes nothing. *)
Theorem fix_children_gates_spec (lib lib' : json) :
  (forall evs e, getitem lib "events" = Ok evs -> In e (ensure_list evs) ->
     distinct_keys e) ->
  _fix_children_gates lib = Ok lib' ->
  (exists evs', getitem lib' "events" = Ok evs'
     /\ forall e', In e' (ensure_list evs') -> gate_ok e')
  /\ _fix_children_gates lib' = Ok lib'.
Proof.
  intros ND H. unfold _fix_children_gates in *.
  destruct (for_each_in_dicts _ _ _ _ fix_children_gate_dict H)
    as (v & v' & Hv & Hv' & HF).
  assert (forall e', In e' (ensure_list v') -> is_dict e' = true /\ gate_ok e') as Hpost.
  { specialize (ND v). revert ND HF.
    generalize (ensure_list v) (ensure_list v'). intros l l' ND HF.
    induction HF as [|x x' l l' Hx _ IH]; simpl; [contradiction|].
    intros e' [<-|Hin].
    - split; [eapply fix_children_gate_dict; eauto|].
      eapply fix_children_gate_post; eauto. apply ND; simpl; auto.
    - apply IH; auto. intros e He Hin'. apply ND; simpl; auto. }
  split.
  - exists v'. split; auto. intros e' He. now apply Hpost.
  - unfold for_each_in in *. rewrite Hv'.
    apply bind_Ok in H as (v0 & Hv0 & H). rewrite Hv in Hv0. injection Hv0 as <-.
    assert (forall l, (forall e', In e' l -> is_dict e' = true /\ gate_ok e') ->
            mapM fix_children_gate l = Ok l) as Hfix.
    { induction l as [|x l IH]; simpl; auto. intros Hl.
      destruct (Hl x (or_introl eq_refl)) as [D G].
      rewrite (fix_children_gate_fixed x D G). simpl.
      rewrite IH; [reflexivity|]. intros e' He. apply Hl. now right. }
    assert (forall w, setitem lib "events" w = Ok lib' -> setitem lib' "events" w = Ok lib')
      as Hset.
    { intros w Hw. destruct lib; try discriminate. injection Hw as <-.
      unfold setitem. now rewrite assoc_set_twice. }
    cbn [bind].
    destruct v as [| | | |items|fields0]; try (cbn in H; discriminate).
    + apply bind_Ok in H as (items' & Hm & Hs).
      pose proof (getitem_setitem_same _ _ _ _ Hs) as Hw.
      rewrite Hv' in Hw. injection Hw as ->.
      rewrite (Hfix items' Hpost). cbn [bind]. now apply Hset.
    + apply bind_Ok in H as (w & Hb & Hs).
      pose proof (getitem_setitem_same _ _ _ _ Hs) as Hw.
      rewrite Hv' in Hw. injection Hw as ->.
      pose proof (fix_children_gate_dict _ _ Hb) as Dw.
      destruct w as [| | | | |fields1]; try discriminate.
      destruct (Hpost (JObj fields1) (or_introl eq_refl)) as [D G].
      rewrite (fix_children_gate_fixed _ D G). cbn [bind]. now apply Hset.
Qed.

Definition gated_lib : json :=
  JObj [("events",
         JArr [JObj [("@id", JStr "e1"); ("children", JArr []);
                     ("children_gate", JStr "or")];
               JObj [("@id", JStr "e2");
                     ("children", JArr [JObj [("child", JStr "e1")]])]])].

Lemma fix_children_gates_spec_witness :
  (exists evs',
     getitem (JObj [("events",
                     JArr [JObj [("@id", JStr "e1")];
                           JObj [("@id", JStr "e2");
                                 ("children", JArr [JObj [("child", JStr "e1")]]);
                                 ("children_gate", JStr "and")]])])
             "events" = Ok evs'
     /\ forall e', In e' (ensure_list evs') -> gate_ok e')
  /\ _fix_children_gates
       (JObj [("events",
               JArr [JObj [("@id", JStr "e1")];
                     JObj [("@id", JStr "e2");
                           ("children", JArr [JObj [("child", JStr "e1")]]);
                           ("children_gate", JStr "and")]])])
     = Ok (JObj [("events",
                  JArr [JObj [("@id", JStr "e1")];
                        JObj [("@id", JStr "e2");
                              ("children", JArr [JObj [("child", JStr "e1")]]);
                              ("children_gate", JStr "and")]])]).
Proof.
  apply (fix_children_gates_spec gated_lib).
  - intros evs e [= <-] He. simpl in He.
    destruct He as [<-|[<-|[]]]; simpl; repeat constructor; simpl; intuition discriminate.
  - reflexivity.
Defined.

(** *** Participants without an argument *)

Lemma Forall2_In_r {A B} (R : A -> B -> Prop) l l' y :
  Forall2 R l l' -> In y l' -> exists x, In x l /\ R x y.
Proof.
  induction 1 as [|a b l l' Hab _ IH]; simpl; [contradiction|].
  intros [<-|Hin]; [eauto|]. destruct (IH Hin) as (x & Hx & HR). eauto.
Qed.

Lemma Forall2_In_l {A B} (R : A -> B -> Prop) l l' x :
  Forall2 R l l' -> In x l -> exists y, In y l' /\ R x y.
Proof.
  induction 1 as [|a b l l' Hab _ IH]; simpl; [contradiction|].
  intros [<-|Hin]; [eauto|]. destruct (IH Hin) as (y & Hy & HR). eauto.
Qed.

Lemma filterM_In {A} (p : A -> result bool) l :
  forall l' x, filterM p l = Ok l' -> In x l' -> In x l /\ p x = Ok true.
Proof.
  induction l as [|a l IH]; simpl; intros l' x H Hin.
  - injection H as <-. contradiction.
  - apply bind_Ok in H as (b & Hb & H). apply bind_Ok in H as (ys & Hys & H).
    injection H as <-. destruct b.
    + destruct Hin as [<-|Hin]; [auto|]. destruct (IH _ _ Hys Hin). auto.
    + destruct (IH _ _ Hys Hin). auto.
Qed.

(** X8. After [_fix_unused_args] every event of the library has a list of
    participants, and each participant left in it names, as its entity, the
    identifier of an entity or of an event of the library: no participant
    refers to something that is not there. *)
Theorem fix_unused_args_spec (lib lib' ents evs : json) :
  getitem lib "entities" = Ok ents ->
  getitem lib "events" = Ok evs ->
  _fix_unused_args lib = Ok lib' ->
  exists evs',
    getitem lib' "events" = Ok evs'
    /\ forall e', In e' (ensure_list evs') ->
         exists kept,
           getitem e' "participants" = Ok (JArr kept)
           /\ forall p, In p kept ->
                exists x owner,
                  getitem p "entity" = Ok (JStr x)
                  /\ In owner (ensure_list ents ++ ensure_list evs)
                  /\ getitem owner "@id" = Ok (JStr x).
Proof.
  intros Hents Hevs H. unfold _fix_unused_args in H.
  rewrite Hents, Hevs in H. cbn [bind] in H.
  apply bind_Ok in H as (arg_ids & Hids & H).
  apply mapM_Forall2 in Hids.
  apply for_each_in_dicts in H as (v & v' & Hv & Hv' & HF).
  - exists v'. split; [exact Hv'|]. intros e' He'.
    destruct (Forall2_In_r _ _ _ _ HF He') as (e & _ & Hbody).
    apply bind_Ok in Hbody as (ps & _ & Hbody).
    apply bind_Ok in Hbody as (kept & Hkept & Hset).
    exists kept. split; [eapply getitem_setitem_same; eauto|].
    intros p Hp. destruct (filterM_In _ _ _ _ Hkept Hp) as [_ Hpred].
    apply bind_Ok in Hpred as (ent & Hent & Hpred).
    apply bind_Ok in Hpred as (ent' & Hhash & Hpred).
    injection Hpred as Hpred. apply existsb_exists in Hpred as (a & Ha & Heq).
    destruct a as [| | |x| |]; try discriminate.
    destruct ent' as [| | |y| |]; try discriminate.
    apply String.eqb_eq in Heq. subst y.
    assert (ent = JStr x) as -> by (destruct ent; simpl in Hhash; congruence).
    destruct (Forall2_In_r _ _ _ _ Hids Ha) as (owner & Howner & Hid).
    exists x, owner. auto.
  - intros x x' Hbody.
    apply bind_Ok in Hbody as (ps & _ & Hbody).
    apply bind_Ok in Hbody as (kept & _ & Hset).
    destruct x; try discriminate. now injection Hset as <-.
Qed.

Definition dangling_lib : json :=
  JObj [("entities", JArr [JObj [("@id", JStr "ent1")]]);
        ("events",
         JArr [JObj [("@id", JStr "ev1");
                     ("participants",
                      JArr [JObj [("entity", JStr "ent1")];
                            JObj [("entity", JStr "gone")]])];
               JObj [("@id", JStr "ev2")]])].

Lemma fix_unused_args_spec_witness :
  exists evs',
    getitem (JObj [("entities", JArr [JObj [("@id", JStr "ent1")]]);
                   ("events",
                    JArr [JObj [("@id", JStr "ev1");
                                ("participants", JArr [JObj [("entity", JStr "ent1")]])];
                          JObj [("@id", JStr "ev2"); ("participants", JArr [])]])])
            "events" = Ok evs'
    /\ forall e', In e' (ensure_list evs') ->
         exists kept,
           getitem e' "participants" = Ok (JArr kept)
           /\ forall p, In p kept ->
                exists x owner,
                  getitem p "entity" = Ok (JStr x)
                  /\ In owner (ensure_list (JArr [JObj [("@id", JStr "ent1")]])
                               ++ ensure_list
                                    (JArr [JObj [("@id", JStr "ev1");
                                                 ("participants",
                                                  JArr [JObj [("entity", JStr "ent1")];
                                                        JObj [("entity", JStr "gone")]])];
                                           JObj [("@id", JStr "ev2")]]))
                  /\ getitem owner "@id" = Ok (JStr x).
Proof.
  apply (fix_unused_args_spec dangling_lib); reflexivity.
Defined.

(** *** Nodes of Wikidata and placeholders *)

(** The object names a node with the prefix [cmu:]. *)
Definition cmu_node (x : json) : Prop :=
  exists s, get x "wd_node" (JStr "") = Ok (JStr s) /\ String.prefix "cmu:" s = true.

Lemma ensure_wd_values_cmu wiki x :
  cmu_node x -> _ensure_wd_values wiki x = Raise AssertionError.
Proof.
  intros (s & Hget & Hpre). unfold _ensure_wd_values. rewrite Hget. cbn [bind].
  assert (String.prefix "wd:" s = false /\ String.prefix "wdt:" s = false) as [W1 W2].
  { destruct s as [|c s]; [discriminate|]. cbn [String.prefix] in Hpre |- *.
    revert Hpre.
    destruct (ascii_dec "c" c) as [<-|]; [|intros; discriminate]. now split. }
  now rewrite W1, W2, Hpre.
Qed.

Lemma ensure_wd_values_other wiki x x' k :
  _ensure_wd_values wiki x = Ok x' -> k <> "wd_label" -> k <> "wd_description" ->
  getitem x' k = getitem x k.
Proof.
  unfold _ensure_wd_values. intros H Hl Hd.
  apply bind_Ok in H as (w & _ & H). destruct w; try discriminate.
  destruct (_ || _).
  - apply bind_Ok in H as ([label desc] & _ & H).
    apply bind_Ok in H as (x1 & H1 & H2).
    rewrite (getitem_setitem_other _ _ _ _ k H2) by assumption.
    now rewrite (getitem_setitem_other _ _ _ _ k H1) by assumption.
  - destruct (String.prefix "cmu:" s); [discriminate|]. now injection H as <-.
Qed.

(** The elements that a loop [for e in ensure_list(doc[key])] went through
    when it returned. *)
Lemma for_each_in_ran key body doc doc' :
  for_each_in key body doc = Ok doc' ->
  exists v, getitem doc key = Ok v
    /\ forall x, In x (ensure_list v) -> exists x', body x = Ok x'.
Proof.
  unfold for_each_in. intros H. apply bind_Ok in H as (v & Hv & H).
  exists v. split; [exact Hv|].
  destruct v; try (apply bind_Ok in H as (v' & Hb & _); simpl;
                   intros x [<-|[]]; eauto).
  apply bind_Ok in H as (items' & Hm & _). apply mapM_Forall2 in Hm.
  simpl. intros x Hx. destruct (Forall2_In_l _ _ _ _ Hm Hx) as (y & _ & Hy). eauto.
Qed.

(** X9. [_fix_wd_values] returns only for a library without placeholders:
    when it returns, no event, participant of an event, entity or relation
    names a node with the prefix [cmu:].  A placeholder that was not
    replaced by its subschema makes the pass, and with it the composition,
    fail. *)
Theorem fix_wd_values_no_placeholder
    (get_wikidata_values : string -> result (string * string)) (lib lib' : json) :
  _fix_wd_values get_wikidata_values lib = Ok lib' ->
  (forall key v x,
     In key ["events"; "entities"; "relations"] ->
     getitem lib key = Ok v -> In x (ensure_list v) -> ~ cmu_node x)
  /\ (forall evs e ps p,
        getitem lib "events" = Ok evs -> In e (ensure_list evs) ->
        getitem e "participants" = Ok ps -> In p (ensure_list ps) -> ~ cmu_node p).
Proof.
  intros H. unfold _fix_wd_values in H.
  apply bind_Ok in H as (lib1 & H1 & H). apply bind_Ok in H as (lib2 & H2 & H3).
  pose proof (for_each_in_other _ _ _ _ "entities" H1) as E1.
  pose proof (for_each_in_other _ _ _ _ "relations" H1) as R1.
  pose proof (for_each_in_other _ _ _ _ "relations" H2) as R2.
  apply for_each_in_ran in H1 as (evs & Hevs & Hev).
  apply for_each_in_ran in H2 as (ents & Hents & Hent).
  apply for_each_in_ran in H3 as (rels & Hrels & Hrel).
  rewrite E1 in Hents by discriminate.
  rewrite R2, R1 in Hrels by discriminate.
  assert (forall x x', _ensure_wd_values get_wikidata_values x = Ok x' -> ~ cmu_node x)
    as Hno.
  { intros x x' Hx C. rewrite (ensure_wd_values_cmu _ _ C) in Hx. discriminate. }
  split.
  - intros key v x [<-|[<-|[<-|[]]]] Hv Hx.
    + rewrite Hevs in Hv. injection Hv as <-.
      destruct (Hev x Hx) as (x' & Hb). apply bind_Ok in Hb as (x1 & Hb & _). eauto.
    + rewrite Hents in Hv. injection Hv as <-.
      destruct (Hent x Hx) as (x' & Hb). eauto.
    + rewrite Hrels in Hv. injection Hv as <-.
      destruct (Hrel x Hx) as (x' & Hb). eauto.
  - intros evs0 e ps p Hv He Hps Hp.
    rewrite Hevs in Hv. injection Hv as <-.
    destruct (Hev e He) as (e' & Hb). apply bind_Ok in Hb as (e1 & Hb & Hpart).
    pose proof (ensure_wd_values_other _ _ _ "participants" Hb
                  ltac:(discriminate) ltac:(discriminate)) as Hsame.
    rewrite Hps in Hsame.
    assert (has_key "participants" e1 = true) as K by (apply has_key_getitem; eauto).
    rewrite K in Hpart. apply for_each_in_ran in Hpart as (ps' & Hps' & Hran).
    rewrite Hsame in Hps'. injection Hps' as <-.
    destruct (Hran p Hp) as (p' & Hb'). eauto.
Qed.

Definition wiki_lib : json :=
  JObj [("events",
         JArr [JObj [("@id", JStr "ev1"); ("wd_node", JStr "wd:Q1");
                     ("participants", JArr [JObj [("entity", JStr "ent1")]])]]);
        ("entities", JArr [JObj [("@id", JStr "ent1"); ("wd_node", JStr "wdt:Q2")]]);
        ("relations", JArr [])].

Definition wiki_values (node : string) : result (string * string) :=
  Ok ("label of " ++ node, "about " ++ node)%string.

Lemma fix_wd_values_no_placeholder_witness :
  (forall key v x,
     In key ["events"; "entities"; "relations"] ->
     getitem wiki_lib key = Ok v -> In x (ensure_list v) -> ~ cmu_node x)
  /\ (forall evs e ps p,
        getitem wiki_lib "events" = Ok evs -> In e (ensure_list evs) ->
        getitem e "participants" = Ok ps -> In p (ensure_list ps) -> ~ cmu_node p).
Proof.
  apply (fix_wd_values_no_placeholder wiki_values wiki_lib
           (JObj [("events",
                   JArr [JObj [("@id", JStr "ev1"); ("wd_node", JStr "wd:Q1");
                               ("participants", JArr [JObj [("entity", JStr "ent1")]]);
                               ("wd_label", JStr "label of Q1");
                               ("wd_description", JStr "about Q1")]]);
                  ("entities",
                   JArr [JObj [("@id", JStr "ent1"); ("wd_node", JStr "wdt:Q2");
                               ("wd_label", JStr "label of Q2");
                               ("wd_description", JStr "about Q2")]]);
                  ("relations", JArr [])])).
  reflexivity.
Defined.

(** ** Removing keys at every depth *)

Lemma assoc_removed_in to_remove k fields :
  In k to_remove ->
  assoc k (flat_map (fun kv : string * json =>
                       let (k', v) := kv in
                       if existsb (String.eqb k') to_remove then []
                       else [(k', remove_walk to_remove v)]) fields) = None.
Proof.
  intros Hk. induction fields as [|[k' v] fields IH]; simpl; auto.
  destruct (existsb (String.eqb k') to_remove) eqn:E; simpl; auto.
  destruct (String.eqb_spec k k') as [->|_]; auto.
  assert (existsb (String.eqb k') to_remove = true) as E'.
  { apply existsb_exists. exists k'. split; auto. apply String.eqb_refl. }
  congruence.
Qed.

Lemma assoc_removed_out to_remove k fields :
  ~ In k to_remove ->
  assoc k (flat_map (fun kv : string * json =>
                       let (k', v) := kv in
                       if existsb (String.eqb k') to_remove then []
                       else [(k', remove_walk to_remove v)]) fields)
  = option_map (remove_walk to_remove) (assoc k fields).
Proof.
  intros Hk. induction fields as [|[k' v] fields IH]; simpl; auto.
  destruct (String.eqb_spec k k') as [<-|Hne].
  - destruct (existsb (String.eqb k) to_remove) eqn:E; simpl.
    + apply existsb_exists in E as (x & Hx & E). apply String.eqb_eq in E.
      subst x. contradiction.
    + now rewrite String.eqb_refl.
  - destruct (existsb (String.eqb k') to_remove); simpl; auto.
    apply String.eqb_neq in Hne. now rewrite Hne.
Qed.

Lemma nth_error_map_walk (f : json -> json) items i :
  nth_error (map f items) i = option_map f (nth_error items i).
Proof. apply nth_error_map. Qed.

(** A removed key is found nowhere. *)
Lemma remove_walk_gone to_remove k :
  In k to_remove ->
  forall p obj, get_at (remove_walk to_remove obj) (p ++ [Key k]) = None.
Proof.
  intros Hk. induction p as [|[k'|i] p IH]; intros obj.
  - destruct obj; simpl; auto. now rewrite assoc_removed_in.
  - destruct obj; simpl; auto.
    destruct (in_dec string_dec k' to_remove) as [Hin|Hout].
    + now rewrite assoc_removed_in.
    + rewrite assoc_removed_out by assumption.
      destruct (assoc k' fields); simpl; auto.
  - destruct obj; simpl; auto. rewrite nth_error_map_walk.
    destruct (nth_error items i); simpl; auto.
Qed.

(** The path does not go through a removed key. *)
Definition avoids (to_remove : list string) (p : path) : Prop :=
  forall k, In (Key k) p -> ~ In k to_remove.

(** What is not under a removed key stays where it was. *)
Lemma remove_walk_kept to_remove :
  forall p obj x, avoids to_remove p -> get_at obj p = Some x ->
  get_at (remove_walk to_remove obj) p = Some (remove_walk to_remove x).
Proof.
  induction p as [|[k'|i] p IH]; intros obj x Hp H.
  - simpl in *. congruence.
  - destruct obj; simpl in *; try discriminate.
    rewrite assoc_removed_out by (apply Hp; now left).
    destruct (assoc k' fields); simpl; [|discriminate].
    apply IH; auto. intros k Hk. apply Hp. now right.
  - destruct obj; simpl in *; try discriminate.
    rewrite nth_error_map_walk.
    destruct (nth_error items i); simpl; [|discriminate].
    apply IH; auto. intros k Hk. apply Hp. now right.
Qed.

(** Nothing appears where nothing was. *)
Lemma remove_walk_absent to_remove :
  forall p obj, get_at obj p = None -> get_at (remove_walk to_remove obj) p = None.
Proof.
  induction p as [|[k'|i] p IH]; intros obj H.
  - discriminate.
  - destruct obj; simpl in *; auto.
    destruct (in_dec string_dec k' to_remove) as [Hin|Hout].
    + now rewrite assoc_removed_in.
    + rewrite assoc_removed_out by assumption.
      destruct (assoc k' fields); simpl; auto.
  - destruct obj; simpl in *; auto. rewrite nth_error_map_walk.
    destruct (nth_error items i); simpl; auto.
Qed.

Lemma remove_walk_twice to_remove obj :
  remove_walk to_remove (remove_walk to_remove obj) = remove_walk to_remove obj.
Proof.
  induction obj as [| | | |items IH|fields IH] using json_induction; simpl; auto.
  - f_equal. rewrite map_map. apply map_ext_in. intros x Hx.
    rewrite Forall_forall in IH. now apply IH.
  - f_equal. induction fields as [|[k v] fields IHf]; simpl; auto.
    inversion IH as [|? ? Hv Hrest]; subst.
    destruct (existsb (String.eqb k) to_remove) eqn:E; simpl; auto.
    rewrite E. simpl in *. rewrite Hv. f_equal. auto.
Qed.

Lemma recursive_remove_Ok obj to_remove obj' :
  recursive_remove obj to_remove = Ok obj' -> obj' = remove_walk to_remove obj.
Proof. destruct obj; unfold recursive_remove; congruence. Qed.

(** X10. [recursive_remove] takes the given keys out of the dicts at every
    depth: in the result no path ends in one of them, everything reached
    without going through one of them is where it was (with the keys taken
    out below it), and a second call changes nothing. *)
Theorem recursive_remove_spec (obj obj' : json) (to_remove : list string) :
  recursive_remove obj to_remove = Ok obj' ->
  (forall p k, In k to_remove -> get_at obj' (p ++ [Key k]) = None)
  /\ (forall p x, avoids to_remove p -> get_at obj p = Some x ->
      get_at obj' p = Some (remove_walk to_remove x))
  /\ recursive_remove obj' to_remove = Ok obj'.
Proof.
  intros H. pose proof (recursive_remove_Ok _ _ _ H) as ->.
  split; [|split].
  - intros p k Hk. now apply remove_walk_gone.
  - intros p x. apply remove_walk_kept.
  - destruct obj; try discriminate; unfold recursive_remove;
      rewrite <- (remove_walk_twice to_remove) at 2; reflexivity.
Qed.

Definition sourced_doc : json :=
  JObj [("@id", JStr "cmu:Schema/s"); ("provenance", JStr "p0");
        ("events",
         JArr [JObj [("@id", JStr "e1"); ("provenance", JArr [JStr "p1"]);
                     ("participants",
                      JArr [JObj [("entity", JStr "x"); ("provenance", JStr "p2")]])]])].

Lemma recursive_remove_spec_witness :
  (forall p k, In k ["provenance"] ->
     get_at (JObj [("@id", JStr "cmu:Schema/s");
                   ("events",
                    JArr [JObj [("@id", JStr "e1");
                                ("participants", JArr [JObj [("entity", JStr "x")]])]])])
            (p ++ [Key k]) = None)
  /\ (forall p x, avoids ["provenance"] p -> get_at sourced_doc p = Some x ->
      get_at (JObj [("@id", JStr "cmu:Schema/s");
                    ("events",
                     JArr [JObj [("@id", JStr "e1");
                                 ("participants", JArr [JObj [("entity", JStr "x")]])]])])
             p = Some (remove_walk ["provenance"] x))
  /\ recursive_remove
       (JObj [("@id", JStr "cmu:Schema/s");
              ("events",
               JArr [JObj [("@id", JStr "e1");
                           ("participants", JArr [JObj [("entity", JStr "x")]])]])])
       ["provenance"]
     = Ok (JObj [("@id", JStr "cmu:Schema/s");
                 ("events",
                  JArr [JObj [("@id", JStr "e1");
                              ("participants", JArr [JObj [("entity", JStr "x")]])]])]).
Proof.
  apply (recursive_remove_spec sourced_doc). reflexivity.
Defined.

Section Clean.

Variables (validate_document : json -> bool) (uuid4 : nat -> string).
Variables (encode : text -> list Byte.byte) (blake2b : list Byte.byte -> list Byte.byte).
Variables (jsonld_context : json) (sdf_version : string).
Variable get_wikidata_values : string -> result (string * string).

(** X11. A library composed by [package_schemas] holds no [provenance] and
    no [outlink_gate] key, at any depth. *)
Theorem composed_library_clean (fuel : nat) (name : string) (schema_ids : list string)
    (tbl : table) (library : json) :
  package_schemas validate_document uuid4 encode blake2b jsonld_context sdf_version
    get_wikidata_values fuel name schema_ids tbl = Ok library ->
  forall p,
    get_at library (p ++ [Key "provenance"]) = None
    /\ get_at library (p ++ [Key "outlink_gate"]) = None.
Proof.
  unfold package_schemas. intros H p.
  apply bind_Ok in H as ([l1 d1] & _ & H).
  apply bind_Ok in H as ([l2 d2] & _ & H).
  apply bind_Ok in H as ([l3 d3] & _ & H).
  apply bind_Ok in H as (l4 & _ & H).
  apply bind_Ok in H as (l5 & _ & H).
  apply bind_Ok in H as (l6 & _ & H).
  apply bind_Ok in H as (l7 & H7 & H8).
  apply recursive_remove_Ok in H7 as ->. apply recursive_remove_Ok in H8 as ->.
  split.
  - apply remove_walk_absent. apply remove_walk_gone. now left.
  - apply remove_walk_gone. now left.
Qed.

End Clean.

(** The library that [compose_purchase] computes. *)
Definition shop_library : json :=
  Eval vm_compute in
    match package_schemas (fun _ => true) uuid_of (fun _ => [])
            (fun _ => [Byte.x01; Byte.x02]) JNull "2.3" (fun node => Ok (node, node))
            20 "shop" ["cmu:Schema/purchase"; "cmu:Schema/payment"] purchase_store with
    | Ok library => library
    | Raise _ => JNull
    end.

Lemma composed_library_clean_witness :
  package_schemas (fun _ => true) uuid_of (fun _ => [])
    (fun _ => [Byte.x01; Byte.x02]) JNull "2.3" (fun node => Ok (node, node))
    20 "shop" ["cmu:Schema/purchase"; "cmu:Schema/payment"] purchase_store
  = Ok shop_library
  /\ forall p,
       get_at shop_library (p ++ [Key "provenance"]) = None
       /\ get_at shop_library (p ++ [Key "outlink_gate"]) = None.
Proof.
  split; [vm_compute; reflexivity|].
  apply (composed_library_clean (fun _ => true) uuid_of (fun _ => [])
           (fun _ => [Byte.x01; Byte.x02]) JNull "2.3" (fun node => Ok (node, node))
           20 "shop" ["cmu:Schema/purchase"; "cmu:Schema/payment"] purchase_store).
  vm_compute. reflexivity.
Defined.

(** ** Placeholders that are left alone *)

Section Placeholders.

Variables (validate_document : json -> bool) (uuid4 : nat -> string).

(** The loop of [inject_subschemas] steps over the event: it is no
    placeholder, or it names a schema that the store does not have or whose
    content does not validate. *)
Definition stepped_over (tbl : table) (event : json) : Prop :=
  is_subschema_event event = Ok false
  \/ (is_subschema_event event = Ok true
      /\ exists schema_id,
           getitem event "wd_node" = Ok (JStr schema_id)
           /\ (select_by_atId schema_id tbl = []
               \/ exists r rest,
                    select_by_atId schema_id tbl = r :: rest
                    /\ loads_sdf validate_document (data r) = Raise ValidationError)).

Lemma inject_loop_steps_over tbl draws lib evs :
  getitem lib "events" = Ok evs ->
  (forall e, In e (ensure_list evs) -> stepped_over tbl e) ->
  forall fuel i,
    (length (ensure_list evs) - i < fuel)%nat ->
    inject_loop validate_document uuid4 fuel tbl draws lib i = Ok (lib, draws).
Proof.
  intros Hevs Hall. induction fuel as [|fuel IH]; intros i Hfuel; [lia|].
  cbn [inject_loop]. rewrite Hevs. cbn [bind].
  destruct (nth_error (ensure_list evs) i) as [event|] eqn:E; [|reflexivity].
  assert (i < length (ensure_list evs))%nat as Hi
    by (apply nth_error_Some; congruence).
  assert (inject_loop validate_document uuid4 fuel tbl draws lib (S i) = Ok (lib, draws))
    as Hnext by (apply IH; lia).
  destruct (Hall event (nth_error_In _ _ E)) as [Hno|(Hyes & schema_id & Hw & Hrow)].
  - rewrite Hno. cbn [bind]. exact Hnext.
  - rewrite Hyes. cbn [bind]. rewrite Hw. cbn [bind as_str].
    destruct Hrow as [->|(r & rest & -> & ->)]; exact Hnext.
Qed.

(** X12. [inject_subschemas] returns the library as it is, and draws no
    identifier, when every event is stepped over: no event is a placeholder,
    or each placeholder names a schema that is missing from the store or
    does not validate.  The loop ends: fuel above the number of events is
    enough. *)
Theorem inject_subschemas_steps_over (fuel : nat) (tbl : table) (draws : nat)
    (lib evs : json) :
  getitem lib "events" = Ok evs ->
  (forall e, In e (ensure_list evs) -> stepped_over tbl e) ->
  (length (ensure_list evs) < fuel)%nat ->
  inject_subschemas validate_document uuid4 fuel tbl draws lib = Ok (lib, draws).
Proof.
  intros Hevs Hall Hfuel. unfold inject_subschemas.
  apply inject_loop_steps_over with evs; auto. lia.
Qed.

End Placeholders.

Definition lone_lib : json :=
  JObj [("events",
         JArr [JObj [("@id", JStr "ev1"); ("wd_node", JStr "wd:Q1")];
               JObj [("@id", JStr "ev2"); ("wd_node", JStr "cmu:Schema/absent");
                     ("participants", JArr [])];
               JObj [("@id", JStr "ev3")]])].

Lemma inject_subschemas_steps_over_witness :
  inject_subschemas (fun _ => true) uuid_of 4 purchase_store 0 lone_lib
  = Ok (lone_lib, O).
Proof.
  apply (inject_subschemas_steps_over (fun _ => true) uuid_of 4 purchase_store 0 lone_lib
           (JArr [JObj [("@id", JStr "ev1"); ("wd_node", JStr "wd:Q1")];
                  JObj [("@id", JStr "ev2"); ("wd_node", JStr "cmu:Schema/absent");
                        ("participants", JArr [])];
                  JObj [("@id", JStr "ev3")]])).
  - reflexivity.
  - intros e He. simpl in He. destruct He as [<-|[<-|[<-|[]]]].
    + left. reflexivity.
    + right. split; [reflexivity|]. exists "cmu:Schema/absent".
      split; [reflexivity|]. left. reflexivity.
    + left. reflexivity.
  - simpl. lia.
Defined.

(** ** What a library takes from a schema *)

(** The object carries [tag] as the identifier of the document it came
    from. *)
Definition tagged (tag x : json) : Prop :=
  exists pd, getitem x "privateData" = Ok pd
             /\ getitem pd "originalDocumentId" = Ok tag.

Lemma tag_object_tagged tag obj x : _tag_object tag obj = Ok x -> tagged tag x.
Proof.
  unfold _tag_object. intros H. split_binds H.
  exists a0. split; eapply getitem_setitem_same; eauto.
Qed.

Lemma get_setitem_other e k v e' k0 d :
  setitem e k v = Ok e' -> k0 <> k -> get e' k0 d = get e k0 d.
Proof.
  destruct e; try discriminate. intros [= <-] Hne. unfold get.
  now rewrite assoc_set_other.
Qed.

Lemma get_setitem_same e k v e' d : setitem e k v = Ok e' -> get e' k d = Ok v.
Proof.
  destruct e; try discriminate. intros [= <-]. unfold get.
  now rewrite assoc_set_same.
Qed.

(** An entity that went through the loop [isSchemaArg = False] and was
    tagged is no schema argument. *)
Lemma cleared_is_no_arg tag e e1 x :
  clear_schema_arg e = Ok e1 -> _tag_object tag e1 = Ok x ->
  is_schema_arg x = Ok false.
Proof.
  unfold clear_schema_arg, _tag_object, is_schema_arg. intros Hc Ht.
  apply bind_Ok in Hc as (pd0 & Hpd0 & Hc). apply bind_Ok in Hc as (pd0' & Hset0 & Hc).
  apply bind_Ok in Ht as (pd1 & Hpd1 & Ht). apply bind_Ok in Ht as (pd1' & Hset1 & Ht).
  rewrite (get_setitem_same _ _ _ _ _ Ht). cbn [bind].
  rewrite (get_setitem_other _ _ _ _ "isSchemaArg" _ Hset1) by discriminate.
  destruct e as [| | | | |fields]; try discriminate.
  unfold get in Hpd0. destruct (assoc "privateData" fields) as [pd|] eqn:A.
  - injection Hpd0 as <-.
    rewrite (get_setitem_same _ _ _ _ _ Hc) in Hpd1. injection Hpd1 as <-.
    now rewrite (get_setitem_same _ _ _ _ _ Hset0).
  - injection Hc as <-. unfold get in Hpd1. rewrite A in Hpd1.
    injection Hpd1 as <-. reflexivity.
Qed.

Lemma extend_Ok lib key items lib' :
  extend lib key items = Ok lib' ->
  exists old, getitem lib key = Ok (JArr old)
              /\ getitem lib' key = Ok (JArr (old ++ items)).
Proof.
  unfold extend. intros H. apply bind_Ok in H as (v & Hv & H).
  destruct v; try discriminate. exists items0. split; auto.
  eapply getitem_setitem_same; eauto.
Qed.

Lemma mapM_In {A B} (f : A -> result B) l :
  forall l' y, mapM f l = Ok l' -> In y l' -> exists x, In x l /\ f x = Ok y.
Proof.
  intros l' y H Hy. apply mapM_Forall2 in H.
  destruct (Forall2_In_r _ _ _ _ H Hy) as (x & Hx & Hf). eauto.
Qed.

(** [x] is [src] with nothing changed but, in its private data, the keys
    [changed]. *)
Definition copy_but (changed : list string) (src x : json) : Prop :=
  (forall k, k <> "privateData" -> getitem x k = getitem src k)
  /\ forall k d, ~ In k changed ->
       (pd <- get x "privateData" (JObj []) ;; get pd k d)
       = (pd <- get src "privateData" (JObj []) ;; get pd k d).

Lemma copy_but_trans c1 c2 x y z :
  copy_but c1 x y -> copy_but c2 y z -> copy_but (c1 ++ c2) x z.
Proof.
  intros [K1 P1] [K2 P2]. split.
  - intros k Hk. now rewrite K2, K1.
  - intros k d Hk. rewrite P2, P1; auto; intros H; apply Hk, in_or_app; auto.
Qed.

Lemma tag_object_copy tag obj x :
  _tag_object tag obj = Ok x -> copy_but ["originalDocumentId"] obj x.
Proof.
  unfold _tag_object. intros H.
  apply bind_Ok in H as (pd & Hpd & H). apply bind_Ok in H as (pd' & Hset & H).
  split.
  - intros k Hk. eapply getitem_setitem_other; eauto.
  - intros k d Hk. rewrite (get_setitem_same _ _ _ _ _ H), Hpd. cbn [bind].
    eapply get_setitem_other; eauto. intros ->. apply Hk. now left.
Qed.

Lemma clear_schema_arg_copy e e1 :
  clear_schema_arg e = Ok e1 -> copy_but ["isSchemaArg"] e e1.
Proof.
  unfold clear_schema_arg. intros H.
  apply bind_Ok in H as (pd & Hpd & H). apply bind_Ok in H as (pd' & Hset & H).
  destruct e as [| | | | |fields]; try discriminate.
  destruct (assoc "privateData" fields) as [old|] eqn:A.
  - split.
    + intros k Hk. eapply getitem_setitem_other; eauto.
    + intros k d Hk. rewrite (get_setitem_same _ _ _ _ _ H), Hpd. cbn [bind].
      eapply get_setitem_other; eauto. intros ->. apply Hk. now left.
  - injection H as <-. split; reflexivity.
Qed.

Lemma filterM_filter {A} (p : A -> result bool) (q : A -> bool) l :
  forall kept,
  filterM p l = Ok kept ->
  (forall a b, In a l -> p a = Ok b -> q a = b) ->
  kept = filter q l.
Proof.
  induction l as [|a l IH]; simpl; intros kept H Hq.
  - now injection H as <-.
  - apply bind_Ok in H as (b & Hb & H). apply bind_Ok in H as (ys & Hys & H).
    injection H as <-. rewrite (Hq a b) by auto.
    rewrite (IH ys Hys) by eauto. reflexivity.
Qed.

(** The objects of a collection of the schema, and the ones of them that
    [_add_to_library] takes: of the entities, with [remove_args], those that
    are no schema arguments. *)
Definition collection (schema : json) (key : string) : list json :=
  match get schema key (JArr []) with
  | Ok v => Util.ensure_list v
  | Raise _ => []
  end.

Definition kept_entity (remove_args : bool) (e : json) : bool :=
  negb (remove_args && match is_schema_arg e with
                       | Ok flag => flag
                       | Raise _ => false
                       end).

Definition taken (schema : json) (remove_args : bool) (key : string) : list json :=
  if String.eqb key "entities"
  then filter (kept_entity remove_args) (collection schema key)
  else collection schema key.

(** The keys of the private data that the passage into the library sets. *)
Definition set_in_private (key : string) : list string :=
  if String.eqb key "entities" then ["isSchemaArg"; "originalDocumentId"]
  else ["originalDocumentId"].

Lemma getitem_collection schema key v :
  getitem schema key = Ok v -> collection schema key = Util.ensure_list v.
Proof.
  unfold getitem, collection, get. destruct schema; try discriminate.
  destruct (assoc key fields); [|discriminate]. now intros [= ->].
Qed.

Lemma get_collection schema key v :
  get schema key (JArr []) = Ok v -> collection schema key = Util.ensure_list v.
Proof. unfold collection. now intros ->. Qed.

Lemma Forall2_mapM_copy tag l l' :
  mapM (_tag_object tag) l = Ok l' -> Forall2 (copy_but ["originalDocumentId"]) l l'.
Proof.
  intros H. apply mapM_Forall2 in H. revert H. apply Forall2_impl.
  intros a b. exact (tag_object_copy tag a b).
Qed.

(** X13. [_add_to_library] appends to each of the four collections of the
    library the objects of that collection of the schema, in their order (of
    the entities, with [remove_args], those that are no schema arguments),
    leaving what the library held in front and every other key of the
    library as it was.  An appended object is the object of the schema with
    only its private data changed: it carries the identifier of the schema
    as [originalDocumentId], an entity is no schema argument, and the other
    keys of the private data are what they were. *)
Theorem add_to_library_tags (library schema : json) (remove_args : bool)
    (library' tag : json) :
  getitem schema "@id" = Ok tag ->
  _add_to_library library schema remove_args = Ok library' ->
  (forall key, In key ["events"; "entities"; "relations"; "provenanceData"] ->
     exists old added,
       getitem library key = Ok (JArr old)
       /\ getitem library' key = Ok (JArr (old ++ added))
       /\ Forall2 (copy_but (set_in_private key)) (taken schema remove_args key) added
       /\ (forall x, In x added -> tagged tag x)
       /\ (key = "entities" -> forall x, In x added -> is_schema_arg x = Ok false))
  /\ forall k, ~ In k ["events"; "entities"; "relations"; "provenanceData"] ->
       getitem library' k = getitem library k.
Proof.
  intros Htag H. unfold _add_to_library in H. rewrite Htag in H. cbn [bind] in H.
  apply bind_Ok in H as (evs & Gevs & H).
  apply bind_Ok in H as (evs' & Hevs' & H).
  apply bind_Ok in H as (lib1 & X1 & H).
  apply bind_Ok in H as (ents & Gents & H).
  apply bind_Ok in H as (ents1 & Hents1 & H).
  apply bind_Ok in H as (ents2 & Hents2 & H).
  apply bind_Ok in H as (ents3 & Hents3 & H).
  apply bind_Ok in H as (lib2 & X2 & H).
  apply bind_Ok in H as (rels & Grels & H).
  apply bind_Ok in H as (rels' & Hrels' & H).
  apply bind_Ok in H as (lib3 & X3 & H).
  apply bind_Ok in H as (prov & Gprov & H).
  apply bind_Ok in H as (prov' & Hprov' & X4).
  assert (forall l l', mapM (_tag_object tag) l = Ok l' ->
          forall x, In x l' -> tagged tag x) as Htagged.
  { intros l l' Hm x Hx. destruct (mapM_In _ _ _ _ Hm Hx) as (y & _ & Hy).
    eapply tag_object_tagged; eauto. }
  split.
  - intros key [<-|[<-|[<-|[<-|[]]]]].
    + destruct (extend_Ok _ _ _ _ X1) as (old & Ho & Hn). exists old, evs'.
      rewrite (extend_other _ _ _ _ "events" X4), (extend_other _ _ _ _ "events" X3),
              (extend_other _ _ _ _ "events" X2) by discriminate.
      repeat split; eauto; [|discriminate].
      unfold taken, set_in_private. cbn [String.eqb Ascii.eqb Bool.eqb].
      rewrite (getitem_collection _ _ _ Gevs). now apply (Forall2_mapM_copy tag).
    + destruct (extend_Ok _ _ _ _ X2) as (old & Ho & Hn). exists old, ents3.
      rewrite (extend_other _ _ _ _ "entities" X4), (extend_other _ _ _ _ "entities" X3)
        by discriminate.
      rewrite (extend_other _ _ _ _ "entities" X1) in Ho by discriminate.
      repeat split; eauto.
      * unfold taken, set_in_private. rewrite String.eqb_refl.
        rewrite (getitem_collection _ _ _ Gents).
        rewrite <- (filterM_filter _ (kept_entity remove_args) _ _ Hents1).
        -- apply mapM_Forall2 in Hents2, Hents3.
           clear - Hents2 Hents3. revert ents3 Hents3.
           induction Hents2 as [|e e1 l l1 Hc _ IH]; intros ents3 Hents3;
             inversion Hents3 as [|? x ? l3 Ht Hrest]; subst; constructor.
           ++ apply (copy_but_trans ["isSchemaArg"] ["originalDocumentId"] e e1 x).
              ** now apply clear_schema_arg_copy.
              ** exact (tag_object_copy _ _ _ Ht).
           ++ now apply IH.
        -- intros a b _. unfold kept_entity. destruct remove_args; cbn [andb negb].
           ++ intros Hp. apply bind_Ok in Hp as (flag & -> & Hp). now injection Hp as <-.
           ++ now intros [= <-].
      * intros _ x Hx. destruct (mapM_In _ _ _ _ Hents3 Hx) as (e1 & He1 & Ht).
        destruct (mapM_In _ _ _ _ Hents2 He1) as (e & _ & Hc).
        eapply cleared_is_no_arg; eauto.
    + destruct (extend_Ok _ _ _ _ X3) as (old & Ho & Hn). exists old, rels'.
      rewrite (extend_other _ _ _ _ "relations" X4) by discriminate.
      rewrite (extend_other _ _ _ _ "relations" X2),
              (extend_other _ _ _ _ "relations" X1) in Ho by discriminate.
      repeat split; eauto; [|discriminate].
      unfold taken, set_in_private. cbn [String.eqb Ascii.eqb Bool.eqb].
      rewrite (get_collection _ _ _ Grels). now apply (Forall2_mapM_copy tag).
    + destruct (extend_Ok _ _ _ _ X4) as (old & Ho & Hn). exists old, prov'.
      rewrite (extend_other _ _ _ _ "provenanceData" X3),
              (extend_other _ _ _ _ "provenanceData" X2),
              (extend_other _ _ _ _ "provenanceData" X1) in Ho by discriminate.
      repeat split; eauto; [|discriminate].
      unfold taken, set_in_private. cbn [String.eqb Ascii.eqb Bool.eqb].
      rewrite (get_collection _ _ _ Gprov). now apply (Forall2_mapM_copy tag).
  - intros k Hk.
    rewrite (extend_other _ _ _ _ k X4), (extend_other _ _ _ _ k X3),
            (extend_other _ _ _ _ k X2), (extend_other _ _ _ _ k X1);
      [reflexivity|..]; intros ->; apply Hk; simpl; auto.
Qed.

Definition blank_library : json :=
  JObj [("@id", JStr "cmu:Schema/lib"); ("events", JArr []); ("relations", JArr []);
        ("entities", JArr []); ("provenanceData", JArr [])].

(** A schema with an argument, an entity with private data of its own and
    an entity without, and the library after it was added with
    [remove_args]. *)
Definition visit_doc : json :=
  JObj [("@id", JStr "cmu:Schema/visit");
        ("entities",
         JArr [JObj [("@id", JStr "cmu:Entities/guest");
                     ("privateData", JObj [("isSchemaArg", JBool true)])];
               JObj [("@id", JStr "cmu:Entities/host");
                     ("privateData", JObj [("source", JStr "manual")])];
               JObj [("@id", JStr "cmu:Entities/place")]]);
        ("events",
         JArr [JObj [("@id", JStr "cmu:Events/arrive"); ("name", JStr "arrive")]]);
        ("relations", JArr [JObj [("@id", JStr "cmu:Relations/at")]])].

Definition visit_in_library : json :=
  JObj [("@id", JStr "cmu:Schema/lib");
        ("events",
         JArr [JObj [("@id", JStr "cmu:Events/arrive"); ("name", JStr "arrive");
                     ("privateData",
                      JObj [("originalDocumentId", JStr "cmu:Schema/visit")])]]);
        ("relations",
         JArr [JObj [("@id", JStr "cmu:Relations/at");
                     ("privateData",
                      JObj [("originalDocumentId", JStr "cmu:Schema/visit")])]]);
        ("entities",
         JArr [JObj [("@id", JStr "cmu:Entities/host");
                     ("privateData",
                      JObj [("source", JStr "manual");
                            ("isSchemaArg", JBool false);
                            ("originalDocumentId", JStr "cmu:Schema/visit")])];
               JObj [("@id", JStr "cmu:Entities/place");
                     ("privateData",
                      JObj [("originalDocumentId", JStr "cmu:Schema/visit")])]]);
        ("provenanceData", JArr [])].

Lemma add_to_library_tags_witness :
  _add_to_library blank_library visit_doc true = Ok visit_in_library
  /\ (forall key, In key ["events"; "entities"; "relations"; "provenanceData"] ->
      exists old added,
        getitem blank_library key = Ok (JArr old)
        /\ getitem visit_in_library key = Ok (JArr (old ++ added))
        /\ Forall2 (copy_but (set_in_private key)) (taken visit_doc true key) added
        /\ (forall x, In x added -> tagged (JStr "cmu:Schema/visit") x)
        /\ (key = "entities" ->
            forall x, In x added -> is_schema_arg x = Ok false))
  /\ forall k, ~ In k ["events"; "entities"; "relations"; "provenanceData"] ->
       getitem visit_in_library k = getitem blank_library k.
Proof.
  split; [reflexivity|].
  apply (add_to_library_tags blank_library visit_doc true visit_in_library
           (JStr "cmu:Schema/visit")); reflexivity.
Defined.

(** ** The digest in base 62 *)

Lemma le_value_inj b1 :
  forall b2, length b1 = length b2 -> le_value b1 = le_value b2 -> b1 = b2.
Proof.
  induction b1 as [|x b1 IH]; intros [|y b2]; cbn [le_value length];
    try discriminate; auto.
  intros [= L] H.
  pose proof (Byte.to_N_bounded x). pose proof (Byte.to_N_bounded y).
  assert (Byte.to_N x = Byte.to_N y /\ le_value b1 = le_value b2) as [Hxy Hrest] by lia.
  f_equal; [|now apply IH].
  pose proof (Byte.of_to_N x) as Hx. rewrite Hxy, Byte.of_to_N in Hx. congruence.
Qed.

(** X14. [digest_to_base62] loses nothing of a digest of a given size: two
    digests of the same number of bytes with the same text are the same
    digest, so libraries composed from inputs with different digests get
    different names. *)
Theorem digest_to_base62_injective (b1 b2 : list Byte.byte) :
  length b1 = length b2 ->
  digest_to_base62 b1 = digest_to_base62 b2 ->
  b1 = b2.
Proof.
  unfold digest_to_base62. intros L H. apply le_value_inj; auto.
  rewrite <- (to_base62_value (le_value b1)), <- (to_base62_value (le_value b2)).
  now rewrite H.
Qed.

Lemma digest_to_base62_injective_witness :
  digest_to_base62 [Byte.x01; Byte.x02] = "H8"
  /\ [Byte.x01; Byte.x02] = [Byte.x01; Byte.x02].
Proof.
  split; [reflexivity|].
  apply (digest_to_base62_injective [Byte.x01; Byte.x02] [Byte.x01; Byte.x02]);
    reflexivity.
Defined.

(** ** Archives *)

(** X15. [zip_schemas] writes one entry for each selected row whose content
    validates, in the order of the rows: the entries are those of the
    documents that [package_schemas] loads for the same identifiers, each
    named after the last segment of its [@id] with [.json] appended and
    holding the stored text.  Identifiers without a row and rows that fail
    validation leave no entry. *)
Theorem zip_schemas_entries (validate_document : json -> bool)
    (schema_ids : list string) (tbl : table) (entries : list (string * text)) :
  zip_schemas validate_document schema_ids tbl = Ok entries ->
  exists schemas,
    load_valid validate_document (select_in schema_ids tbl) = Ok schemas
    /\ Forall2 (fun schema entry =>
                  exists s, getitem schema "@id" = Ok (JStr s)
                            /\ entry = ((last_segment "/" s ++ ".json")%string,
                                        json_dumps schema))
               schemas entries.
Proof.
  unfold zip_schemas. generalize (select_in schema_ids tbl). intros rows.
  revert entries. induction rows as [|r rows IH]; simpl; intros entries H.
  - injection H as <-. exists []. split; [reflexivity|constructor].
  - destruct (loads_sdf validate_document (data r)) as [schema|e] eqn:L.
    + apply bind_Ok in H as (i & Hi & H). apply bind_Ok in H as (s & Hs & H).
      apply bind_Ok in H as (rest & Hrest & H). injection H as <-.
      destruct (IH _ Hrest) as (schemas & Hl & HF).
      exists (schema :: schemas). rewrite Hl. split; [reflexivity|].
      constructor; [|exact HF].
      exists s. destruct i; try discriminate. injection Hs as ->.
      split; [exact Hi|]. f_equal.
      unfold loads_sdf in L. apply bind_Ok in L as (j & Hj & Hv).
      destruct (data r); [discriminate|]. injection Hj as ->.
      unfold validate_type in Hv. destruct j; try discriminate.
      destruct (validate_document _); [|discriminate]. now injection Hv as <-.
    + destruct e; try discriminate. apply IH. exact H.
Qed.

Lemma zip_schemas_entries_witness :
  zip_schemas sample_shape ["cmu:Schema/old"; "cmu:Schema/none"; "cmu:Schema/broken"]
    broken_store
  = Ok [("old.json", Dumps flagged_doc)]
  /\ exists schemas,
       load_valid sample_shape
         (select_in ["cmu:Schema/old"; "cmu:Schema/none"; "cmu:Schema/broken"]
                    broken_store) = Ok schemas
       /\ Forall2 (fun schema entry =>
                     exists s, getitem schema "@id" = Ok (JStr s)
                               /\ entry = ((last_segment "/" s ++ ".json")%string,
                                           json_dumps schema))
                  schemas [("old.json", Dumps flagged_doc)].
Proof.
  split; [reflexivity|].
  apply (zip_schemas_entries sample_shape
           ["cmu:Schema/old"; "cmu:Schema/none"; "cmu:Schema/broken"] broken_store).
  reflexivity.
Defined.

(** ** Composing nothing *)

Section Nothing.

Variables (validate_document : json -> bool) (uuid4 : nat -> string).
Variables (encode : text -> list Byte.byte) (blake2b : list Byte.byte -> list Byte.byte).
Variables (jsonld_context : json) (sdf_version : string).
Variable get_wikidata_values : string -> result (string * string).


End Nothing.


(** ** Mapping over a document *)

Lemma map_over_dict_eq f accepted x :
  map_over_dict f accepted x =
    if existsb (isinstance x) accepted then f x
    else match x with
         | JObj fields =>
             JObj (map (fun kv => (fst kv, map_over_dict f accepted (snd kv))) fields)
         | JArr items => JArr (map (map_over_dict f accepted) items)
         | _ => x
         end.
Proof.
  destruct x; cbn [map_over_dict]; try reflexivity.
  destruct (existsb _ accepted); [reflexivity|]. f_equal. apply map_ext. now intros [k v].
Qed.

(** X16. Two runs of [map_over_dict] with the same accepted types are one
    run with the composed function, as long as the first function returns
    values of an accepted type for values of an accepted type. *)
Theorem map_over_dict_compose (f g : json -> json) (accepted : list pytype) (x : json) :
  (forall v, existsb (isinstance v) accepted = true ->
             existsb (isinstance (g v)) accepted = true) ->
  map_over_dict f accepted (map_over_dict g accepted x)
  = map_over_dict (fun v => f (g v)) accepted x.
Proof.
  intros Hg.
  induction x as [| | | |items IH|fields IH] using json_induction;
    rewrite (map_over_dict_eq g), (map_over_dict_eq (fun v => f (g v)));
    match goal with
    | |- context [existsb (isinstance ?v) accepted] =>
        destruct (existsb (isinstance v) accepted) eqn:E
    end;
    try (rewrite (map_over_dict_eq f), (Hg _ E); reflexivity);
    rewrite (map_over_dict_eq f);
    try (rewrite E; reflexivity).
  - change (existsb (isinstance (JArr (map (map_over_dict g accepted) items))) accepted)
      with (existsb (isinstance (JArr items)) accepted).
    rewrite E. f_equal. rewrite map_map. apply map_ext_in. intros v Hv.
    rewrite Forall_forall in IH. now apply IH.
  - match goal with
    | |- context [existsb (isinstance (JObj ?l)) accepted] =>
        change (existsb (isinstance (JObj l)) accepted)
          with (existsb (isinstance (JObj fields)) accepted)
    end.
    rewrite E. f_equal. rewrite map_map. apply map_ext_in. intros [k v] Hv.
    cbn [fst snd]. f_equal. rewrite Forall_forall in IH. apply (IH (k, v) Hv).
Qed.

Definition add_one (x : json) : json :=
  match x with
  | JNum n => JNum (n + 1)
  | _ => x
  end.

Lemma map_over_dict_compose_witness :
  map_over_dict add_one [PyInt]
    (map_over_dict add_one [PyInt]
       (JObj [("a", JObj [("b", JNum 1)]); ("c", JArr [JNum 2; JStr "s"])]))
  = map_over_dict (fun v => add_one (add_one v)) [PyInt]
      (JObj [("a", JObj [("b", JNum 1)]); ("c", JArr [JNum 2; JStr "s"])]).
Proof.
  apply (map_over_dict_compose add_one add_one [PyInt]).
  intros v. destruct v; simpl; auto.
Defined.

Lemma not_accepted (t : pytype) (x : json) accepted :
  ~ In t accepted -> (forall t', isinstance x t' = true -> t' = t) ->
  existsb (isinstance x) accepted = false.
Proof.
  intros Hn Ht. destruct (existsb (isinstance x) accepted) eqn:E; auto.
  apply existsb_exists in E as (t' & Hin & Hi). apply Ht in Hi. subst. contradiction.
Qed.

(** When no dict and no list is of an accepted type, what is found at a
    place before [map_over_dict] is found there afterwards, mapped. *)
Lemma map_over_dict_at f accepted :
  ~ In PyList accepted -> ~ In PyDict accepted ->
  forall p x v, get_at x p = Some v ->
  get_at (map_over_dict f accepted x) p = Some (map_over_dict f accepted v).
Proof.
  intros HL HD. induction p as [|[k|i] p IH]; intros x v H.
  - simpl in *. congruence.
  - destruct x; cbn [get_at] in H; try discriminate. rewrite map_over_dict_eq.
    rewrite (not_accepted PyDict) by (auto; intros [] Ht; now try discriminate).
    cbn [get_at] in *.
    rewrite (assoc_map_fields (fun _ => map_over_dict f accepted)).
    destruct (assoc k fields); [|discriminate]. cbn [option_map]. now apply IH.
  - destruct x; cbn [get_at] in H; try discriminate. rewrite map_over_dict_eq.
    rewrite (not_accepted PyList) by (auto; intros [] Ht; now try discriminate).
    cbn [get_at] in *. rewrite nth_error_map.
    destruct (nth_error items i); [|discriminate]. cbn [option_map]. now apply IH.
Qed.

(** X17. [replace_kairos_prefix] rewrites the strings inside a document and
    nothing else: a string found at a place below the top is found there
    with the prefix replaced, a number, truth value or null stays what it
    was, and no key moves.  A document that is itself a string is not
    changed, since the value computed for it is dropped. *)
Theorem replace_kairos_prefix_spec (kairos_prefix : string) (j : json) :
  (forall p s, p <> [] -> get_at j p = Some (JStr s) ->
     get_at (replace_kairos_prefix kairos_prefix j) p
     = Some (JStr (replace kairos_prefix "kairos:" s)))
  /\ (forall p v, get_at j p = Some v ->
        match v with JNull | JBool _ | JNum _ => True | _ => False end ->
        get_at (replace_kairos_prefix kairos_prefix j) p = Some v)
  /\ (forall s, j = JStr s -> replace_kairos_prefix kairos_prefix j = j).
Proof.
  assert (forall p v, p <> [] -> get_at j p = Some v ->
          get_at (replace_kairos_prefix kairos_prefix j) p
          = Some (map_over_dict (replace_prefix kairos_prefix) [PyStr] v)) as Hat.
  { intros p v Hp H. pose proof (get_at_scalar _ _ _ H Hp) as C.
    unfold replace_kairos_prefix. destruct j; try contradiction;
      apply map_over_dict_at; auto; simpl; intuition discriminate. }
  split; [|split].
  - intros p s Hp H. now rewrite (Hat p _ Hp H).
  - intros p v H Hv. destruct p as [|st p].
    + simpl in H. injection H as ->. now destruct v.
    + rewrite (Hat (st :: p) v ltac:(discriminate) H). now destruct v.
  - now intros s ->.
Qed.

(** ** Identifiers in links *)

Import Resources.

(** [pattern in s]. *)
Fixpoint occurs (pattern s : string) : bool :=
  String.prefix pattern s
  || match s with
     | EmptyString => false
     | String _ rest => occurs pattern rest
     end.

Lemma prefix_nil s : String.prefix "" s = true.
Proof. now destruct s. Qed.

Lemma prefix_cons a q b t :
  String.prefix (String a q) (String b t) = true <-> a = b /\ String.prefix q t = true.
Proof.
  cbn [String.prefix]. destruct (ascii_dec a b) as [->|Hne].
  - tauto.
  - split; [discriminate|]. intros [E _]. contradiction.
Qed.

Lemma prefix_cons_nil a q : String.prefix (String a q) "" = false.
Proof. reflexivity. Qed.

Lemma prefix_append q t : String.prefix q (q ++ t) = true.
Proof.
  induction q as [|a q IH]; [apply prefix_nil|].
  cbn [append]. apply prefix_cons. auto.
Qed.

Lemma prefix_shorter q x t :
  String.prefix (q ++ x) t = true -> String.prefix q t = true.
Proof.
  revert t. induction q as [|a q IH]; intros t H; [apply prefix_nil|].
  destruct t as [|b t]; [discriminate|].
  cbn [append] in H. apply prefix_cons in H as [-> H]. apply prefix_cons. auto.
Qed.

Lemma string_app_assoc a b c : ((a ++ b) ++ c = a ++ b ++ c)%string.
Proof. induction a as [|x a IH]; cbn; [reflexivity|now rewrite IH]. Qed.

Lemma replace_from_skip old new a t :
  replace_from old new (a ++ t) (String.length a) = replace_from old new t 0.
Proof. induction a as [|c a IH]; [reflexivity|exact IH]. Qed.

(** What the escape does, character by character. *)
Lemma escaped_id_cons c rest :
  escaped_id (String c rest)
  = if Ascii.eqb c "/" then ("_FSLASH_" ++ escaped_id rest)%string
    else String c (escaped_id rest).
Proof.
  unfold escaped_id, replace. cbn [replace_from String.prefix String.length].
  destruct (ascii_dec "/" c) as [<-|Hne].
  - rewrite prefix_nil. reflexivity.
  - apply not_eq_sym, Ascii.eqb_neq in Hne. now rewrite Hne.
Qed.

(** A text without slash and underscore that starts the escaped identifier
    starts the identifier. *)
Fixpoint plain (q : string) : bool :=
  match q with
  | EmptyString => true
  | String c rest => negb (Ascii.eqb c "/") && negb (Ascii.eqb c "_") && plain rest
  end.

Lemma prefix_escaped q :
  plain q = true ->
  forall t, String.prefix q (escaped_id t) = true -> String.prefix q t = true.
Proof.
  induction q as [|a q IH]; intros Hq t H; [apply prefix_nil|].
  cbn [plain] in Hq. apply andb_true_iff in Hq as [Ha Hq].
  apply andb_true_iff in Ha as [Ha1 Ha2].
  apply negb_true_iff, Ascii.eqb_neq in Ha1, Ha2.
  destruct t as [|b t]; [discriminate|].
  rewrite escaped_id_cons in H.
  destruct (Ascii.eqb_spec b "/") as [->|Hb].
  - cbn [append] in H. apply prefix_cons in H as [E _]. contradiction.
  - apply prefix_cons in H as [-> H]. apply prefix_cons. auto.
Qed.

(** X18. The link of a quarantined document leads back to it:
    [UriConverter.convert] undoes the escape that [QuarantineSummary] applies
    to an identifier, for every identifier in which [_FSLASH] does not
    occur. *)
Theorem convert_escaped_id (atId : string) :
  occurs "_FSLASH" atId = false ->
  convert (escaped_id atId) = atId.
Proof.
  unfold convert, replace.
  induction atId as [|c rest IH]; intros H; [reflexivity|].
  cbn [occurs] in H. apply orb_false_iff in H as [Hhere Hrest].
  rewrite escaped_id_cons.
  destruct (Ascii.eqb_spec c "/") as [->|Hc].
  - change ("_FSLASH_" ++ escaped_id rest)%string
      with (String "_" ("FSLASH_" ++ escaped_id rest))%string.
    cbn [replace_from].
    change (String "_" ("FSLASH_" ++ escaped_id rest))%string
      with ("_FSLASH_" ++ escaped_id rest)%string.
    rewrite prefix_append.
    change (String.length "_FSLASH_" - 1)%nat with (String.length "FSLASH_").
    rewrite replace_from_skip, (IH Hrest). reflexivity.
  - cbn [replace_from].
    destruct (String.prefix "_FSLASH_" (String c (escaped_id rest))) eqn:P.
    + exfalso. apply prefix_cons in P as [<- P].
      apply (prefix_shorter "FSLASH" "_") in P.
      apply prefix_escaped in P; [|reflexivity].
      assert (String.prefix "_FSLASH" (String "_" rest) = true) as P'
        by (apply prefix_cons; auto).
      congruence.
    + now rewrite (IH Hrest).
Qed.

Lemma convert_escaped_id_witness :
  escaped_id "cmu:Schema/1f0e/coup_FLASH" = "cmu:Schema_FSLASH_1f0e_FSLASH_coup_FLASH"
  /\ convert (escaped_id "cmu:Schema/1f0e/coup_FLASH") = "cmu:Schema/1f0e/coup_FLASH".
Proof.
  split; [reflexivity|].
  apply (convert_escaped_id "cmu:Schema/1f0e/coup_FLASH"). reflexivity.
Defined.

(** ** Routes *)

Section ApiInduction.

Variable resource : Type.
Variable P : api_value resource -> Prop.
Hypothesis HResource : forall r, P (Resource r).
Hypothesis HRoutes : forall api_dict,
  Forall (fun kv => P (snd kv)) api_dict -> P (Routes api_dict).

Fixpoint api_value_induction (v : api_value resource) : P v :=
  match v with
  | Resource r => HResource r
  | Routes api_dict =>
      HRoutes api_dict
        ((fix go (l : list (string * api_value resource))
            : Forall (fun kv => P (snd kv)) l :=
            match l with
            | [] => Forall_nil _
            | kv :: rest => Forall_cons kv (api_value_induction (snd kv)) (go rest)
            end) api_dict)
  end.

End ApiInduction.

(** The resources in an [api_dict], at any depth. *)
Fixpoint resources {resource} (v : api_value resource) : nat :=
  match v with
  | Resource _ => 1
  | Routes api_dict =>
      list_sum (map (fun kv : string * api_value resource =>
                       let (_, v) := kv in resources v) api_dict)
  end.

(** The route does not end in a slash. *)
Definition stripped (route : string) : Prop := last_char route <> Ok "/"%char.

Lemma last_char_cons c s :
  last_char (String c s) = match s with EmptyString => Ok c | _ => last_char s end.
Proof. now destruct s. Qed.

Lemma rstrip_slash_stripped s : stripped (rstrip_slash s).
Proof.
  unfold stripped. induction s as [|c s IH]; [discriminate|].
  cbn [rstrip_slash]. destruct (rstrip_slash s) as [|c' s'] eqn:E.
  - destruct (Ascii.eqb_spec c "/") as [->|Hne]; [discriminate|].
    cbn. congruence.
  - now rewrite last_char_cons.
Qed.

Lemma add_routes_spec {resource} (v : api_value resource) :
  forall app route,
  exists added,
    add_routes app route v = app ++ added
    /\ length added = resources v
    /\ (match v with Resource _ => stripped route | Routes _ => True end ->
        forall rt r, In (rt, r) added -> stripped rt).
Proof.
  induction v as [r|api_dict IH] using api_value_induction; intros app route.
  - exists [(route, r)]. repeat split. intros Hs rt r' [[= <- <-]|[]]. exact Hs.
  - cbn [add_routes resources]. revert app.
    induction IH as [|[k v] api_dict Hv _ IHd]; intros app.
    + exists []. rewrite app_nil_r. repeat split. intros _ rt r [].
    + cbn [fold_left map list_sum snd] in *.
      destruct (Hv app (rstrip_slash (route ++ "/" ++ k))) as (a1 & E1 & L1 & S1).
      rewrite E1. destruct (IHd (app ++ a1)) as (a2 & E2 & L2 & S2).
      exists (a1 ++ a2). rewrite E2, app_assoc, length_app, L1, L2.
      repeat split. intros _ rt r Hin. apply in_app_iff in Hin as [Hin|Hin].
      * apply (S1 ltac:(destruct v; [apply rstrip_slash_stripped|exact I]) rt r Hin).
      * apply (S2 I rt r Hin).
Qed.

(** X19. [create_api] keeps the routes the server has and adds one route
    for each resource of the dictionary, at any depth; no route it adds ends
    in a slash. *)
Theorem create_api_routes {resource} (app : list (string * resource))
    (base_route : string) (api_dict : list (string * api_value resource)) :
  exists added,
    create_api app base_route api_dict = app ++ added
    /\ length added = resources (Routes api_dict)
    /\ forall route r, In (route, r) added -> last_char route <> Ok "/"%char.
Proof.
  unfold create_api.
  destruct (add_routes_spec (Routes api_dict) app base_route) as (added & E & L & S).
  exists added. repeat split; auto. intros route r. now apply S.
Qed.

(** The keys [""] and ["/"] of an [api_dict] both stand for the route of the
    dictionary itself: what is registered under either is registered under
    the base route without its trailing slashes. *)
Lemma create_api_top_level {resource} (app : list (string * resource))
    (base_route : string) (v : api_value resource) :
  create_api app base_route [("", v)] = add_routes app (rstrip_slash base_route) v
  /\ create_api app base_route [("/", v)] = add_routes app (rstrip_slash base_route) v.
Proof.
  assert (forall s t, rstrip_slash t = EmptyString ->
          rstrip_slash (s ++ t) = rstrip_slash s) as Hstrip.
  { induction s as [|c s IH]; intros t Ht; cbn [append rstrip_slash]; auto.
    now rewrite IH. }
  unfold create_api. cbn [add_routes fold_left]. split; now rewrite Hstrip.
Qed.

(** ** The version in the name of the context file *)

(** No character of the text is a newline. *)
Fixpoint one_line (s : string) : bool :=
  match s with
  | EmptyString => true
  | String c rest => negb (Ascii.eqb c newline) && one_line rest
  end.

Lemma version_group_suffix : version_group ".jsonld" = None.
Proof. reflexivity. Qed.

Lemma version_group_version version :
  version <> EmptyString -> one_line version = true ->
  version_group (version ++ ".jsonld") = Some version.
Proof.
  induction version as [|c rest IH]; intros Hne Hline; [congruence|].
  cbn [one_line] in Hline. apply andb_true_iff in Hline as [Hc Hrest].
  apply negb_true_iff in Hc.
  cbn [append version_group]. rewrite Hc.
  destruct rest as [|c' rest'].
  - cbn [append]. rewrite version_group_suffix. reflexivity.
  - rewrite IH; [reflexivity|discriminate|exact Hrest].
Qed.

(** X21. [extract_sdf_version] reads the version back from a file name of
    the form [<stem>-v<version>.jsonld], the form of the configured context
    file: for a stem in which [-v] does not occur and a version that is not
    empty and has no newline, it returns the version. *)
Theorem extract_sdf_version_named (stem version : string) :
  occurs "-v" stem = false ->
  version <> EmptyString ->
  one_line version = true ->
  extract_sdf_version (stem ++ "-v" ++ version ++ ".jsonld") = Ok version.
Proof.
  intros Hstem Hne Hline. unfold extract_sdf_version.
  set (named := ("-v" ++ version ++ ".jsonld")%string).
  assert (String.prefix "-v" named = true) as Hpre by apply prefix_append.
  assert (version_group (drop 2 named) = Some version) as Hgroup
    by (cbn [named drop append]; now apply version_group_version).
  assert (exists rest, named = String "-" rest) as (rest & Hdash) by (eexists; reflexivity).
  clearbody named.
  assert (search_version (stem ++ named) = Some version) as ->; [|reflexivity].
  induction stem as [|c stem IH].
  - cbn [append]. subst named. cbn [search_version]. now rewrite Hpre, Hgroup.
  - cbn [occurs] in Hstem. apply orb_false_iff in Hstem as [Hhere Hrest].
    cbn [append search_version].
    destruct (String.prefix "-v" (String c (stem ++ named))) eqn:P;
      [exfalso|now apply IH].
    apply prefix_cons in P as [<- P].
    destruct stem as [|d stem]; cbn [append] in P.
    + subst named. apply prefix_cons in P as [E _]. discriminate.
    + apply prefix_cons in P as [<- _].
      assert (String.prefix "-v" (String "-" (String "v" stem)) = true) as P'
        by (apply prefix_cons; split; auto; apply prefix_cons; split; auto;
            apply prefix_nil).
      congruence.
Qed.

Lemma extract_sdf_version_named_witness :
  extract_sdf_version "kairos-context-v2.3.jsonld" = Ok "2.3".
Proof.
  apply (extract_sdf_version_named "kairos-context" "2.3").
  - reflexivity.
  - discriminate.
  - reflexivity.
Defined.

(** ** Fresh identifiers *)

Lemma id_suffix_inj i j : id_suffix i = id_suffix j -> i = j.
Proof.
  destruct i as [|i], j as [|j]; cbn [id_suffix]; try discriminate; auto.
  intros E. apply (append_inv_head "_") in E.
  rewrite <- (digits_value_decimal (S i)), <- (digits_value_decimal (S j)).
  now rewrite E.
Qed.

(** The identifiers the loop tries: [s], [s_1], [s_2], ... *)
Definition candidate (s : string) (i : nat) : string := (s ++ id_suffix i)%string.

Lemma candidate_inj s i j : candidate s i = candidate s j -> i = j.
Proof. unfold candidate. intros E. apply append_inv_head in E. now apply id_suffix_inj. Qed.

Lemma in_strings_In x l : existsb (String.eqb x) l = true <-> In x l.
Proof.
  rewrite existsb_exists. split.
  - intros (y & Hy & E). apply String.eqb_eq in E. now subst.
  - intros H. exists x. split; auto. apply String.eqb_refl.
Qed.

Lemma taken_below all_ids s i :
  (forall j, (j < i)%nat -> In (candidate s j) all_ids) -> (i <= length all_ids)%nat.
Proof.
  intros H.
  rewrite <- (length_seq i 0), <- (length_map (candidate s)).
  apply NoDup_incl_length.
  - apply Finite.Injective_map_NoDup; [|apply seq_NoDup].
    intros a b. apply candidate_inj.
  - intros x Hx. apply in_map_iff in Hx as (j & <- & Hj). apply in_seq in Hj.
    apply H. lia.
Qed.

Lemma free_suffix_found all_ids s :
  forall fuel i,
  (forall j, (j < i)%nat -> In (candidate s j) all_ids) ->
  (length all_ids < fuel + i)%nat ->
  exists k,
    free_suffix fuel all_ids s i = Ok (candidate s k)
    /\ ~ In (candidate s k) all_ids
    /\ forall j, (j < k)%nat -> In (candidate s j) all_ids.
Proof.
  induction fuel as [|fuel IH]; intros i Hbelow Hfuel.
  - apply taken_below in Hbelow. lia.
  - cbn [free_suffix]. fold (candidate s i).
    destruct (existsb (String.eqb (candidate s i)) all_ids) eqn:E.
    + apply in_strings_In in E. apply IH; [|lia].
      intros j Hj. destruct (Nat.eq_dec j i) as [->|]; [exact E|apply Hbelow; lia].
    + exists i. split; [reflexivity|]. split; [|exact Hbelow].
      rewrite <- in_strings_In. congruence.
Qed.

(** X22. [ensure_valid_cmu_id] ends and returns an identifier that was not
    in [all_ids]: the first of [s], [s_1], [s_2], ... (for the normalised
    [s]) that is free, which it adds to the set.  It takes at most one turn
    of the loop more than the set has members. *)
Theorem ensure_valid_cmu_id_fresh (fuel : nat) (all_ids : list string) (s s0 : string) :
  normalise_cmu_id s = Ok s0 ->
  (length all_ids < fuel)%nat ->
  exists k,
    ensure_valid_cmu_id fuel all_ids s
      = Ok (candidate s0 k, candidate s0 k :: all_ids)
    /\ ~ In (candidate s0 k) all_ids
    /\ (forall j, (j < k)%nat -> In (candidate s0 j) all_ids)
    /\ (k <= length all_ids)%nat.
Proof.
  intros Hs Hfuel. unfold ensure_valid_cmu_id. rewrite Hs. cbn [bind].
  destruct (free_suffix_found all_ids s0 fuel 0) as (k & E & Hfree & Hbelow);
    [intros j Hj; lia|lia|].
  exists k. rewrite E. cbn [bind]. repeat split; auto.
  now apply taken_below with s0.
Qed.

Lemma ensure_valid_cmu_id_fresh_witness :
  exists k,
    ensure_valid_cmu_id 3 ["cmu:a$b"; "cmu:a$b_1"] "a b"
      = Ok (candidate "cmu:a$b" k, candidate "cmu:a$b" k :: ["cmu:a$b"; "cmu:a$b_1"])
    /\ ~ In (candidate "cmu:a$b" k) ["cmu:a$b"; "cmu:a$b_1"]
    /\ (forall j, (j < k)%nat -> In (candidate "cmu:a$b" j) ["cmu:a$b"; "cmu:a$b_1"])
    /\ (k <= length ["cmu:a$b"; "cmu:a$b_1"])%nat.
Proof.
  apply (ensure_valid_cmu_id_fresh 3 ["cmu:a$b"; "cmu:a$b_1"] "a b" "cmu:a$b").
  - reflexivity.
  - simpl. lia.
Defined.

(** ** Well-formed identifiers *)

(** Every character of the text is acceptable. *)
Fixpoint acceptables (s : string) : bool :=
  match s with
  | EmptyString => true
  | String c rest => acceptable c && acceptables rest
  end.

Lemma acceptables_uint d : acceptables (NilEmpty.string_of_uint d) = true.
Proof. induction d; auto. Qed.

Lemma acceptables_id_suffix i : acceptables (id_suffix i) = true.
Proof.
  destruct i as [|i]; [reflexivity|]. unfold id_suffix, decimal.
  cbn [append acceptables]. now rewrite acceptables_uint.
Qed.

Lemma valid_tail_cons c rest :
  rest <> EmptyString ->
  valid_tail (String c rest)
  = (acceptable c && String.eqb rest (String newline EmptyString))
    || ((acceptable c || Ascii.eqb c "/") && valid_tail rest).
Proof. destruct rest; [congruence|reflexivity]. Qed.

Lemma valid_tail_acceptables s :
  s <> EmptyString -> acceptables s = true -> valid_tail s = true.
Proof.
  induction s as [|c s IH]; intros Hne H; [congruence|].
  cbn [acceptables] in H. apply andb_true_iff in H as [Hc Hs].
  destruct s as [|c' s']; [exact Hc|].
  rewrite valid_tail_cons by discriminate. rewrite Hc, IH by (auto; discriminate).
  apply orb_true_r.
Qed.

Lemma one_line_not_newline rest :
  one_line rest = true -> String.eqb rest (String newline EmptyString) = false.
Proof.
  intros H. apply String.eqb_neq. intros ->. discriminate.
Qed.

(** A valid tail without newline stays valid when acceptable characters
    follow it. *)
Lemma valid_tail_app s suffix :
  valid_tail s = true -> one_line s = true -> acceptables suffix = true ->
  valid_tail (s ++ suffix) = true.
Proof.
  intros Hv Hl Hs. destruct suffix as [|x suffix].
  - assert (forall t, (t ++ "")%string = t) as E
      by (induction t as [|c t IHt]; cbn; congruence).
    now rewrite E.
  - induction s as [|c s IH]; [discriminate|].
    cbn [one_line] in Hl. apply andb_true_iff in Hl as [_ Hl].
    cbn [append]. destruct s as [|c' s'].
    + cbn [append]. cbn [valid_tail] in Hv.
      rewrite valid_tail_cons by discriminate. rewrite Hv.
      rewrite valid_tail_acceptables by (auto; discriminate).
      apply orb_true_r.
    + rewrite valid_tail_cons in Hv by discriminate.
      rewrite (one_line_not_newline _ Hl), andb_false_r in Hv.
      cbn [orb] in Hv. apply andb_true_iff in Hv as [Hc Hv].
      rewrite valid_tail_cons by discriminate.
      rewrite Hc, (IH Hv Hl). apply orb_true_r.
Qed.

Lemma prefix_split q :
  forall s, String.prefix q s = true -> exists rest, s = (q ++ rest)%string.
Proof.
  induction q as [|a q IH]; intros s H; [now exists s|].
  destruct s as [|b s]; [discriminate|].
  apply prefix_cons in H as [-> H]. destruct (IH s H) as (rest & ->). now exists rest.
Qed.

Lemma one_line_app a b : one_line (a ++ b) = one_line a && one_line b.
Proof.
  induction a as [|c a IH]; [reflexivity|]. cbn. rewrite IH. apply andb_assoc.
Qed.

Lemma is_valid_cmu_id_app s suffix :
  is_valid_cmu_id s = true -> one_line s = true -> acceptables suffix = true ->
  is_valid_cmu_id (s ++ suffix) = true.
Proof.
  unfold is_valid_cmu_id. intros H Hl Hs. apply andb_true_iff in H as [Hp Hv].
  destruct (prefix_split _ _ Hp) as (rest & ->).
  rewrite string_app_assoc, prefix_append.
  change (drop 4 ("cmu:" ++ rest ++ suffix)) with (rest ++ suffix)%string.
  change (drop 4 ("cmu:" ++ rest)) with rest in Hv.
  rewrite one_line_app in Hl. apply andb_true_iff in Hl as [_ Hl].
  now rewrite valid_tail_app.
Qed.

Lemma fill_filled s : forall c, In c (list_ascii_of_string (fill s)) ->
  acceptable c || Ascii.eqb c "/" = true.
Proof.
  induction s as [|x s IH]; intros c; cbn; [contradiction|].
  intros [<-|Hin]; [|now apply IH].
  destruct (acceptable x || Ascii.eqb x "/") eqn:E; [exact E|reflexivity].
Qed.

Lemma one_line_fill s : one_line (fill s) = true.
Proof.
  induction s as [|x s IH]; [reflexivity|]. cbn [fill one_line]. rewrite IH.
  rewrite andb_true_r. apply negb_true_iff, Ascii.eqb_neq.
  destruct (acceptable x || Ascii.eqb x "/") eqn:E.
  - intros ->. discriminate.
  - discriminate.
Qed.

Lemma last_char_app s c : last_char (s ++ String c EmptyString) = Ok c.
Proof.
  induction s as [|x s IH]; [reflexivity|]. cbn [append].
  rewrite last_char_cons. destruct s; [reflexivity|exact IH].
Qed.

(** The filled text is a valid tail when the text is not empty and does not
    end in a slash. *)
Lemma valid_tail_fill s c :
  last_char s = Ok c -> c <> "/"%char -> valid_tail (fill s) = true.
Proof.
  induction s as [|x s IH]; intros Hc Hne; [discriminate|].
  rewrite last_char_cons in Hc. destruct s as [|y s'].
  - injection Hc as ->. cbn [fill valid_tail].
    apply Ascii.eqb_neq in Hne. rewrite Hne, orb_false_r.
    now destruct (acceptable c) eqn:E.
  - cbn [fill]. rewrite valid_tail_cons by discriminate.
    change (String (if acceptable y || Ascii.eqb y "/" then y else FILLER_CHAR) (fill s'))
      with (fill (String y s')).
    rewrite (IH Hc Hne), andb_true_r.
    destruct (acceptable x || Ascii.eqb x "/") eqn:E; [rewrite E|]; apply orb_true_r.
Qed.

Lemma normalise_cmu_id_valid s s0 :
  normalise_cmu_id s = Ok s0 -> s <> "cmu:" -> one_line s = true ->
  is_valid_cmu_id s0 = true /\ one_line s0 = true.
Proof.
  unfold normalise_cmu_id. intros H Hne Hl.
  destruct (is_valid_cmu_id s) eqn:V; [injection H as <-; auto|].
  apply bind_Ok in H as (c & Hc & H). cbv zeta in H.
  match type of H with Ok ?t = Ok _ => set (normal := t) in H end.
  assert (s0 = normal) as -> by congruence. clear H. unfold normal. clear normal.
  set (s1 := if Ascii.eqb c "/" then (s ++ String FILLER_CHAR EmptyString)%string else s).
  assert (exists c1, last_char s1 = Ok c1 /\ c1 <> "/"%char) as (c1 & Hc1 & Hne1).
  { unfold s1. destruct (Ascii.eqb_spec c "/") as [->|Hcs].
    - exists FILLER_CHAR. split; [apply last_char_app|discriminate].
    - exists c. auto. }
  assert (s1 <> "cmu:") as Hs1.
  { unfold s1. destruct (Ascii.eqb c "/"); [|exact Hne].
    intros E. pose proof (last_char_app s FILLER_CHAR) as L. rewrite E in L.
    discriminate. }
  clearbody s1.
  set (s2 := if negb (String.eqb (String.substring 0 4 s1) "cmu:")
             then ("cmu:" ++ s1)%string else s1).
  assert (exists tail c2, s2 = ("cmu:" ++ tail)%string
                          /\ last_char tail = Ok c2 /\ c2 <> "/"%char)
    as (tail & c2 & -> & Hc2 & Hne2).
  { unfold s2. destruct (String.eqb_spec (String.substring 0 4 s1) "cmu:") as [E|_].
    - cbn [negb].
      assert (String.prefix "cmu:" s1 = true) as P by (now apply String.prefix_correct).
      destruct (prefix_split _ _ P) as (tail & ->). exists tail, c1.
      split; [reflexivity|]. split; [|exact Hne1].
      destruct tail as [|y tail]; [exfalso; now apply Hs1|exact Hc1].
    - cbn [negb]. exists s1, c1. auto. }
  change (drop 4 ("cmu:" ++ tail)) with tail.
  unfold is_valid_cmu_id. rewrite prefix_append.
  change (drop 4 ("cmu:" ++ fill tail)) with (fill tail).
  rewrite (valid_tail_fill _ _ Hc2 Hne2). split; [reflexivity|].
  rewrite one_line_app, one_line_fill. reflexivity.
Qed.

Lemma free_suffix_form fuel all_ids s :
  forall i x, free_suffix fuel all_ids s i = Ok x -> exists k, x = candidate s k.
Proof.
  induction fuel as [|fuel IH]; intros i x H; [discriminate|].
  cbn [free_suffix] in H. destruct (existsb _ all_ids); [eauto|].
  injection H as <-. now exists i.
Qed.

(** X28. [ensure_valid_cmu_id] returns a valid identifier: for every text
    without a newline other than [cmu:] itself, what it returns matches
    [CMU_ID_REGEX].  (For [cmu:] it returns [cmu:], which does not.) *)
Theorem ensure_valid_cmu_id_valid (fuel : nat) (all_ids all_ids' : list string)
    (s new_s : string) :
  s <> "cmu:" ->
  one_line s = true ->
  ensure_valid_cmu_id fuel all_ids s = Ok (new_s, all_ids') ->
  is_valid_cmu_id new_s = true.
Proof.
  intros Hne Hl H. unfold ensure_valid_cmu_id in H.
  apply bind_Ok in H as (s0 & Hs0 & H). apply bind_Ok in H as (x & Hx & H).
  injection H as <- _.
  destruct (normalise_cmu_id_valid _ _ Hs0 Hne Hl) as [V L].
  destruct (free_suffix_form _ _ _ _ _ Hx) as (k & ->).
  apply is_valid_cmu_id_app; auto. apply acceptables_id_suffix.
Qed.

Lemma ensure_valid_cmu_id_valid_witness :
  ensure_valid_cmu_id 3 ["cmu:Events/a$b/"; "cmu:Events/a$b/$"] "Events/a b/"
  = Ok ("cmu:Events/a$b/$_1",
        ["cmu:Events/a$b/$_1"; "cmu:Events/a$b/"; "cmu:Events/a$b/$"])
  /\ is_valid_cmu_id "cmu:Events/a$b/$_1" = true.
Proof.
  split; [reflexivity|].
  apply (ensure_valid_cmu_id_valid 3 ["cmu:Events/a$b/"; "cmu:Events/a$b/$"]
           ["cmu:Events/a$b/$_1"; "cmu:Events/a$b/"; "cmu:Events/a$b/$"]
           "Events/a b/").
  - discriminate.
  - reflexivity.
  - reflexivity.
Defined.

Example bare_prefix_stays_invalid :
  ensure_valid_cmu_id 1 [] "cmu:" = Ok ("cmu:", ["cmu:"])
  /\ is_valid_cmu_id "cmu:" = false.
Proof. split; reflexivity. Qed.

(** ** Replaced references *)

(** What [sub_id] leaves at a place below the top. *)
Lemma get_sub_id_walk_any target replacement :
  forall q v, q <> [] ->
  get_at (sub_id_walk target replacement v) q
  = match get_at v q with
    | Some x => Some (if negb (ends_at_id q) && eq_str x target then JStr replacement
                      else sub_id_walk target replacement x)
    | None => None
    end.
Proof.
  induction q as [|st q IH]; intros v Hne; [congruence|].
  destruct q as [|st' q'].
  - destruct st as [k|i]; destruct v; try reflexivity.
    + rewrite sub_id_walk_obj. cbn [get_at]. rewrite assoc_map_fields.
      destruct (assoc k fields) as [x|]; [|reflexivity].
      cbn [option_map ends_at_id]. reflexivity.
    + rewrite sub_id_walk_arr. cbn [get_at]. rewrite nth_error_map.
      destruct (nth_error items i) as [x|]; [|reflexivity].
      cbn [option_map ends_at_id negb andb]. reflexivity.
  - assert (ends_at_id (st :: st' :: q') = ends_at_id (st' :: q')) as ->
      by (destruct st; reflexivity).
    destruct st as [k|i]; destruct v; try reflexivity.
    + rewrite sub_id_walk_obj. cbn [get_at]. rewrite assoc_map_fields.
      destruct (assoc k fields) as [x|]; [|reflexivity].
      cbn [option_map]. unfold walk_field.
      destruct (negb (String.eqb k "@id") && eq_str x target) eqn:C.
      * apply andb_true_iff in C as [_ C]. destruct x; try discriminate.
        now destruct st'.
      * apply IH. discriminate.
    + rewrite sub_id_walk_arr. cbn [get_at]. rewrite nth_error_map.
      destruct (nth_error items i) as [x|]; [|reflexivity].
      cbn [option_map]. unfold walk_item.
      destruct (eq_str x target) eqn:C.
      * destruct x; try discriminate. now destruct st'.
      * apply IH. discriminate.
Qed.

(** X30. [sub_id] replaces every reference and no identifier: after
    [sub_id(obj, target, replacement)] with a replacement other than the
    target, the target is found at no place of [obj] outside the [@id]
    fields, while a string under an [@id] key is what it was. *)
Theorem sub_id_replaces_all (obj obj' : json) (target replacement : string) :
  sub_id obj target replacement = Ok obj' ->
  target <> replacement ->
  (forall q, q <> [] -> ends_at_id q = false -> get_at obj' q <> Some (JStr target))
  /\ (forall q s, ends_at_id q = true -> get_at obj q = Some (JStr s) ->
      get_at obj' q = Some (JStr s)).
Proof.
  intros H Hne.
  assert (obj' = sub_id_walk target replacement obj) as ->
    by (destruct obj; unfold sub_id in H; congruence).
  split.
  - intros q Hq Hend Hat. rewrite get_sub_id_walk_any in Hat by assumption.
    destruct (get_at obj q) as [x|]; [|discriminate].
    rewrite Hend in Hat. cbn [negb andb] in Hat.
    destruct (eq_str x target) eqn:E.
    + injection Hat as Hat. congruence.
    + injection Hat as Hat. destruct x; try discriminate.
      cbn [sub_id_walk] in Hat. injection Hat as ->.
      cbn [eq_str] in E. now rewrite String.eqb_refl in E.
  - intros q s Hend Hat.
    assert (q <> []) as Hq by (intros ->; discriminate).
    rewrite get_sub_id_walk_any, Hat by assumption. now rewrite Hend.
Qed.

Definition linked_doc : json :=
  JObj [("@id", JStr "cmu:Events/a");
        ("children", JArr [JObj [("child", JStr "cmu:Events/a")]]);
        ("outlinks", JArr [JStr "cmu:Events/a"; JStr "cmu:Events/b"])].

Lemma sub_id_replaces_all_witness :
  sub_id linked_doc "cmu:Events/a" "cmu:Events/00000/a"
  = Ok (JObj [("@id", JStr "cmu:Events/a");
              ("children", JArr [JObj [("child", JStr "cmu:Events/00000/a")]]);
              ("outlinks", JArr [JStr "cmu:Events/00000/a"; JStr "cmu:Events/b"])])
  /\ (forall q, q <> [] -> ends_at_id q = false ->
      get_at (JObj [("@id", JStr "cmu:Events/a");
                    ("children", JArr [JObj [("child", JStr "cmu:Events/00000/a")]]);
                    ("outlinks", JArr [JStr "cmu:Events/00000/a"; JStr "cmu:Events/b"])])
             q <> Some (JStr "cmu:Events/a"))
  /\ (forall q s, ends_at_id q = true -> get_at linked_doc q = Some (JStr s) ->
      get_at (JObj [("@id", JStr "cmu:Events/a");
                    ("children", JArr [JObj [("child", JStr "cmu:Events/00000/a")]]);
                    ("outlinks", JArr [JStr "cmu:Events/00000/a"; JStr "cmu:Events/b"])])
             q = Some (JStr s)).
Proof.
  split; [reflexivity|].
  apply (sub_id_replaces_all linked_doc _ "cmu:Events/a" "cmu:Events/00000/a").
  - reflexivity.
  - discriminate.
Defined.

(** ** Identifiers drawn at random *)

(** X20. [fix_atIds] with [use_uuids=True], the form in which the
    composition calls it on every schema: it draws one identifier for each
    entity, event, relation, instance and participant, in that order, the
    element in turn [k] getting the [k]-th draw; the document keeps its
    shape, and when the draws are pairwise different so are the identifiers
    of any two elements. *)
Theorem fix_atIds_uuids (uuid4 : nat -> string) (draws : nat) (lib lib' : json)
    (n : nat) :
  fix_atIds uuid4 true draws lib = Ok (lib', n) ->
  n = length (element_places lib)
  /\ skeleton lib' = skeleton lib
  /\ (forall k p, nth_error (element_places lib) k = Some p ->
      get_at lib' (id_place p) = Some (JStr (uuid4 (draws + k)%nat)))
  /\ ((forall i j, uuid4 i = uuid4 j -> i = j) ->
      forall p q, In p (element_places lib) -> In q (element_places lib) ->
        p <> q -> get_at lib' (id_place p) <> get_at lib' (id_place q)).
Proof.
  intros H.
  pose proof (fix_atIds_tagged _ _ _ _ _ H) as Hrun.
  pose proof (element_places_NoDup lib) as ND.
  rewrite <- tagged_places_places in ND.
  destruct (run_ids uuid4 true draws _ _ _ ND Hrun) as (Sk & Cn & Ids & _).
  cbn [fst snd] in *.
  assert (forall k p, nth_error (element_places lib) k = Some p ->
          get_at lib' (id_place p) = Some (JStr (uuid4 (draws + k)%nat))) as Hk.
  { intros k p Hp. rewrite <- tagged_places_places, nth_error_map in Hp.
    destruct (nth_error (tagged_places lib) k) as [[t p0]|] eqn:E; [|discriminate].
    cbn in Hp. injection Hp as ->. destruct (Ids k t p E) as (name & G).
    exact G. }
  split; [|split; [exact Sk|split; [exact Hk|]]].
  - now rewrite Cn, <- tagged_places_places, length_map.
  - intros Hinj p q Hp Hq Hne.
    apply In_nth_error in Hp as (i & Hi). apply In_nth_error in Hq as (j & Hj).
    rewrite (Hk i p Hi), (Hk j q Hj). intros [= E]. apply Hinj in E.
    assert (i = j) as -> by lia. congruence.
Qed.

Lemma fix_atIds_uuids_witness :
  exists lib',
    fix_atIds uuid_of true 7 payment_doc = Ok (lib', 5%nat)
    /\ 5%nat = length (element_places payment_doc)
    /\ skeleton lib' = skeleton payment_doc
    /\ (forall k p, nth_error (element_places payment_doc) k = Some p ->
        get_at lib' (id_place p) = Some (JStr (uuid_of (7 + k)%nat)))
    /\ ((forall i j, uuid_of i = uuid_of j -> i = j) ->
        forall p q,
          In p (element_places payment_doc) -> In q (element_places payment_doc) ->
          p <> q -> get_at lib' (id_place p) <> get_at lib' (id_place q)).
Proof.
  eexists. split; [vm_compute; reflexivity|].
  eapply (fix_atIds_uuids uuid_of 7 payment_doc). vm_compute. reflexivity.
Defined.

(** ** Endpoints *)

(** *** Names of copies *)

Lemma last_segment_from_plain s :
  forall acc, no_slash s = true -> last_segment_from "/" s acc = acc.
Proof.
  induction s as [|c s IH]; intros acc H; [reflexivity|].
  cbn [no_slash] in H. apply andb_true_iff in H as [Hc Hs].
  apply negb_true_iff in Hc. cbn [last_segment_from]. rewrite Hc. now apply IH.
Qed.

Lemma last_segment_after_slash a x :
  forall acc, no_slash x = true ->
  last_segment_from "/" (a ++ String "/" x) acc = x.
Proof.
  induction a as [|c a IH]; intros acc Hx; cbn [append last_segment_from].
  - rewrite Ascii.eqb_refl. now apply last_segment_from_plain.
  - destruct (Ascii.eqb c "/"); now apply IH.
Qed.

(** The last segment holds no slash. *)
Lemma last_segment_from_no_slash s :
  forall pre acc, acc = (pre ++ s)%string -> no_slash pre = true ->
  no_slash (last_segment_from "/" s acc) = true.
Proof.
  induction s as [|c s IH]; intros pre acc -> Hpre; cbn [last_segment_from].
  - now rewrite no_slash_app, Hpre.
  - destruct (Ascii.eqb c "/") eqn:E.
    + now apply (IH EmptyString).
    + apply (IH (pre ++ String c EmptyString)%string).
      * now rewrite string_app_assoc.
      * rewrite no_slash_app, Hpre. cbn. now rewrite E.
Qed.

Lemma get_schema_name_no_slash s : no_slash (get_schema_name s) = true.
Proof. apply (last_segment_from_no_slash s EmptyString); reflexivity. Qed.

Lemma get_schema_row validate_document schema_id no_validate tbl d :
  (exists r, In r tbl /\ atId r = schema_id) ->
  (forall r, In r tbl -> atId r = schema_id -> data r = json_dumps d) ->
  no_validate = true ->
  get_schema validate_document schema_id no_validate tbl = Ok d.
Proof.
  intros (r & Hr & Hid) Hall ->. unfold get_schema.
  destruct (select_by_atId schema_id tbl) as [|x rest] eqn:E.
  - exfalso. assert (In r (select_by_atId schema_id tbl)) as Hin
      by (apply select_by_atId_In; auto).
    rewrite E in Hin. contradiction.
  - assert (In x (select_by_atId schema_id tbl)) as Hx by (rewrite E; now left).
    apply select_by_atId_In in Hx as [Hx Hxid]. now rewrite (Hall x Hx Hxid).
Qed.

(** A document that [write_new_schema] stored is read back. *)
Lemma write_new_schema_read validate_document sdf_data new_id tbl tbl' :
  document_id sdf_data = Ok new_id ->
  write_new_schema sdf_data tbl = Ok tbl' ->
  get_schema validate_document new_id true tbl' = Ok sdf_data
  /\ forall r, In r tbl -> In r tbl'.
Proof.
  intros Hid H. rewrite (write_new_schema_cases _ _ tbl Hid) in H.
  destruct (existsb _ tbl) eqn:E; [discriminate|]. injection H as <-.
  split; [|intros r Hr; apply in_or_app; now left].
  apply get_schema_row; auto.
  - eexists. split; [apply in_or_app; right; now left|reflexivity].
  - intros r Hr Hrid. apply in_app_or in Hr as [Hr|[<-|[]]]; [|reflexivity].
    exfalso. assert (existsb (fun r => String.eqb (atId r) new_id) tbl = true) as C.
    { apply existsb_exists. exists r. split; auto. now apply String.eqb_eq. }
    congruence.
Qed.

(** A document that [write_schema] stored is read back. *)
Lemma write_schema_read validate_document depth now schema_id sdf_data client_id
    new_id tbl tbl' :
  write_schema depth now schema_id sdf_data client_id tbl = Ok tbl' ->
  document_id sdf_data = Ok new_id ->
  get_schema validate_document new_id true tbl' = Ok sdf_data.
Proof.
  intros H Hid.
  pose proof (write_schema_atIds _ _ _ _ _ _ _ _ H Hid) as Hkeys'.
  destruct (write_schema_steps _ _ _ _ _ _ _ _ H Hid) as (tbl2 & Hup & Hkeys & Hin & _).
  apply get_schema_row; auto.
  - assert (In new_id (map atId tbl')) as Hnew.
    { rewrite Hkeys'. apply in_map_iff. exists schema_id. split; auto.
      unfold rename_key. now rewrite String.eqb_refl. }
    apply in_map_iff in Hnew as (r & E & Hr). eauto.
  - unfold update_schema in Hup.
    destruct (_ && _) eqn:C; [discriminate|]. injection Hup as <-.
    intros r' Hr' E. apply in_map_iff in Hr' as (x & <- & Hx).
    destruct (String.eqb_spec (atId x) schema_id) as [Hx'|Hne]; [reflexivity|].
    exfalso. rewrite <- Hkeys, <- existsb_atId in Hin.
    rewrite Hin, andb_true_r in C.
    assert (existsb (fun r => String.eqb (atId r) new_id) tbl2 = true) as Hnew.
    { apply existsb_exists. exists x. split; auto. now apply String.eqb_eq. }
    rewrite Hnew, andb_true_r in C.
    apply negb_false_iff, String.eqb_eq in C. congruence.
Qed.

Lemma in_transaction_Ok block resp tbl r tbl' :
  in_transaction block resp tbl = (Ok r, tbl') -> r = resp /\ block tbl = Ok tbl'.
Proof.
  unfold in_transaction, do_transaction, unit_block.
  destruct (block tbl) as [t|e]; simpl; [|discriminate]. now intros [= <- <-].
Qed.

(** X23. [SchemaInstanceCopy.on_post] stores a copy of a document under a
    new identifier when that identifier is free: the copy is the document
    with only its [@id] changed, its name is the name of the original
    followed by [_copy], the answer carries the new identifier with status
    201, and the rows of the store are all kept. *)
Theorem copy_schema_spec (validate_document : json -> bool) (uuid schema_id s : string)
    (sdf_data : json) (tbl : table) :
  get_schema validate_document schema_id false tbl = Ok sdf_data ->
  getitem sdf_data "@id" = Ok (JStr s) ->
  ~ In ("cmu:Schema/" ++ uuid ++ "/" ++ get_schema_name s ++ "_copy")%string
       (map atId tbl) ->
  exists new_id copy tbl',
    new_id = ("cmu:Schema/" ++ uuid ++ "/" ++ get_schema_name s ++ "_copy")%string
    /\ SchemaInstanceCopy_on_post validate_document uuid schema_id tbl
       = (Ok (mkResponse 201 (JObj [("schemaId", JStr new_id)])), tbl')
    /\ get_schema validate_document new_id true tbl' = Ok copy
    /\ getitem copy "@id" = Ok (JStr new_id)
    /\ (forall k, k <> "@id" -> getitem copy k = getitem sdf_data k)
    /\ get_schema_name new_id = (get_schema_name s ++ "_copy")%string
    /\ (forall r, In r tbl -> In r tbl').
Proof.
  intros Hget Hid Hfree.
  set (new_id := ("cmu:Schema/" ++ uuid ++ "/" ++ get_schema_name s ++ "_copy")%string)
    in *.
  destruct sdf_data as [| | | | |fields]; try discriminate.
  set (copy := JObj (assoc_set "@id" (JStr new_id) fields)).
  assert (document_id copy = Ok new_id) as Hcid
    by (unfold document_id, copy, getitem; now rewrite assoc_set_same).
  pose proof (write_new_schema_cases copy new_id tbl Hcid) as Hw.
  destruct (existsb (fun r => String.eqb (atId r) new_id) tbl) eqn:E;
    [apply existsb_atId in E; contradiction|].
  destruct (write_new_schema_read validate_document _ _ _ _ Hcid Hw) as [Hread Hkept].
  exists new_id, copy. eexists. split; [reflexivity|]. split; [|split; [|split; [|split; [|split]]]].
  - unfold SchemaInstanceCopy_on_post. rewrite Hget. cbn [bind]. rewrite Hid.
    cbn [bind Util.str_method setitem]. fold new_id. fold copy.
    unfold document_id in Hcid. destruct (getitem copy "@id") as [i|] eqn:Gi;
      [|discriminate].
    cbn [bind] in Hcid. destruct i; try discriminate. injection Hcid as ->.
    unfold in_transaction, do_transaction, unit_block. rewrite Hw. reflexivity.
  - exact Hread.
  - unfold copy, getitem. now rewrite assoc_set_same.
  - intros k Hk. unfold copy, getitem. now rewrite assoc_set_other.
  - unfold new_id, get_schema_name, last_segment.
    change ("cmu:Schema/" ++ uuid ++ "/" ++ last_segment_from "/" s s ++ "_copy")%string
      with ("cmu:Schema/" ++ (uuid ++ String "/" (last_segment_from "/" s s ++ "_copy")))%string.
    rewrite <- string_app_assoc. apply last_segment_after_slash.
    rewrite no_slash_app. fold (last_segment "/" s). fold (get_schema_name s).
    now rewrite get_schema_name_no_slash.
  - exact Hkept.
Qed.

Lemma copy_schema_spec_witness :
  exists new_id copy tbl',
    new_id = ("cmu:Schema/" ++ "1f0e" ++ "/" ++ get_schema_name "cmu:Schema/old"
              ++ "_copy")%string
    /\ SchemaInstanceCopy_on_post sample_shape "1f0e" "cmu:Schema/old" broken_store
       = (Ok (mkResponse 201 (JObj [("schemaId", JStr new_id)])), tbl')
    /\ get_schema sample_shape new_id true tbl' = Ok copy
    /\ getitem copy "@id" = Ok (JStr new_id)
    /\ (forall k, k <> "@id" -> getitem copy k = getitem flagged_doc k)
    /\ get_schema_name new_id = (get_schema_name "cmu:Schema/old" ++ "_copy")%string
    /\ (forall r, In r broken_store -> In r tbl').
Proof.
  apply (copy_schema_spec sample_shape "1f0e" "cmu:Schema/old" "cmu:Schema/old"
           flagged_doc broken_store).
  - reflexivity.
  - reflexivity.
  - simpl. intuition discriminate.
Defined.

(** *** Storing through PUT *)

Lemma get_schema_missing validate_document schema_id no_validate tbl :
  get_schema validate_document schema_id no_validate tbl = Raise HTTPNotFound
  -> no_validate = false \/ no_validate = true ->
  (forall r, In r tbl -> atId r = schema_id ->
     loads_sdf validate_document (data r) <> Raise HTTPNotFound
     /\ json_loads (data r) <> Raise HTTPNotFound) ->
  ~ In schema_id (map atId tbl).
Proof.
  unfold get_schema. intros H _ Hrows.
  destruct (select_by_atId schema_id tbl) as [|x rest] eqn:E.
  - now apply select_by_atId_nil.
  - exfalso. assert (In x (select_by_atId schema_id tbl)) as Hx by (rewrite E; now left).
    apply select_by_atId_In in Hx as [Hx Hxid].
    destruct (Hrows x Hx Hxid) as [H1 H2]. destruct no_validate; contradiction.
Qed.

Lemma loads_never_not_found validate_document t :
  loads_sdf validate_document t <> Raise HTTPNotFound
  /\ json_loads t <> Raise HTTPNotFound.
Proof.
  unfold loads_sdf, json_loads, validate_type.
  destruct t as [raw|j]; cbn [bind]; split; try discriminate.
  destruct j; try discriminate. destruct (validate_document _); discriminate.
Qed.

(** X24. A PUT that succeeds stores its document: whatever was there and
    whatever the flag, [get_schema] then returns the document under the
    identifier the document carries.  The answer is 201 exactly when no row
    had the identifier of the request, and 200 only with the overwrite flag
    set. *)
Theorem put_then_get (validate_document : json -> bool) (depth : nat) (now : Z)
    (should_overwrite : bool) (schema_id client_id new_id : string)
    (document : json) (tbl tbl' : table) (resp : response) :
  document_id document = Ok new_id ->
  SchemaInstance_on_put validate_document depth now should_overwrite schema_id
    document client_id tbl = (Ok resp, tbl') ->
  get_schema validate_document new_id true tbl' = Ok document
  /\ (status resp = 201%nat <-> ~ In schema_id (map atId tbl))
  /\ (status resp = 200%nat -> should_overwrite = true).
Proof.
  intros Hid H. unfold SchemaInstance_on_put in H.
  destruct (get_schema validate_document schema_id false tbl) as [d|e] eqn:G.
  - (* a row is there *)
    assert (In schema_id (map atId tbl)) as Hin.
    { unfold get_schema in G.
      destruct (select_by_atId schema_id tbl) as [|x rest] eqn:E; [discriminate|].
      assert (In x (select_by_atId schema_id tbl)) as Hx by (rewrite E; now left).
      apply select_by_atId_In in Hx as [Hx <-]. now apply in_map. }
    cbn [andb] in H. destruct should_overwrite; cbn [negb] in H.
    + apply in_transaction_Ok in H as [-> Hw]. split; [|split].
      * eapply write_schema_read; eauto.
      * cbn. split; [discriminate|]. intros Hn. contradiction.
      * reflexivity.
    + rewrite Hid in H. discriminate.
  - destruct e; try discriminate. cbn [andb] in H.
    apply in_transaction_Ok in H as [-> Hw]. split; [|split].
    + now apply (write_new_schema_read validate_document _ _ _ _ Hid Hw).
    + cbn. split; [intros _|reflexivity].
      apply (get_schema_missing validate_document schema_id false tbl G); auto.
      intros r _ _. apply loads_never_not_found.
    + cbn. discriminate.
Qed.

Lemma put_then_get_witness :
  exists tbl',
    SchemaInstance_on_put sample_shape 2 130 true "cmu:Schema/old" flagged_doc "bob"
      broken_store = (Ok (mkResponse 200 JNull), tbl')
    /\ get_schema sample_shape "cmu:Schema/old" true tbl' = Ok flagged_doc
    /\ (status (mkResponse 200 JNull) = 201%nat
        <-> ~ In "cmu:Schema/old" (map atId broken_store))
    /\ (status (mkResponse 200 JNull) = 200%nat -> true = true).
Proof.
  eexists. split; [reflexivity|].
  eapply (put_then_get sample_shape 2 130 true "cmu:Schema/old" "bob" "cmu:Schema/old"
            flagged_doc broken_store).
  - reflexivity.
  - reflexivity.
Defined.

(** *** Tags *)

(** X25. A PATCH of the tags that succeeds changes the tags and nothing
    else of the document: the stored document has the new tags under
    [privateData.eratosthenesTags], every other key of the document and
    every other key of its private data are what they were. *)
Theorem patch_tags_spec (validate_document : json -> bool) (depth : nat) (now : Z)
    (schema_id client_id new_id : string) (tags sdf_data : json)
    (tbl tbl' : table) (resp : response) :
  get_schema validate_document schema_id false tbl = Ok sdf_data ->
  document_id sdf_data = Ok new_id ->
  SchemaTags_on_patch validate_document depth now schema_id tags client_id tbl
    = (Ok resp, tbl') ->
  exists stored private_data,
    get_schema validate_document new_id true tbl' = Ok stored
    /\ getitem stored "privateData" = Ok private_data
    /\ getitem private_data "eratosthenesTags" = Ok tags
    /\ (forall k, k <> "privateData" -> getitem stored k = getitem sdf_data k)
    /\ (forall k d, k <> "eratosthenesTags" ->
          get private_data k d
          = (old <- get sdf_data "privateData" (JObj []) ;; get old k d)).
Proof.
  intros Hget Hid H. unfold SchemaTags_on_patch in H. rewrite Hget in H.
  cbn [bind] in H.
  destruct (get sdf_data "privateData" (JObj [])) as [old|] eqn:Gold; [|discriminate].
  cbn [bind] in H.
  destruct (setitem old "eratosthenesTags" tags) as [pd|] eqn:Spd; [|discriminate].
  cbn [bind] in H.
  destruct (setitem sdf_data "privateData" pd) as [stored|] eqn:Sst; [|discriminate].
  apply in_transaction_Ok in H as [_ Hw].
  assert (document_id stored = Ok new_id) as Hid'.
  { unfold document_id in *.
    now rewrite (getitem_setitem_other _ _ _ _ "@id" Sst) by discriminate. }
  exists stored, pd. split; [|split; [|split; [|split]]].
  - eapply write_schema_read; eauto.
  - eapply getitem_setitem_same; eauto.
  - eapply getitem_setitem_same; eauto.
  - intros k Hk. eapply getitem_setitem_other; eauto.
  - intros k d Hk. cbn [bind]. eapply get_setitem_other; eauto.
Qed.

Lemma patch_tags_spec_witness :
  exists tbl' stored private_data,
    SchemaTags_on_patch sample_shape 2 130 "cmu:Schema/old" (JArr [JStr "draft"]) "bob"
      broken_store = (Ok (mkResponse 200 JNull), tbl')
    /\ get_schema sample_shape "cmu:Schema/old" true tbl' = Ok stored
    /\ getitem stored "privateData" = Ok private_data
    /\ getitem private_data "eratosthenesTags" = Ok (JArr [JStr "draft"])
    /\ (forall k, k <> "privateData" -> getitem stored k = getitem flagged_doc k)
    /\ (forall k d, k <> "eratosthenesTags" ->
          get private_data k d
          = (old <- get flagged_doc "privateData" (JObj []) ;; get old k d)).
Proof.
  eexists.
  destruct (patch_tags_spec sample_shape 2 130 "cmu:Schema/old" "bob" "cmu:Schema/old"
              (JArr [JStr "draft"]) flagged_doc broken_store _ _
              eq_refl eq_refl eq_refl) as (stored & pd & H).
  exists stored, pd. split; [reflexivity|exact H].
Defined.

(** *** Creating by name *)

(** X26. Two schemas cannot be created under one name: once
    [Schemas.on_post] has created the blank schema of a name, which is then
    read back under [cmu:Schema/<name>], a second request with the same name
    fails with the integrity error of the primary key and leaves the store
    as it is. *)
Theorem create_same_name_twice (validate_document : json -> bool)
    (jsonld_context : json) (sdf_version name : string) (tbl tbl1 : table)
    (resp : response) :
  Schemas_on_post jsonld_context sdf_version name tbl = (Ok resp, tbl1) ->
  resp = mkResponse 201 (JObj [("schemaId", JStr ("cmu:Schema/" ++ name))])
  /\ get_schema validate_document ("cmu:Schema/" ++ name) true tbl1
     = Ok (create_blank_schema jsonld_context sdf_version name)
  /\ Schemas_on_post jsonld_context sdf_version name tbl1
     = (Raise IntegrityError, tbl1).
Proof.
  unfold Schemas_on_post. cbv zeta.
  set (blank := create_blank_schema jsonld_context sdf_version name).
  assert (getitem blank "@id" = Ok (JStr ("cmu:Schema/" ++ name))) as G by reflexivity.
  assert (document_id blank = Ok ("cmu:Schema/" ++ name)%string) as Hid by reflexivity.
  rewrite G. intros H.
  apply in_transaction_Ok in H as [-> Hw].
  destruct (write_new_schema_read validate_document _ _ _ _ Hid Hw) as [Hread _].
  split; [reflexivity|]. split; [exact Hread|].
  unfold in_transaction, do_transaction, unit_block.
  rewrite (write_new_schema_cases _ _ tbl1 Hid).
  assert (In ("cmu:Schema/" ++ name)%string (map atId tbl1)) as Hin.
  { rewrite (write_new_schema_cases _ _ tbl Hid) in Hw.
    destruct (existsb _ tbl); [discriminate|]. injection Hw as <-.
    rewrite map_app. apply in_or_app. right. now left. }
  apply existsb_atId in Hin. now rewrite Hin.
Qed.

Lemma create_same_name_twice_witness :
  exists tbl1,
    Schemas_on_post JNull "2.3" "coup" locked_store
    = (Ok (mkResponse 201 (JObj [("schemaId", JStr "cmu:Schema/coup")])), tbl1)
    /\ get_schema (fun _ => true) "cmu:Schema/coup" true tbl1
       = Ok (create_blank_schema JNull "2.3" "coup")
    /\ Schemas_on_post JNull "2.3" "coup" tbl1 = (Raise IntegrityError, tbl1).
Proof.
  eexists. split; [reflexivity|].
  apply (create_same_name_twice (fun _ => true) JNull "2.3" "coup" locked_store _
           (mkResponse 201 (JObj [("schemaId", JStr "cmu:Schema/coup")]))).
  reflexivity.
Defined.

(** *** Taking and giving back a lock *)

Lemma select_relock ts h schema_id tbl :
  select_by_atId schema_id (relock ts h schema_id tbl)
  = map (with_lock ts h) (select_by_atId schema_id tbl).
Proof.
  unfold select_by_atId, relock.
  induction tbl as [|r tbl IH]; [reflexivity|]. cbn [map filter].
  destruct (String.eqb (atId r) schema_id) eqn:E; cbn [filter atId with_lock];
    rewrite E; cbn [map]; now rewrite IH.
Qed.

(** [set_lock] on a store with one row of the identifier. *)
Lemma set_lock_row now acquire schema_id client_id tbl r :
  select_by_atId schema_id tbl = [r] ->
  set_lock now acquire schema_id client_id tbl
  = if blockedb now client_id r
    then Raise (HTTPConflict
                  ("Another user is editing the schema with @id " ++ schema_id ++ "."))
    else Ok (relock (if acquire then Some now else None)
                    (if acquire then Some client_id else None) schema_id tbl).
Proof.
  intros E. unfold set_lock, blockedb. rewrite E. cbn [length Nat.eqb].
  now destruct (_ && _).
Qed.

Lemma set_lock_one_row now acquire schema_id client_id tbl tbl' :
  set_lock now acquire schema_id client_id tbl = Ok tbl' ->
  exists r, select_by_atId schema_id tbl = [r].
Proof.
  unfold set_lock.
  destruct (select_by_atId schema_id tbl) as [|r [|r' rest]]; try discriminate; eauto.
  destruct (_ && _); discriminate.
Qed.

(** X27. After [SchemaLock.on_put] succeeded the client is the recorded
    holder of the row.  In every store in which the client is the recorded
    holder of the row, whatever else was done to the store since and however
    long ago the lease ran out, [SchemaLock.on_delete] by that client
    succeeds and leaves the row without holder, and the lock is then given
    to whoever asks for it.  The right to give the lock back is lost only to
    another client: once another client is the recorded holder and that
    lease is within its lifetime, the delete is refused as a conflict and
    the store stays as it is. *)
Theorem lock_then_unlock (now : Z) (schema_id client_id : string)
    (tbl tbl1 : table) (resp : response) :
  SchemaLock_on_put now schema_id client_id tbl = (Ok resp, tbl1) ->
  resp = mkResponse 201 JNull
  /\ (exists r, select_by_atId schema_id tbl1 = [r]
                /\ holder_id r = Some client_id /\ lock_ts r = Some now)
  /\ (forall tbl' r later,
        select_by_atId schema_id tbl' = [r] -> holder_id r = Some client_id ->
        exists tbl2,
          SchemaLock_on_delete later schema_id client_id tbl'
            = (Ok (mkResponse 200 JNull), tbl2)
          /\ get_lock_holder schema_id tbl2 = None
          /\ forall other t,
               exists tbl3,
                 SchemaLock_on_put t schema_id other tbl2
                 = (Ok (mkResponse 201 JNull), tbl3))
  /\ (forall tbl' r later other t,
        select_by_atId schema_id tbl' = [r] ->
        holder_id r = Some other -> other <> client_id ->
        lock_ts r = Some t -> later - t <= LOCK_LIFETIME ->
        exists d,
          SchemaLock_on_delete later schema_id client_id tbl'
          = (Raise (HTTPConflict d), tbl')).
Proof.
  unfold SchemaLock_on_put, SchemaLock_on_delete. intros H.
  apply in_transaction_Ok in H as [-> H1].
  split; [reflexivity|split; [|split]].
  - destruct (set_lock_one_row _ _ _ _ _ _ H1) as (r & Hr).
    apply set_lock_Ok in H1 as [_ ->]. rewrite select_relock, Hr.
    eexists. split; [reflexivity|]. split; reflexivity.
  - intros tbl' r later Hr Hh.
    assert (set_lock later false schema_id client_id tbl'
            = Ok (relock None None schema_id tbl')) as H2.
    { rewrite (set_lock_row _ _ _ _ _ _ Hr). unfold blockedb. rewrite Hh.
      cbn [holder_is]. rewrite String.eqb_refl. now rewrite andb_false_r. }
    exists (relock None None schema_id tbl'). split; [|split].
    + unfold in_transaction, do_transaction, unit_block. now rewrite H2.
    + unfold get_lock_holder. now rewrite select_relock, Hr.
    + intros other t. eexists.
      unfold in_transaction, do_transaction, unit_block.
      rewrite (set_lock_row t true schema_id other _ (with_lock None None r))
        by (now rewrite select_relock, Hr).
      reflexivity.
  - intros tbl' r later other t Hr Hh Hne Hts Hlate. eexists.
    unfold in_transaction, do_transaction, unit_block.
    rewrite (set_lock_row _ _ _ _ _ _ Hr).
    assert (blockedb later client_id r = true) as ->.
    { apply blockedb_spec. split; [eauto|]. rewrite Hh. congruence. }
    reflexivity.
Qed.

(** Bob takes the lock at 100; Alice takes it over at 130, when the lease of
    Bob has run out. *)
Definition bob_store : table :=
  [ mkRow "cmu:Schema/a" (Some 100) (Some "alice")
      (Dumps (JObj [("@id", JStr "cmu:Schema/a")])) 0 None;
    mkRow "cmu:Schema/b" (Some 100) (Some "bob")
      (Dumps (JObj [("@id", JStr "cmu:Schema/b")])) 0 None ].

Definition alice_store : table :=
  [ mkRow "cmu:Schema/a" (Some 100) (Some "alice")
      (Dumps (JObj [("@id", JStr "cmu:Schema/a")])) 0 None;
    mkRow "cmu:Schema/b" (Some 130) (Some "alice")
      (Dumps (JObj [("@id", JStr "cmu:Schema/b")])) 0 None ].

Lemma lock_then_unlock_witness :
  SchemaLock_on_put 100 "cmu:Schema/b" "bob" locked_store
    = (Ok (mkResponse 201 JNull), bob_store)
  /\ SchemaLock_on_put 130 "cmu:Schema/b" "alice" bob_store
     = (Ok (mkResponse 201 JNull), alice_store)
  /\ (exists tbl2,
        SchemaLock_on_delete 5000 "cmu:Schema/b" "bob" bob_store
          = (Ok (mkResponse 200 JNull), tbl2)
        /\ get_lock_holder "cmu:Schema/b" tbl2 = None)
  /\ exists d,
       SchemaLock_on_delete 135 "cmu:Schema/b" "bob" alice_store
       = (Raise (HTTPConflict d), alice_store).
Proof.
  destruct (lock_then_unlock 100 "cmu:Schema/b" "bob" locked_store bob_store
              (mkResponse 201 JNull) eq_refl) as (_ & _ & Hback & Hlost).
  split; [reflexivity|split; [reflexivity|split]].
  - destruct (Hback bob_store _ 5000 eq_refl eq_refl) as (tbl2 & H1 & H2 & _). eauto.
  - apply (Hlost alice_store _ 135 "alice" 130 eq_refl eq_refl);
      [discriminate|reflexivity|unfold LOCK_LIFETIME; lia].
Defined.
